(** * Omega-Code: the response-parsing and code-cleaning pipeline of [coder.py]

    A shallow embedding of the methods of [OmegaCoder] that turn raw model
    output into a project structure, cleaned source text and a dependency
    list, together with the library functions they call ([str] methods, the
    [re] functions on the patterns used, [json.loads], [pathlib]'s suffix).

    Conventions.
    - A Python [str] is a list of code points ([N]).
    - A function that may raise returns [result A := exn + A]; a
      [try ... except Exception] block is [try_except].
    - [ast.parse] is the CPython parser; it is not reproduced here and enters
      [_clean_generated_code] as an argument giving its outcome on a text.
    - The interpreter's recursion limit enters [json.loads], and with it
      [_parse_structure_response], as the number of nested calls still
      allowed in the JSON scanner (CPython 3.11). *)

From Stdlib Require Import Ascii String.
From Stdlib Require Import List NArith ZArith Bool Arith Lia.
Import ListNotations.

Set Warnings "-register-all".

(* ================================================================== *)
(** * Python strings *)
(* ================================================================== *)

Module PyStr.

Definition char := N.
Definition str := list char.

Definition ch (a : ascii) : char := N_of_ascii a.

Definition str_eqb (a b : str) : bool :=
  if list_eq_dec N.eq_dec a b then true else false.

(** ** Literals

    [py "..."] reads a literal the way Python reads a non-raw string
    literal, for the escapes used in this file: backslash followed by
    [n], [t], [r], backslash or [xHH]. *)

Definition hexval (c : char) : N :=
  if ((48 <=? c) && (c <=? 57))%N then c - 48
  else if ((97 <=? c) && (c <=? 102))%N then c - 87
  else if ((65 <=? c) && (c <=? 70))%N then c - 55
  else 0%N.

Fixpoint unescape (l : str) : str :=
  match l with
  | [] => []
  | c :: l1 =>
      if (c =? 92)%N then
        match l1 with
        | e :: l2 =>
            if (e =? 110)%N then 10%N :: unescape l2
            else if (e =? 116)%N then 9%N :: unescape l2
            else if (e =? 114)%N then 13%N :: unescape l2
            else if (e =? 92)%N then 92%N :: unescape l2
            else if (e =? 120)%N then
              match l2 with
              | h1 :: h2 :: l3 => (16 * hexval h1 + hexval h2)%N :: unescape l3
              | _ => c :: unescape l1
              end
            else c :: unescape l1
        | [] => [c]
        end
      else c :: unescape l1
  end.

Definition py (s : string) : str :=
  unescape (map ch (list_ascii_of_string s)).

(** ** Character classes *)

Definition nl : char := 10%N.

(** [str.isspace] on one code point, which is also [\s] of [re] on [str]
    patterns: the code points CPython's [Py_UNICODE_ISSPACE] accepts. *)
Definition isspace (c : char) : bool :=
  ((9 <=? c) && (c <=? 13) || (28 <=? c) && (c <=? 32)
   || (c =? 133) || (c =? 160) || (c =? 5760)
   || (8192 <=? c) && (c <=? 8202)
   || (c =? 8232) || (c =? 8233) || (c =? 8239) || (c =? 8287)
   || (c =? 12288))%N.

Definition mem (c : char) (cs : str) : bool := existsb (N.eqb c) cs.

(** ** Methods of [str] *)

Fixpoint drop_while (p : char -> bool) (s : str) : str :=
  match s with
  | [] => []
  | c :: s' => if p c then drop_while p s' else s
  end.

Definition lstrip_by (p : char -> bool) (s : str) : str := drop_while p s.
Definition rstrip_by (p : char -> bool) (s : str) : str :=
  rev (drop_while p (rev s)).

(** [s.rstrip()], [s.strip()] and [s.strip(chars)]. *)
Definition rstrip (s : str) : str := rstrip_by isspace s.
Definition strip (s : str) : str := rstrip_by isspace (lstrip_by isspace s).
Definition strip_chars (cs : str) (s : str) : str :=
  rstrip_by (fun c => mem c cs) (lstrip_by (fun c => mem c cs) s).

(** [p] is a prefix of [s], the characters of [p] being compared with
    those of [s] by [eq]. *)
Fixpoint prefix_by (eq : char -> char -> bool) (p s : str) : bool :=
  match p, s with
  | [], _ => true
  | a :: p', b :: s' => eq a b && prefix_by eq p' s'
  | _ :: _, [] => false
  end.

Definition startswith (p s : str) : bool := prefix_by N.eqb p s.

Definition endswith (suf s : str) : bool := startswith (rev suf) (rev s).

(** [s.endswith((a, b, ...))]. *)
Definition endswith_any (sufs : list str) (s : str) : bool :=
  existsb (fun suf => endswith suf s) sufs.

(** [sub] occurs in [s], characters compared by [eq]; [sub in s] is the
    case of equality. *)
Fixpoint occurs_by (eq : char -> char -> bool) (sub s : str) : bool :=
  prefix_by eq sub s ||
  match s with
  | [] => false
  | _ :: s' => occurs_by eq sub s'
  end.

Definition contains (sub s : str) : bool := occurs_by N.eqb sub s.

(** [s.split(sep)] for a separator of one character. *)
Fixpoint split (sep : char) (s : str) : list str :=
  match s with
  | [] => [[]]
  | c :: s' =>
      if (c =? sep)%N then [] :: split sep s'
      else match split sep s' with
           | l :: ls => (c :: l) :: ls
           | [] => [[c]]
           end
  end.

(** [sep.join(ls)]. *)
Fixpoint join (sep : str) (ls : list str) : str :=
  match ls with
  | [] => []
  | [l] => l
  | l :: ls' => l ++ sep ++ join sep ls'
  end.

(** [s.replace(old, new)] for a non-empty [old]: occurrences are taken from
    left to right without overlap.  [skip] counts the characters of an
    occurrence still to be passed over. *)
Fixpoint replace_from (old new : str) (skip : nat) (s : str) : str :=
  match s with
  | [] => []
  | c :: s' =>
      match skip with
      | S k => replace_from old new k s'
      | O =>
          if startswith old s
          then new ++ replace_from old new (length old - 1) s'
          else c :: replace_from old new 0 s'
      end
  end.

Definition replace (old new s : str) : str := replace_from old new 0 s.

(** [s.rfind(c)] for one character: the index of the last occurrence. *)
Fixpoint rfind (c : char) (s : str) : option nat :=
  match s with
  | [] => None
  | x :: s' =>
      match rfind c s' with
      | Some i => Some (S i)
      | None => if (x =? c)%N then Some 0 else None
      end
  end.

(** [s.lower()].  The case table is given for the code points below 256
    (Basic Latin and Latin-1); beyond them the only code point whose
    lowercase is made of ASCII letters alone is the Kelvin sign. *)
Definition lower_char (c : char) : char :=
  if ((65 <=? c) && (c <=? 90))%N then (c + 32)%N
  else if ((192 <=? c) && (c <=? 222) && negb (c =? 215))%N then (c + 32)%N
  else if (c =? 8490)%N then 107%N
  else c.

Definition lower (s : str) : str := map lower_char s.

End PyStr.

Import PyStr.

(* ================================================================== *)
(** * Exceptions *)
(* ================================================================== *)

(** The exceptions met by the modelled code; each is a subclass of
    [Exception]. *)
Inductive exn : Type :=
| JSONDecodeError
| ValueError
| RecursionError
| MemoryError
| StopIteration.

Definition result (A : Type) : Type := (exn + A)%type.

Definition ret {A} (a : A) : result A := inr a.
Definition raise {A} (e : exn) : result A := inl e.

Definition bind {A B} (m : result A) (f : A -> result B) : result B :=
  match m with
  | inl e => inl e
  | inr a => f a
  end.

Notation "x <- m ;; k" := (bind m (fun x => k))
  (at level 61, m at next level, right associativity).
Notation "' p <- m ;; k" := (bind m (fun x => let p := x in k))
  (at level 61, p pattern, m at next level, right associativity).

(** [try: body  except Exception: handler]: every class of [exn] derives
    from [Exception]. *)
Definition try_except {A} (body : result A) (handler : exn -> result A)
  : result A :=
  match body with
  | inl e => handler e
  | inr a => inr a
  end.

(* ================================================================== *)
(** * The [re] module on the patterns of [coder.py] *)
(* ================================================================== *)

Module Re.

(** Pattern syntax: what the seven patterns of [coder.py] are built from.
    Repetition is of a single character class, greedy or lazy. *)
Inductive regex : Type :=
| Eps
| Chr (p : char -> bool)
| Seq (r1 r2 : regex)
| Alt (r1 r2 : regex)
| Star (greedy : bool) (p : char -> bool)
| Group (r : regex)
| Bol.

Definition groups := list str.

(** A continuation receives the character before the current position, the
    text from the current position on and the groups closed so far. *)
Definition cont := option char -> str -> groups -> option (groups * str).

Fixpoint star (greedy : bool) (p : char -> bool) (k : cont)
  (prev : option char) (s : str) (g : groups) : option (groups * str) :=
  match s with
  | [] => k prev [] g
  | c :: s' =>
      if p c then
        if greedy then
          match star greedy p k (Some c) s' g with
          | Some m => Some m
          | None => k prev s g
          end
        else
          match k prev s g with
          | Some m => Some m
          | None => star greedy p k (Some c) s' g
          end
      else k prev s g
  end.

(** Backtracking matcher: alternatives are tried in the order of the
    pattern and the first success is returned, as [re] does. *)
Fixpoint run (r : regex) (k : cont) (prev : option char) (s : str)
  (g : groups) : option (groups * str) :=
  match r with
  | Eps => k prev s g
  | Chr p =>
      match s with
      | c :: s' => if p c then k (Some c) s' g else None
      | [] => None
      end
  | Seq r1 r2 => run r1 (run r2 k) prev s g
  | Alt r1 r2 =>
      match run r1 k prev s g with
      | Some m => Some m
      | None => run r2 k prev s g
      end
  | Star greedy p => star greedy p k prev s g
  | Group r1 =>
      run r1 (fun prev' s' g' =>
                k prev' s' (g' ++ [firstn (length s - length s') s]))
          prev s g
  | Bol =>
      match prev with
      | None => k prev s g
      | Some c => if (c =? nl)%N then k prev s g else None
      end
  end.

(** The character before the position reached by reading [m]. *)
Definition after (prev : option char) (m : str) : option char :=
  fold_left (fun _ c => Some c) m prev.

(** The continuation at the end of a pattern: the match is complete. *)
Definition final : cont := fun _ s' g => Some (g, s').

(** A match starting at the current position: its groups and the text
    after it. *)
Definition match_at (r : regex) (prev : option char) (s : str)
  : option (groups * str) :=
  run r final prev s [].

(** [re.search]: the groups of the leftmost match. *)
Fixpoint search_from (r : regex) (prev : option char) (s : str)
  : option groups :=
  match match_at r prev s with
  | Some (g, _) => Some g
  | None =>
      match s with
      | [] => None
      | c :: s' => search_from r (Some c) s'
      end
  end.

Definition search (r : regex) (s : str) : option groups :=
  search_from r None s.

(** [re.finditer]: the groups of the successive non-overlapping matches.
    [skip] counts the characters of the last match still to be passed over.
    None of the patterns of this file matches the empty string. *)
Fixpoint finditer_from (r : regex) (skip : nat) (prev : option char)
  (s : str) : list groups :=
  match s with
  | [] =>
      match skip, match_at r prev [] with
      | O, Some (g, _) => [g]
      | _, _ => []
      end
  | c :: s' =>
      match skip with
      | S n => finditer_from r n (Some c) s'
      | O =>
          match match_at r prev s with
          | Some (g, rest) =>
              g :: finditer_from r (length s - length rest - 1) (Some c) s'
          | None => finditer_from r 0 (Some c) s'
          end
      end
  end.

Definition finditer (r : regex) (s : str) : list groups :=
  finditer_from r 0 None s.

(** [re.sub(r, '', s)]: every match is deleted. *)
Fixpoint sub_from (r : regex) (skip : nat) (prev : option char) (s : str)
  : str :=
  match s with
  | [] => []
  | c :: s' =>
      match skip with
      | S n => sub_from r n (Some c) s'
      | O =>
          match match_at r prev s with
          | Some (_, rest) =>
              match length s - length rest with
              | O => c :: sub_from r 0 (Some c) s'
              | S n => sub_from r n (Some c) s'
              end
          | None => c :: sub_from r 0 (Some c) s'
          end
      end
  end.

Definition sub_empty (r : regex) (s : str) : str := sub_from r 0 None s.

(** ** Building patterns *)

Definition one (c : char) : char -> bool := N.eqb c.
Definition any : char -> bool := fun _ => true.          (* . with DOTALL *)
Definition dot : char -> bool := fun c => negb (c =? nl)%N. (* .           *)
Definition space : char -> bool := isspace.              (* \s            *)
Definition nonspace : char -> bool := fun c => negb (isspace c). (* \S    *)
Definition az : char -> bool :=                           (* [a-z]         *)
  fun c => ((97 <=? c) && (c <=? 122))%N.
Definition quote : char -> bool :=          (* a quote, single or double *)
  fun c => ((c =? 39) || (c =? 34))%N.

(** A pattern character under [re.IGNORECASE]: the text character matches
    when its lowercase is the pattern character's; [s] is also matched by
    U+017F.  (Stated for the characters of [# Response:].) *)
Definition ieq (pc : char) : char -> bool :=
  fun c => ((lower_char c =? lower_char pc)
            || (lower_char pc =? 115) && (c =? 383))%N.

Fixpoint lits_by (eq : char -> char -> bool) (l : str) : regex :=
  match l with
  | [] => Eps
  | c :: l' => Seq (Chr (eq c)) (lits_by eq l')
  end.

Definition lits (l : str) : regex := lits_by N.eqb l.
Definition lits_i (l : str) : regex := lits_by ieq l.

Fixpoint cat (rs : list regex) : regex :=
  match rs with
  | [] => Eps
  | [r] => r
  | r :: rs' => Seq r (cat rs')
  end.

Definition plus (greedy : bool) (p : char -> bool) : regex :=
  Seq (Chr p) (Star greedy p).

End Re.

Import Re.

(** ** The patterns of [coder.py] *)

(** [r'```json\n(.*?)\n```'] with [re.DOTALL]. *)
Definition json_block_re : regex :=
  cat [lits (py "```json\n"); Group (Star false any); lits (py "\n```")].

(** [r'```[a-z]*\n']. *)
Definition fence_open_re : regex :=
  cat [lits (py "```"); Star true az; Chr (one nl)].

(** [r'# Response:.*?\n'] and [r'// Response:.*?\n'] with
    [re.IGNORECASE]. *)
Definition echo_re (marker : str) : regex :=
  cat [lits_i marker; Star false dot; Chr (one nl)].
Definition echo_hash_re : regex := echo_re (py "# Response:").
Definition echo_slash_re : regex := echo_re (py "// Response:").

(** What an echo pattern reads after the marker: the rest of the line and
    its newline. *)
Definition echo_tail (t : str) : option (groups * str) :=
  star false dot (run (Chr (one nl)) final) None t [].

(** [r'^\s*(?:import|from)\s+(\S+)'] with [re.MULTILINE]. *)
Definition import_pattern : regex :=
  cat [Bol; Star true space; Alt (lits (py "import")) (lits (py "from"));
       plus true space; Group (plus true nonspace)].

(** The three patterns of the JavaScript branch, writing [Q] for the class
    of the two quote characters: [require\(Q(\S+?)Q\)],
    [import.*from\s+Q(\S+?)Q] and [import\s+Q(\S+?)Q]. *)
Definition require_re : regex :=
  cat [lits (py "require("); Chr quote; Group (plus false nonspace);
       Chr quote; Chr (one (ch ")"))].
Definition import_from_re : regex :=
  cat [lits (py "import"); Star true dot; lits (py "from"); plus true space;
       Chr quote; Group (plus false nonspace); Chr quote].
Definition import_bare_re : regex :=
  cat [lits (py "import"); plus true space;
       Chr quote; Group (plus false nonspace); Chr quote].

Definition js_patterns : list regex :=
  [require_re; import_from_re; import_bare_re].

(* ================================================================== *)
(** * [json.loads] *)
(* ================================================================== *)

Module Json.

(** The values [json.loads] builds.  A [float] is kept as the literal it
    was read from; a [dict] keeps its keys in insertion order. *)
Inductive json : Type :=
| JNull
| JBool (b : bool)
| JInt (z : Z)
| JFloat (literal : str)
| JNaN
| JInfinity (negative : bool)
| JStr (s : str)
| JArr (items : list json)
| JObj (members : list (str * json)).

(** [d.get(k)] and [d[k] = v]. *)
Fixpoint dict_get (d : list (str * json)) (k : str) : option json :=
  match d with
  | [] => None
  | (k', v) :: d' => if str_eqb k' k then Some v else dict_get d' k
  end.

Fixpoint dict_set (d : list (str * json)) (k : str) (v : json)
  : list (str * json) :=
  match d with
  | [] => [(k, v)]
  | (k', v') :: d' =>
      if str_eqb k' k then (k', v) :: d' else (k', v') :: dict_set d' k v
  end.

Definition is_ws (c : char) : bool :=
  ((c =? 32) || (c =? 9) || (c =? 10) || (c =? 13))%N.
Definition skip_ws (s : str) : str := drop_while is_ws s.

Definition is_digit (c : char) : bool := ((48 <=? c) && (c <=? 57))%N.
Definition is_hex (c : char) : bool :=
  (is_digit c || (97 <=? c) && (c <=? 102) || (65 <=? c) && (c <=? 70))%N.

Fixpoint take_while (p : char -> bool) (s : str) : str :=
  match s with
  | [] => []
  | c :: s' => if p c then c :: take_while p s' else []
  end.

Definition hex4 (h1 h2 h3 h4 : char) : option N :=
  if is_hex h1 && is_hex h2 && is_hex h3 && is_hex h4
  then Some (4096 * hexval h1 + 256 * hexval h2 + 16 * hexval h3
             + hexval h4)%N
  else None.

Definition is_high_surrogate (c : N) : bool :=
  ((55296 <=? c) && (c <=? 56319))%N.
Definition is_low_surrogate (c : N) : bool :=
  ((56320 <=? c) && (c <=? 57343))%N.
Definition join_surrogates (hi lo : N) : N :=
  (65536 + (hi - 55296) * 1024 + (lo - 56320))%N.

(** The character a one-letter escape stands for. *)
Definition simple_escape (e : char) : option char :=
  if (e =? 34)%N then Some 34%N
  else if (e =? 92)%N then Some 92%N
  else if (e =? 47)%N then Some 47%N
  else if (e =? 98)%N then Some 8%N
  else if (e =? 102)%N then Some 12%N
  else if (e =? 110)%N then Some 10%N
  else if (e =? 114)%N then Some 13%N
  else if (e =? 116)%N then Some 9%N
  else None.

(** [scanstring], strict: the text after an opening double quote, up to
    the closing one.  Returns the decoded string and the text after it. *)
Fixpoint scanstring (s : str) : result (str * str) :=
  match s with
  | [] => raise JSONDecodeError
  | c :: s1 =>
      if (c =? 34)%N then ret ([], s1)
      else if (c =? 92)%N then
        match s1 with
        | [] => raise JSONDecodeError
        | e :: s2 =>
            if (e =? 117)%N then
              match s2 with
              | h1 :: h2 :: h3 :: h4 :: s3 =>
                  match hex4 h1 h2 h3 h4 with
                  | None => raise JSONDecodeError
                  | Some u =>
                      let single :=
                        ' (cs, rest) <- scanstring s3 ;; ret (u :: cs, rest) in
                      if is_high_surrogate u then
                        match s3 with
                        | b :: u' :: k1 :: k2 :: k3 :: k4 :: s4 =>
                            if ((b =? 92) && (u' =? 117))%N then
                              match hex4 k1 k2 k3 k4 with
                              | None => raise JSONDecodeError
                              | Some l =>
                                  if is_low_surrogate l then
                                    ' (cs, rest) <- scanstring s4 ;;
                                    ret (join_surrogates u l :: cs, rest)
                                  else single
                              end
                            else single
                        | _ => single
                        end
                      else single
                  end
              | _ => raise JSONDecodeError
              end
            else
              match simple_escape e with
              | None => raise JSONDecodeError
              | Some x =>
                  ' (cs, rest) <- scanstring s2 ;; ret (x :: cs, rest)
              end
        end
      else if (c <=? 31)%N then raise JSONDecodeError
      else ' (cs, rest) <- scanstring s1 ;; ret (c :: cs, rest)
  end.

(** [int(digits)] for decimal digits. *)
Definition int_of_digits (ds : str) : Z :=
  fold_left (fun acc d => (10 * acc + Z.of_N (d - 48))%Z) ds 0%Z.

(** The default of [sys.get_int_max_str_digits()]: [int] refuses longer
    literals with a [ValueError]. *)
Definition int_max_str_digits : nat := 4300.

(** A number at the start of [s]: an optional minus sign; a zero, or a
    digit from 1 to 9 and further digits; then optionally a point and at
    least one digit; then optionally [e] or [E], an optional sign and at
    least one digit.  [None] when no number starts here. *)
Definition match_number (s : str) : option (result json * str) :=
  let '(sign, s1) :=
    match s with
    | c :: s' => if (c =? 45)%N then ([c], s') else ([], s)
    | [] => ([], s)
    end in
  match s1 with
  | [] => None
  | d :: s2 =>
      if is_digit d then
        let digits := if (d =? 48)%N then [d] else d :: take_while is_digit s2 in
        let s3 := if (d =? 48)%N then s2 else drop_while is_digit s2 in
        let '(frac, s4) :=
          match s3 with
          | p :: f :: s' =>
              if (p =? 46)%N && is_digit f
              then (p :: f :: take_while is_digit s', drop_while is_digit s')
              else ([], s3)
          | _ => ([], s3)
          end in
        let '(exp, s5) :=
          match s4 with
          | e :: s' =>
              if ((e =? 101) || (e =? 69))%N then
                let '(esign, s'') :=
                  match s' with
                  | g :: t => if ((g =? 45) || (g =? 43))%N then ([g], t)
                              else ([], s')
                  | [] => ([], s')
                  end in
                match take_while is_digit s'' with
                | [] => ([], s4)
                | ds => (e :: esign ++ ds, drop_while is_digit s'')
                end
              else ([], s4)
          | [] => ([], s4)
          end in
        match frac, exp with
        | [], [] =>
            if length digits <=? int_max_str_digits
            then Some (ret (JInt (match sign with
                                  | [] => int_of_digits digits
                                  | _ :: _ => - int_of_digits digits
                                  end)%Z), s5)
            else Some (raise ValueError, s5)
        | _, _ => Some (ret (JFloat (sign ++ digits ++ frac ++ exp)), s5)
        end
      else None
  end.

(** ** The recursion limit

    The interpreter bounds the calls in progress, the calls of the C
    scanner included, and raises [RecursionError] where a call would go
    beyond the bound.  Below, [depth] is the number of nested calls still
    allowed at the place in question. *)

(** Raising a [JSONDecodeError] calls the class, its [__init__] and the
    [str] methods that compute the line and the column: three nested
    calls.  Where fewer are allowed the [RecursionError] of the failed call
    is raised in its place. *)
Definition decode_error {A : Type} (depth : nat) : result A :=
  if 3 <=? depth then raise JSONDecodeError else raise RecursionError.

(** [scanstring] called from a place where [depth] calls are allowed. *)
Definition scanstring_at (depth : nat) (s : str) : result (str * str) :=
  match scanstring s with
  | inl _ => decode_error depth
  | inr r => ret r
  end.

(** [NaN], [Infinity] and [-Infinity] go through a call of
    [parse_constant]. *)
Definition parse_constant (depth : nat) (v : json) (rest : str)
  : result (json * str) :=
  match depth with
  | O => raise RecursionError
  | S _ => ret (v, rest)
  end.

(** What [scan_once] does when the text starts neither a string nor an
    object nor an array.  Where no value starts, the scanner raises
    [StopIteration]. *)
Definition scan_atom (depth : nat) (s : str) : result (json * str) :=
  if startswith (py "null") s then ret (JNull, skipn 4 s)
  else if startswith (py "true") s then ret (JBool true, skipn 4 s)
  else if startswith (py "false") s then ret (JBool false, skipn 5 s)
  else if startswith (py "NaN") s then parse_constant depth JNaN (skipn 3 s)
  else if startswith (py "Infinity") s
  then parse_constant depth (JInfinity false) (skipn 8 s)
  else if startswith (py "-Infinity") s
  then parse_constant depth (JInfinity true) (skipn 9 s)
  else match match_number s with
       | Some (r, rest) => v <- r ;; ret (v, rest)
       | None => raise StopIteration
       end.

(** [scan_once] with the loops of [JSONObject] and [JSONArray].

    The scanner enters a recursive call for every object and every array
    it opens, the empty ones included: [depth] goes down by one inside a
    container and is the same for all the members of one container.

    [fuel] bounds the steps of this definition only.  [raw_decode] gives
    enough of it for every text ([loads_within_limit],
    [loads_limit_only_raises]), so that a [RecursionError] always comes
    from [depth]. *)
Fixpoint scan_once (fuel : nat) (depth : nat) (s : str)
  : result (json * str) :=
  match fuel with
  | O => raise RecursionError
  | S f =>
      match s with
      | [] => raise StopIteration
      | c :: s1 =>
          if (c =? 34)%N then
            ' (x, rest) <- scanstring_at depth s1 ;; ret (JStr x, rest)
          else if (c =? 123)%N then
            match depth with
            | O => raise RecursionError
            | S inner =>
                match skip_ws s1 with
                | c2 :: s2 =>
                    if (c2 =? 125)%N then ret (JObj [], s2)
                    else ' (d, rest) <- parse_members f inner (skip_ws s1) [] ;;
                         ret (JObj d, rest)
                | [] => decode_error inner
                end
            end
          else if (c =? 91)%N then
            match depth with
            | O => raise RecursionError
            | S inner =>
                match skip_ws s1 with
                | c2 :: s2 =>
                    if (c2 =? 93)%N then ret (JArr [], s2)
                    else ' (l, rest) <- parse_items f inner (skip_ws s1) [] ;;
                         ret (JArr l, rest)
                | [] => raise StopIteration
                end
            end
          else scan_atom depth s
      end
  end

with parse_members (fuel : nat) (depth : nat) (s : str)
  (d : list (str * json)) : result (list (str * json) * str) :=
  match fuel with
  | O => raise RecursionError
  | S f =>
      match s with
      | c :: s1 =>
          if (c =? 34)%N then
            ' (key, s2) <- scanstring_at depth s1 ;;
            match skip_ws s2 with
            | c3 :: s3 =>
                if (c3 =? 58)%N then
                  ' (v, s4) <- scan_once f depth (skip_ws s3) ;;
                  let d := dict_set d key v in
                  match skip_ws s4 with
                  | c5 :: s5 =>
                      if (c5 =? 125)%N then ret (d, s5)
                      else if (c5 =? 44)%N
                      then parse_members f depth (skip_ws s5) d
                      else decode_error depth
                  | [] => decode_error depth
                  end
                else decode_error depth
            | [] => decode_error depth
            end
          else decode_error depth
      | [] => decode_error depth
      end
  end

with parse_items (fuel : nat) (depth : nat) (s : str) (l : list json)
  : result (list json * str) :=
  match fuel with
  | O => raise RecursionError
  | S f =>
      ' (v, s1) <- scan_once f depth s ;;
      let l := l ++ [v] in
      match skip_ws s1 with
      | c2 :: s2 =>
          if (c2 =? 93)%N then ret (l, s2)
          else if (c2 =? 44)%N then parse_items f depth (skip_ws s2) l
          else decode_error depth
      | [] => decode_error depth
      end
  end.

(** [JSONDecoder.raw_decode]: the [StopIteration] of the scanner becomes a
    [JSONDecodeError].  [depth] calls are allowed in the scanner, one more
    here. *)
Definition raw_decode (depth : nat) (s : str) : result (json * str) :=
  match scan_once (2 * length s + 2) depth s with
  | inl StopIteration => decode_error (depth + 1)
  | r => r
  end.

(** [JSONDecoder.decode]: whitespace, one value, whitespace. *)
Definition decode (depth : nat) (s : str) : result json :=
  ' (obj, rest) <- raw_decode depth (skip_ws s) ;;
  match skip_ws rest with
  | [] => ret obj
  | _ :: _ => decode_error (depth + 2)
  end.

(** [json.loads(s)] for a [str].  [recursion_remaining] is the number of
    nested calls the interpreter allows in the scanner; [decode] and
    [loads] itself are two and three calls above it, so that the error
    raised here can always be built. *)
Definition loads (recursion_remaining : nat) (s : str) : result json :=
  if startswith [65279%N] s then raise JSONDecodeError
  else decode recursion_remaining s.

(** A scanner that does not give up on the text [s] and leaves less text
    than it was given. *)
Definition fuel_ok {A : Type} (f : str -> result (A * str)) (s : str) : Prop :=
  f s <> inl RecursionError
  /\ forall v rest, f s = inr (v, rest) -> length rest < length s.

(** [n] opening brackets, one inside the other. *)
Definition nested_arrays (n : nat) : str := repeat 91%N n.

End Json.

Import Json.

(* ================================================================== *)
(** * [OmegaCoder] *)
(* ================================================================== *)

(** The outcome of [ast.parse(code)]: it returns, raises [SyntaxError]
    (with a message), or raises something else. *)
Inductive parse_outcome : Type :=
| Parsed
| SyntaxError (msg : str)
| ParseRaises (e : exn).

Module Coder.

(** ** [_detect_language] *)

Definition extensions : list (str * str) :=
  [ (py ".py", py "python"); (py ".js", py "javascript");
    (py ".ts", py "typescript"); (py ".jsx", py "react");
    (py ".tsx", py "react-ts"); (py ".java", py "java");
    (py ".cpp", py "cpp"); (py ".c", py "c"); (py ".rs", py "rust");
    (py ".go", py "go"); (py ".rb", py "ruby"); (py ".php", py "php");
    (py ".html", py "html"); (py ".css", py "css");
    (py ".md", py "markdown"); (py ".json", py "json");
    (py ".yml", py "yaml"); (py ".yaml", py "yaml");
    (py ".toml", py "toml"); (py ".sh", py "bash"); (py ".sql", py "sql") ].

Fixpoint table_get (t : list (str * str)) (k : str) : option str :=
  match t with
  | [] => None
  | (k', v) :: t' => if str_eqb k' k then Some v else table_get t' k
  end.

(** [Path(filename).name] on a POSIX system: the last component that is
    neither empty nor a single dot. *)
Definition path_name (filename : str) : str :=
  last (filter (fun x => negb (str_eqb x [] || str_eqb x (py ".")))
               (split (ch "/") filename)) [].

(** [Path(filename).suffix]: from the last dot of the name on, unless that
    dot is the first or the last character of the name. *)
Definition path_suffix (filename : str) : str :=
  let name := path_name filename in
  match rfind (ch ".") name with
  | Some i => if (0 <? i) && (i <? length name - 1) then skipn i name else []
  | None => []
  end.

Definition _detect_language (filename : str) : str :=
  let ext := lower (path_suffix filename) in
  match table_get extensions ext with
  | Some tag => tag
  | None => py "text"
  end.

(** ** [_parse_structure_response] *)

Definition source_extensions : list str :=
  [py ".py"; py ".js"; py ".ts"; py ".java"; py ".cpp"; py ".rs"; py ".go"].

Definition file_entry (line : str) : json :=
  JObj [ (py "path", JStr (strip_chars (py "- ") line));
         (py "language", JStr (_detect_language line)) ].

(** The loop over the lines; [files] is [structure["files"]]. *)
Fixpoint scan_lines (lines : list str) (files : list json) : list json :=
  match lines with
  | [] => files
  | line :: rest =>
      let line := strip line in
      if endswith_any source_extensions line
      then scan_lines rest (files ++ [file_entry line])
      else scan_lines rest files
  end.

Definition default_structure : json :=
  JObj [ (py "name", JStr (py "project"));
         (py "files",
          JArr [ JObj [ (py "path", JStr (py "main.py"));
                        (py "language", JStr (py "python")) ];
                 JObj [ (py "path", JStr (py "README.md"));
                        (py "language", JStr (py "markdown")) ] ]) ].

(** [m.group(1)]. *)
Definition group1 (g : groups) : str := nth 0 g [].

(** The body of the [try] block.  [recursion_remaining] is the number of
    nested calls the interpreter still allows in the JSON scanner. *)
Definition parse_structure_body (recursion_remaining : nat) (response : str)
  : result json :=
  match search json_block_re response with
  | Some g => loads recursion_remaining (group1 g)
  | None =>
      let lines := split nl (strip response) in
      ret (JObj [ (py "name", JStr (py "project"));
                  (py "files", JArr (scan_lines lines [])) ])
  end.

Definition _parse_structure_response (recursion_remaining : nat)
  (response : str) : result json :=
  try_except (parse_structure_body recursion_remaining response)
             (fun _ => ret default_structure).

(** ** [_fix_python_syntax] *)

Definition fix_line (lines : list str) (i : nat) (line : str) : str :=
  let line := rstrip line in
  if negb (str_eqb line []) && negb (startswith (py " ") line)
     && negb (startswith (py "\t") line)
  then
    if (0 <? i) && endswith (py ":") (nth (i - 1) lines [])
    then py "    " ++ line
    else line
  else line.

Definition enumerate {A : Type} (l : list A) : list (nat * A) :=
  combine (seq 0 (length l)) l.

Definition _fix_python_syntax (code : str) (error_msg : str) : str :=
  let lines := split nl code in
  let fixed_lines := map (fun il => fix_line lines (fst il) (snd il))
                         (enumerate lines) in
  join (py "\n") fixed_lines.

(** ** [_clean_generated_code] *)

(** Lines 186 and 187: the fence markers. *)
Definition remove_fences (code : str) : str :=
  let code := sub_empty fence_open_re code in
  replace (py "```") (py "") code.

(** Lines 190 and 191: the echoed prompt. *)
Definition remove_echo (code : str) : str :=
  let code := sub_empty echo_hash_re code in
  sub_empty echo_slash_re code.

Definition _clean_generated_code (ast_parse : str -> parse_outcome)
  (code : str) (language : str) : result str :=
  let code := remove_fences code in
  let code := remove_echo code in
  code <- (if str_eqb language (py "python") then
             match ast_parse code with
             | Parsed => ret code
             | SyntaxError e => ret (_fix_python_syntax code e)
             | ParseRaises e => raise e
             end
           else ret code) ;;
  ret (strip code).

(** ** [_extract_dependencies] *)

Definition python_step (dependencies : list str) (m : groups) : list str :=
  let dep := hd [] (split (ch ".") (group1 m)) in
  if negb (existsb (str_eqb dep) dependencies)
     && negb (startswith (py "_") dep)
  then dependencies ++ [dep]
  else dependencies.

Definition js_step (dependencies : list str) (m : groups) : list str :=
  let dep := group1 m in
  if negb (existsb (str_eqb dep) dependencies)
     && negb (startswith (py ".") dep)
  then dependencies ++ [hd [] (split (ch "/") dep)]
  else dependencies.

Definition _extract_dependencies (code : str) (language : str) : list str :=
  let dependencies := [] in
  if str_eqb language (py "python") then
    fold_left python_step (finditer import_pattern code) dependencies
  else if str_eqb language (py "javascript") then
    fold_left (fun deps pattern =>
                 fold_left js_step (finditer pattern code) deps)
              js_patterns dependencies
  else dependencies.

End Coder.

Import Coder.

(* ================================================================== *)
(** * Vocabulary of the specification *)
(* ================================================================== *)

Module Spec.

(** ** ProjectStructure (data model) *)

(** The closed set of language tags: the tags of the table and the
    fallback. *)
Definition language_tags : list str := map snd extensions ++ [py "text"].

Definition is_tag (v : json) : bool :=
  match v with
  | JStr s => existsb (str_eqb s) language_tags
  | _ => false
  end.

Definition is_string (v : json) : bool :=
  match v with
  | JStr _ => true
  | _ => false
  end.

Definition is_string_list (v : json) : bool :=
  match v with
  | JArr l => forallb is_string l
  | _ => false
  end.

Definition optional (p : json -> bool) (o : option json) : bool :=
  match o with
  | None => true
  | Some v => p v
  end.

(** FileSpec = [{path, language, optional purpose, optional dependencies}]. *)
Definition valid_file_spec (v : json) : bool :=
  match v with
  | JObj d =>
      match dict_get d (py "path"), dict_get d (py "language") with
      | Some p, Some l =>
          is_string p && is_tag l
          && optional is_string (dict_get d (py "purpose"))
          && optional is_string_list (dict_get d (py "dependencies"))
      | _, _ => false
      end
  | _ => false
  end.

(** ProjectStructure = [{name, files}]. *)
Definition valid_structure (v : json) : bool :=
  match v with
  | JObj d =>
      match dict_get d (py "name"), dict_get d (py "files") with
      | Some n, Some (JArr fs) => is_string n && forallb valid_file_spec fs
      | _, _ => false
      end
  | _ => false
  end.

(** ** Fenced JSON blocks *)

Definition json_open : str := py "```json\n".
Definition json_close : str := py "\n```".

(** The text contains a fenced block labeled json. *)
Definition has_json_block (raw : str) : Prop :=
  exists pre c post, raw = pre ++ json_open ++ c ++ json_close ++ post.

(** [starts_within_by eq sub pre rest]: in the text [pre ++ rest], an
    occurrence of [sub] (characters compared by [eq]) starts at a position
    inside [pre]. *)
Fixpoint starts_within_by (eq : char -> char -> bool) (sub pre rest : str)
  : bool :=
  match pre with
  | [] => false
  | _ :: pre' =>
      prefix_by eq sub (pre ++ rest) || starts_within_by eq sub pre' rest
  end.

Definition starts_within : str -> str -> str -> bool :=
  starts_within_by N.eqb.

(** ** The line heuristic, in the words of the specification *)

(** The trimmed lines of a text that satisfy [P]. *)
Definition lines_with (P : str -> bool) (s : str) : list str :=
  filter P (map strip (split nl s)).

(** The non-empty trimmed lines of the text. *)
Definition trimmed_lines (raw : str) : list str :=
  filter (fun l => negb (str_eqb l [])) (map strip (split nl raw)).

Definition is_source_line (line : str) : bool :=
  endswith_any source_extensions line.

(** Leading list markers: hyphens and spaces. *)
Definition strip_list_marker (line : str) : str :=
  drop_while (fun c => mem c (py "- ")) line.

Definition file_spec_of_line (line : str) : json :=
  JObj [ (py "path", JStr (strip_list_marker line));
         (py "language", JStr (_detect_language line)) ].

Definition heuristic_structure (raw : str) : json :=
  JObj [ (py "name", JStr (py "project"));
         (py "files",
          JArr (map file_spec_of_line
                    (filter is_source_line (trimmed_lines raw)))) ].

(** ** Dependencies of the Python branch *)

(** The names of [l] in order, each kept at its first occurrence only and
    only when it is not in [seen]. *)
Fixpoint first_occurrences (seen l : list str) : list str :=
  match l with
  | [] => []
  | x :: l' =>
      if existsb (str_eqb x) seen then first_occurrences seen l'
      else x :: first_occurrences (seen ++ [x]) l'
  end.

(** The first dot-separated segment of every imported module, in the
    order of the import statements. *)
Definition python_imports (code : str) : list str :=
  map (fun m => hd [] (split (ch ".") (group1 m)))
      (finditer import_pattern code).

Definition public_name (d : str) : bool := negb (startswith (py "_") d).

Definition python_deps_ok (deps : list str) : Prop :=
  NoDup deps
  /\ Forall (fun d => startswith (py "_") d = false /\ ~ In (ch ".") d) deps.

(** ** Echo markers *)

Definition hash_marker : str := py "# Response:".
Definition slash_marker : str := py "// Response:".

(** A marker fit for an echo pattern: it is not empty and none of its
    characters matches a newline. *)
Definition newline_free (marker : str) : bool :=
  negb (str_eqb marker []) && negb (existsb (fun pc => ieq pc nl) marker).

(** The part of [line] before the first occurrence of [marker], letters
    compared without regard to case; [None] when the line does not hold
    the marker. *)
Fixpoint before_marker (marker line : str) : option str :=
  if prefix_by ieq marker line then Some []
  else match line with
       | [] => None
       | c :: line' => option_map (cons c) (before_marker marker line')
       end.

(** What is left of a text, given by its lines, once the echoes of
    [marker] are removed.  A line that is followed by a newline and holds
    the marker is cut at the first occurrence of the marker, wherever on
    the line that is, and the next line is joined to what is left of it; a
    line without the marker keeps its newline; the last line, which no
    newline follows, is kept as it is. *)
Fixpoint drop_echoes (marker : str) (lines : list str) : str :=
  match lines with
  | [] => []
  | [l] => l
  | l :: rest =>
      match before_marker marker l with
      | Some pre => pre ++ drop_echoes marker rest
      | None => l ++ nl :: drop_echoes marker rest
      end
  end.

(** An echo of [marker] occurs in the text: the marker, letters in any
    case, with a newline somewhere after it. *)
Fixpoint echo_occurs (marker s : str) : bool :=
  prefix_by ieq marker s && mem nl s
  || match s with
     | [] => false
     | _ :: s' => echo_occurs marker s'
     end.

(** The text holds no fence marker and no echo. *)
Definition already_clean (code : str) : Prop :=
  contains (py "```") code = false
  /\ echo_occurs hash_marker code = false
  /\ echo_occurs slash_marker code = false.

(** ** Syntax repair *)

(** No line that has a successor ends with a colon. *)
Definition no_colon_before_a_line (code : str) : Prop :=
  let lines := split nl code in
  forall i, S i < length lines -> endswith (py ":") (nth i lines []) = false.

(** What is known of [ast.parse] on the texts below: CPython rejects an
    [if] header followed by a line that is not indented. *)
Definition rejects_unindented_block (ast_parse : str -> parse_outcome)
  : Prop :=
  (exists m, ast_parse (py "if True: \nprint('x')") = SyntaxError m)
  /\ (exists m, ast_parse (py "if True:\nprint('x')") = SyntaxError m).

(** [ast.parse] on the two texts it is given in the example of a repaired
    block: CPython rejects the unindented block with an [IndentationError],
    a [SyntaxError], whose text is the one below, and accepts the indented
    one. *)
Definition parse_example (code : str) : parse_outcome :=
  if str_eqb code (py "if True:\nprint('x')")
  then SyntaxError
         (py "expected an indented block after 'if' statement on line 1 (<unknown>, line 2)")
  else Parsed.

End Spec.

Import Spec.

(* ================================================================== *)
(** * [generate_single_file] and the stopping criterion *)
(* ================================================================== *)

Module Assembler.

(** The dataclass [CodeFile]. *)
Record CodeFile : Type := {
  filename : str;
  content : str;
  language : str;
  dependencies : list str
}.

(** [generate_single_file].  [generate] is [self.model.generate] on the
    prompt built for the file (it raises when the model is not loaded or
    the backend fails) and [get_single_file_prompt] is the prompt builder's
    method of that name. *)
Definition generate_single_file
  (generate : str -> result str)
  (get_single_file_prompt : str -> str -> str -> str)
  (ast_parse : str -> parse_outcome)
  (requirements : str) (filename : str) : result CodeFile :=
  let language := _detect_language filename in
  let prompt := get_single_file_prompt requirements filename language in
  raw_code <- generate prompt ;;
  cleaned_code <- _clean_generated_code ast_parse raw_code language ;;
  let dependencies := _extract_dependencies cleaned_code language in
  ret {| filename := filename;
         content := cleaned_code;
         language := language;
         dependencies := dependencies |}.

End Assembler.

Module Model.

(** [row[-n:]] for a list or a one-dimensional tensor: the last [n]
    elements, the whole of [row] when it has fewer, and the whole of
    [row] when [n] is zero ([-0] is [0]). *)
Definition slice_last (n : nat) (row : list Z) : list Z :=
  if n =? 0 then row else skipn (length row - n) row.

Definition ids_eqb (a b : list Z) : bool :=
  if list_eq_dec Z.eq_dec a b then true else false.

(** [StopSequenceCriteria.__call__]; [row] is [input_ids[0]] as a list. *)
Fixpoint StopSequenceCriteria_call (stop_ids : list (list Z)) (row : list Z)
  : bool :=
  match stop_ids with
  | [] => false
  | stop_id :: rest =>
      if ids_eqb (slice_last (length stop_id) row) stop_id then true
      else StopSequenceCriteria_call rest row
  end.

End Model.

(* ================================================================== *)
(** * Further vocabulary *)
(* ================================================================== *)

Module Props.

(** The text is empty or ends with a slash: a directory prefix. *)
Definition dir_prefix (pre : str) : Prop :=
  pre = [] \/ endswith (py "/") pre = true.

Definition lower_letter (c : char) : bool := ((97 <=? c) && (c <=? 122))%N.

(** An extension of the table: a dot followed by lowercase letters. *)
Definition ext_shape (ext : str) : bool :=
  match ext with
  | d :: c :: t => (d =? 46)%N && forallb lower_letter (c :: t)
  | _ => false
  end.

(** The tags the line heuristic can record. *)
Definition source_tags : list str :=
  [py "python"; py "javascript"; py "typescript"; py "java"; py "cpp";
   py "rust"; py "go"; py "text"].

Definition list_marker (c : char) : bool := mem c (py "- ").

(** The lines after the repair loop. *)
Definition fixed_lines (lines : list str) : list str :=
  map (fun il => fix_line lines (fst il) (snd il)) (enumerate lines).

(** The test the repair loop makes on a right-trimmed line. *)
Definition needs_indent (line : str) : bool :=
  negb (str_eqb line []) && negb (startswith (py " ") line)
  && negb (startswith (py "\t") line).

(** An import statement on a line of its own: the keyword ([from] or
    [import]), a space, the module and the rest of the line. *)
Record import_line : Type := {
  is_from : bool;
  module_name : str;
  line_rest : str
}.

Definition import_keyword (b : bool) : str :=
  if b then py "from" else py "import".

Definition render_import (i : import_line) : str :=
  import_keyword (is_from i) ++ py " " ++ module_name i ++ line_rest i
  ++ py "\n".

(** The module is made of characters that are not whitespace, and the
    rest of the line, when there is one, starts with whitespace and holds
    no newline. *)
Definition import_line_ok (i : import_line) : bool :=
  negb (str_eqb (module_name i) [])
  && forallb nonspace (module_name i)
  && match line_rest i with
     | [] => true
     | c :: _ => isspace c
     end
  && forallb dot (line_rest i).

(** A position where a line starts: the beginning of the text or just
    after a newline. *)
Definition line_start (prev : option char) : Prop :=
  prev = None \/ prev = Some nl.

(** What the JavaScript branch keeps of its entries. *)
Definition js_deps_ok (deps : list str) : Prop :=
  Forall (fun d => startswith (py ".") d = false /\ ~ In (ch "/") d) deps.

End Props.

Import Props.

(* ================================================================== *)
(** * The library functions on sample inputs *)
(* ================================================================== *)

Example py_literal : py "a\n\x22b\x22" = [97; 10; 34; 98; 34]%N.
Proof. reflexivity. Qed.

Example strip_sample : strip (py " \n- a.py \t\r\n") = py "- a.py".
Proof. reflexivity. Qed.

Example strip_chars_sample : strip_chars (py "- ") (py " - -a-b.py") = py "a-b.py".
Proof. reflexivity. Qed.

Example split_sample : split nl (py "a\n\nb\n") = [py "a"; py ""; py "b"; py ""].
Proof. reflexivity. Qed.

Example replace_sample : replace (py "```") (py "") (py "a````b``````") = py "a`b".
Proof. reflexivity. Qed.

Example detect_language_samples :
  map _detect_language
      [py "src/Main.PY"; py "a.tar.gz"; py ".py"; py "lib/x.test.ts"; py "Makefile"]
  = [py "python"; py "text"; py "text"; py "typescript"; py "text"].
Proof. vm_compute. reflexivity. Qed.

Example loads_object :
  loads 2 (py " {\x22a\x22: [1, -2.5e3, true, null], \x22b\x22: \x22\\u00e9\\n\x22, \x22a\x22: {}} ")
  = inr (JObj [ (py "a", JObj []); (py "b", JStr [233; 10]%N) ]).
Proof. vm_compute. reflexivity. Qed.

Example loads_rejects :
  map (loads 4)
      [py ""; py "[1,]"; py "{\x22a\x22 1}"; py "01"; py "'a'"; py "nul"]
  = map (fun _ => inl JSONDecodeError) (seq 0 6).
Proof. vm_compute. reflexivity. Qed.

(** Near the limit.  With three calls left: three containers decode, a
    constant inside them does not; an error can be built where it is raised
    at the top, not inside a container. *)
Example loads_recursion_limit :
  map (loads 3)
      [py "[[[1]]]"; py "[[[[1]]]]"; py "[[NaN]]"; py "[[[NaN]]]";
       py "\x22a\\q\x22"; py "[\x22a\\q\x22]"; py "[1 x]"; py "[[[oops";
       py "[[[[oops"; py "[[[1]]] x"]
  = [inr (JArr [JArr [JArr [JInt 1]]]); inl RecursionError;
     inr (JArr [JArr [JNaN]]); inl RecursionError;
     inl JSONDecodeError; inl RecursionError; inl RecursionError;
     inl JSONDecodeError; inl RecursionError; inl JSONDecodeError]
  /\ map (loads 1) [py "[1]"; py "[]"; py "oops"; py "1 x"; py "[[]]"]
     = [inr (JArr [JInt 1]); inr (JArr []); inl RecursionError;
        inl JSONDecodeError; inl RecursionError]
  /\ map (loads 0) [py "1"; py "NaN"; py "[]"; py "1 x"; [65279%N; 49%N]]
     = [inr (JInt 1); inl RecursionError; inl RecursionError;
        inl RecursionError; inl JSONDecodeError].
Proof. vm_compute. repeat split. Qed.

Example search_is_lazy :
  search json_block_re (py "x```json\n[1]\n```\n[2]\n```")
  = Some [py "[1]"].
Proof. vm_compute. reflexivity. Qed.

Example finditer_import :
  finditer import_pattern (py "import os.path\n  from a import b\nx = 1 import c")
  = [[py "os.path"]; [py "a"]].
Proof. vm_compute. reflexivity. Qed.

Example sub_fence_open :
  sub_empty fence_open_re (py "```python\nx = 1\n```\n") = py "x = 1\n".
Proof. vm_compute. reflexivity. Qed.

(* ================================================================== *)
(** * Dependency extraction *)
(* ================================================================== *)

Lemma str_eqb_eq (a b : str) : str_eqb a b = true <-> a = b.
Proof.
  unfold str_eqb. destruct (list_eq_dec N.eq_dec a b); split; congruence.
Qed.

Section FoldInvariant.

Variables (A B : Type) (f : A -> B -> A) (Inv : A -> Prop).
Hypothesis step : forall a b, Inv a -> Inv (f a b).

Lemma fold_left_invariant (l : list B) (a : A) :
  Inv a -> Inv (fold_left f l a).
Proof.
  revert a. induction l as [|b l IH]; simpl; intros a Ha.
  - exact Ha.
  - apply IH, step, Ha.
Qed.

End FoldInvariant.

Lemma existsb_str_eqb_false (d : str) (l : list str) :
  existsb (str_eqb d) l = false -> ~ In d l.
Proof.
  intros H Hin.
  assert (existsb (str_eqb d) l = true) as E.
  { apply existsb_exists. exists d. split; [exact Hin|].
    unfold str_eqb. destruct (list_eq_dec N.eq_dec d d); congruence. }
  congruence.
Qed.

Lemma split_cons (sep : char) (s : str) :
  exists l ls, split sep s = l :: ls.
Proof.
  destruct s as [|c s]; simpl.
  - eauto.
  - destruct (c =? sep)%N; [eauto|].
    destruct (split sep s); eauto.
Qed.

(** The first piece of a split holds no separator. *)
Lemma split_hd_no_sep (sep : char) (s : str) :
  ~ In sep (hd [] (split sep s)).
Proof.
  induction s as [|c s IH]; simpl.
  - tauto.
  - destruct (N.eqb_spec c sep) as [->|Hne]; simpl; [tauto|].
    destruct (split sep s) as [|l ls]; simpl in *.
    + intros [H|[]]. congruence.
    + intros [H|H]; [congruence|tauto].
Qed.

Lemma python_step_ok (deps : list str) (m : groups) :
  python_deps_ok deps -> python_deps_ok (python_step deps m).
Proof.
  intros [Hnd Hall]. unfold python_step.
  set (dep := hd [] (split (ch ".") (group1 m))).
  destruct (existsb (str_eqb dep) deps) eqn:Ein; cbn [negb andb];
    [now split|].
  destruct (startswith (py "_") dep) eqn:Eus; cbn [negb andb]; [now split|].
  split.
  - apply NoDup_app; [exact Hnd|repeat constructor; simpl; tauto|].
    intros a Ha [<-|[]]. now apply (existsb_str_eqb_false _ _ Ein).
  - apply Forall_app. split; [exact Hall|].
    constructor; [|constructor]. split; [exact Eus|].
    apply split_hd_no_sep.
Qed.

Lemma python_fold (ms : list groups) (deps : list str) :
  fold_left python_step ms deps
  = deps ++ first_occurrences deps
              (filter public_name
                      (map (fun m => hd [] (split (ch ".") (group1 m))) ms)).
Proof.
  revert deps. induction ms as [|m ms IH]; intros deps.
  - cbn [fold_left map filter first_occurrences]. now rewrite app_nil_r.
  - cbn [fold_left map filter]. rewrite IH. unfold python_step, public_name.
    set (dep := hd [] (split (ch ".") (group1 m))).
    destruct (startswith (py "_") dep); cbn [negb].
    + now rewrite andb_false_r.
    + rewrite andb_true_r. cbn [first_occurrences].
      destruct (existsb (str_eqb dep) deps); cbn [negb]; [reflexivity|].
      now rewrite <- app_assoc.
Qed.

(** C9.  On the three-line example the Python branch returns exactly
    [os] and [collections].  On every text its result is the list of the
    first dot-separated segments of the imported modules, in the order of
    the import statements, without the names starting with an underscore
    and with each name kept at its first occurrence only; it has no
    duplicate. *)
Theorem python_dependencies :
  _extract_dependencies
    (py "import os\nfrom collections import OrderedDict\nimport _private")
    (py "python")
  = [py "os"; py "collections"]
  /\ forall code,
       let deps := _extract_dependencies code (py "python") in
       deps = first_occurrences [] (filter public_name (python_imports code))
       /\ NoDup deps
       /\ Forall (fun d => startswith (py "_") d = false
                           /\ ~ In (ch ".") d) deps.
Proof.
  split; [vm_compute; reflexivity|].
  intros code deps. subst deps. unfold _extract_dependencies.
  replace (str_eqb (py "python") (py "python")) with true
    by (vm_compute; reflexivity).
  split; [apply python_fold|].
  apply (fold_left_invariant _ _ python_step python_deps_ok python_step_ok).
  split; constructor.
Qed.

(** C2, as the code has it.  The JavaScript branch runs the three patterns
    one after the other over the whole text, so names come out ordered by
    pattern ([require], then [import ... from], then bare [import]) and by
    position within a pattern; on the example this gives [lodash] before
    [react]. *)
Theorem javascript_dependencies_by_pattern :
  _extract_dependencies
    (py "import './local'\nimport React from 'react'\nconst x = require('lodash/fp')")
    (py "javascript")
  = [py "lodash"; py "react"]
  /\ forall code,
       _extract_dependencies code (py "javascript")
       = fold_left js_step
           (finditer require_re code ++ finditer import_from_re code
            ++ finditer import_bare_re code) [].
Proof.
  split; [vm_compute; reflexivity|].
  intros code. unfold _extract_dependencies.
  replace (str_eqb (py "javascript") (py "python")) with false
    by (vm_compute; reflexivity).
  replace (str_eqb (py "javascript") (py "javascript")) with true
    by (vm_compute; reflexivity).
  simpl. now rewrite !fold_left_app.
Qed.

(** C2, as stated, fails on its own example: the result is not
    [react] followed by [lodash]. *)
Lemma javascript_dependencies_not_in_text_order :
  _extract_dependencies
    (py "import './local'\nimport React from 'react'\nconst x = require('lodash/fp')")
    (py "javascript")
  <> [py "react"; py "lodash"].
Proof. vm_compute. discriminate. Qed.

(** C3.  The JavaScript branch tests the whole import target against the
    recorded first segments, so two sub-paths of one package are both
    recorded; the Python branch records the empty name for a relative
    import. *)
Theorem dependencies_duplicate_and_relative :
  _extract_dependencies (py "require('a/b')\nrequire('a/c')")
                        (py "javascript")
  = [py "a"; py "a"]
  /\ ~ NoDup (_extract_dependencies (py "require('a/b')\nrequire('a/c')")
                                    (py "javascript"))
  /\ _extract_dependencies (py "from .mod import x") (py "python") = [py ""].
Proof.
  split; [vm_compute; reflexivity|]. split; [|vm_compute; reflexivity].
  intros H. vm_compute in H. inversion H as [|x l Hnin _]. apply Hnin.
  now left.
Qed.

(* ================================================================== *)
(** * Facts about the [str] methods *)
(* ================================================================== *)

Lemma prefix_by_app (l s : str) :
  prefix_by N.eqb l s = true -> s = l ++ skipn (length l) s.
Proof.
  revert s. induction l as [|a l IH]; intros [|c s]; simpl; try easy.
  intros H. apply andb_prop in H. destruct H as [Ha Hl].
  apply N.eqb_eq in Ha. subst c. f_equal. now apply IH.
Qed.

Lemma prefix_by_refl (l s : str) : prefix_by N.eqb l (l ++ s) = true.
Proof.
  induction l as [|a l IH]; simpl; [reflexivity|].
  now rewrite N.eqb_refl.
Qed.

Lemma prefix_by_length (eq : char -> char -> bool) (l s : str) :
  prefix_by eq l s = true -> length l <= length s.
Proof.
  revert s. induction l as [|a l IH]; intros [|c s]; simpl; try easy; try lia.
  intros H. apply andb_prop in H. destruct H as [_ Hl].
  apply IH in Hl. lia.
Qed.

Lemma join_cons (sep l : str) (ls : list str) :
  ls <> [] -> join sep (l :: ls) = l ++ sep ++ join sep ls.
Proof. destruct ls; [congruence|reflexivity]. Qed.

Lemma split_not_nil (sep : char) (s : str) : split sep s <> [].
Proof. destruct (split_cons sep s) as (l & ls & ->). discriminate. Qed.

(** Joining the pieces of a split gives the text back. *)
Lemma join_split (sep : char) (s : str) : join [sep] (split sep s) = s.
Proof.
  induction s as [|c s IH]; [reflexivity|].
  simpl split. destruct (N.eqb_spec c sep) as [->|Hne].
  - rewrite join_cons by apply split_not_nil. now rewrite IH.
  - destruct (split_cons sep s) as (l & ls & E). rewrite E in *.
    destruct ls as [|l' ls]; simpl in *; now rewrite <- IH.
Qed.

Lemma map_snd_enumerate (A : Type) (l : list A) :
  map snd (enumerate l) = l.
Proof.
  unfold enumerate. generalize 0.
  induction l as [|a l IH]; intros k; simpl; [reflexivity|].
  now rewrite IH.
Qed.

Lemma in_enumerate_lt (A : Type) (l : list A) (i : nat) (a : A) :
  In (i, a) (enumerate l) -> i < length l.
Proof.
  intros H. apply in_combine_l in H. apply in_seq in H. lia.
Qed.

(* ================================================================== *)
(** * Syntax repair *)
(* ================================================================== *)

Lemma fix_line_no_colon (lines : list str) (i : nat) (line : str) :
  (0 < i -> endswith (py ":") (nth (i - 1) lines []) = false) ->
  fix_line lines i line = rstrip line.
Proof.
  intros H. unfold fix_line.
  destruct i as [|i].
  - cbn [Nat.ltb Nat.leb andb]. now destruct (_ && _ && _).
  - rewrite H by lia. rewrite andb_false_r. now destruct (_ && _ && _).
Qed.

(** C8, as the code has it.  The example is repaired as described; on a
    text in which no line is preceded by a line ending with a colon, every
    line comes back with its trailing whitespace removed, so the text is
    unchanged only when no line ends with whitespace. *)
Theorem fix_python_syntax_trims :
  _fix_python_syntax (py "if True:\nprint('x')") (py "")
  = py "if True:\n    print('x')"
  /\ forall code error_msg,
       no_colon_before_a_line code ->
       _fix_python_syntax code error_msg
       = join (py "\n") (map rstrip (split nl code))
       /\ ((forall l, In l (split nl code) -> rstrip l = l) ->
           _fix_python_syntax code error_msg = code).
Proof.
  split; [vm_compute; reflexivity|].
  intros code msg Hno.
  assert (_fix_python_syntax code msg
          = join (py "\n") (map rstrip (split nl code))) as E.
  { unfold _fix_python_syntax. f_equal.
    transitivity (map rstrip (map snd (enumerate (split nl code))));
      [|now rewrite map_snd_enumerate].
    rewrite map_map. apply map_ext_in. intros [i l] Hin. simpl.
    apply fix_line_no_colon. intros Hi. apply Hno.
    apply in_enumerate_lt in Hin. lia. }
  split; [exact E|].
  intros Hl. rewrite E.
  rewrite (map_ext_in rstrip (fun l => l)) by exact Hl.
  rewrite map_id. apply (join_split nl).
Qed.

Lemma fix_python_syntax_trims_witness :
  no_colon_before_a_line (py "x = 1 \ny")
  /\ _fix_python_syntax (py "x = 1 \ny") (py "") = py "x = 1\ny".
Proof.
  assert (no_colon_before_a_line (py "x = 1 \ny")) as Hno.
  { intros i Hi. vm_compute in Hi.
    destruct i as [|i]; [vm_compute; reflexivity|lia]. }
  split; [exact Hno|].
  destruct fix_python_syntax_trims as [_ H].
  destruct (H (py "x = 1 \ny") (py "") Hno) as [E _].
  rewrite E. vm_compute. reflexivity.
Defined.

(** C8, as stated, fails: a line with trailing whitespace is changed even
    though no line is preceded by a line ending with a colon. *)
Lemma fix_python_syntax_changes_input :
  no_colon_before_a_line (py "x = 1  ")
  /\ _fix_python_syntax (py "x = 1  ") (py "") <> py "x = 1  ".
Proof.
  split.
  - intros i Hi. vm_compute in Hi. lia.
  - vm_compute. discriminate.
Qed.

(* ================================================================== *)
(** * Facts about [json.loads] *)
(* ================================================================== *)

Lemma drop_while_length (p : char -> bool) (s : str) :
  length (drop_while p s) <= length s.
Proof.
  induction s as [|c s IH]; simpl; [lia|]. destruct (p c); simpl; lia.
Qed.

Lemma skip_ws_length (s : str) : length (skip_ws s) <= length s.
Proof. apply drop_while_length. Qed.

Lemma scanstring_shorter (s : str) (x rest : str) :
  scanstring s = inr (x, rest) -> length rest < length s.
Proof.
  remember (length s) as n eqn:En. revert s x rest En.
  induction n as [n IH] using lt_wf_ind. intros s x rest En.
  assert (forall t y r, length t < length s -> scanstring t = inr (y, r) ->
                        length r < length t) as IH'.
  { intros t y r Ht. apply (IH (length t)); [lia|reflexivity]. }
  clear IH. subst n.
  assert (forall t y, length t < length s ->
            (' (cs, r) <- scanstring t ;; ret (y :: cs, r)) = inr (x, rest) ->
            length rest < length t) as Hstep.
  { intros t y Ht. destruct (scanstring t) as [e|[cs r]] eqn:E; [discriminate|].
    cbn [bind ret]. intros [= <- <-]. now apply (IH' t cs). }
  destruct s as [|c s1]; [discriminate|]. cbn [scanstring].
  destruct (c =? 34)%N; [intros [= <- <-]; cbn [length]; lia|].
  destruct (c =? 92)%N.
  - destruct s1 as [|e s2]; [discriminate|].
    destruct (e =? 117)%N.
    + destruct s2 as [|h1 [|h2 [|h3 [|h4 s3]]]]; try discriminate.
      destruct (hex4 h1 h2 h3 h4) as [u|]; [|discriminate].
      destruct (is_high_surrogate u).
      * destruct s3 as [|b [|u' [|k1 [|k2 [|k3 [|k4 s4]]]]]];
          try (intros H; apply Hstep in H; cbn [length] in *; lia).
        destruct ((b =? 92) && (u' =? 117))%N;
          [|intros H; apply Hstep in H; cbn [length] in *; lia].
        destruct (hex4 k1 k2 k3 k4) as [l|]; [|discriminate].
        destruct (is_low_surrogate l);
          intros H; apply Hstep in H; cbn [length] in *; lia.
      * intros H; apply Hstep in H; cbn [length] in *; lia.
    + destruct (simple_escape e); [|discriminate].
      intros H; apply Hstep in H; cbn [length] in *; lia.
  - destruct (c <=? 31)%N; [discriminate|].
    intros H; apply Hstep in H; cbn [length] in *; lia.
Qed.

Lemma match_number_shorter (s : str) (r : result json) (rest : str) :
  match_number s = Some (r, rest) -> length rest < length s.
Proof.
  unfold match_number.
  set (sg := match s with
             | c :: s' => if (c =? 45)%N then ([c], s') else ([], s)
             | [] => ([], s)
             end).
  assert (length (snd sg) <= length s) as Hsg.
  { subst sg. destruct s as [|c s']; [simpl; lia|].
    destruct (c =? 45)%N; cbn [snd length]; lia. }
  destruct sg as [sign s1]. cbn [snd] in Hsg.
  destruct s1 as [|d s2]; [discriminate|].
  destruct (is_digit d); [|discriminate].
  set (s3 := if (d =? 48)%N then s2 else drop_while is_digit s2).
  assert (length s3 <= length s2) as H3.
  { subst s3. destruct (d =? 48)%N; [lia|apply drop_while_length]. }
  set (fr := match s3 with
             | p :: f :: s' =>
                 if (p =? 46)%N && is_digit f
                 then (p :: f :: take_while is_digit s',
                       drop_while is_digit s')
                 else ([], s3)
             | _ => ([], s3)
             end).
  assert (length (snd fr) <= length s3) as H4.
  { subst fr. destruct s3 as [|p [|f s']]; cbn [snd]; try lia.
    destruct ((p =? 46)%N && is_digit f); cbn [snd length]; [|lia].
    pose proof (drop_while_length is_digit s'). lia. }
  destruct fr as [frac s4]. cbn [snd] in H4.
  set (ex := match s4 with
             | e :: s' =>
                 if ((e =? 101) || (e =? 69))%N then
                   let '(esign, s'') :=
                     match s' with
                     | g :: t => if ((g =? 45) || (g =? 43))%N then ([g], t)
                                 else ([], s')
                     | [] => ([], s')
                     end in
                   match take_while is_digit s'' with
                   | [] => ([], s4)
                   | ds => (e :: esign ++ ds, drop_while is_digit s'')
                   end
                 else ([], s4)
             | [] => ([], s4)
             end).
  assert (length (snd ex) <= length s4) as H5.
  { subst ex. destruct s4 as [|e s']; cbn [snd]; [lia|].
    destruct ((e =? 101) || (e =? 69))%N; cbn [snd]; [|lia].
    destruct s' as [|g t].
    - cbn [take_while snd]. lia.
    - destruct ((g =? 45) || (g =? 43))%N.
      + destruct (take_while is_digit t); cbn [snd length]; [lia|].
        pose proof (drop_while_length is_digit t). lia.
      + destruct (take_while is_digit (g :: t)); cbn [snd length]; [lia|].
        pose proof (drop_while_length is_digit (g :: t)).
        cbn [length] in *. lia. }
  destruct ex as [exp s5]. cbn [snd] in H5.
  cbn [length] in Hsg.
  destruct frac, exp; try (intros [= <- <-]; lia).
  destruct (_ <=? _); intros [= <- <-]; lia.
Qed.

Lemma startswith_skipn_shorter (l s : str) :
  l <> [] -> startswith l s = true -> length (skipn (length l) s) < length s.
Proof.
  intros Hne H. unfold startswith in H.
  pose proof (prefix_by_length _ _ _ H) as Hl.
  rewrite length_skipn. destruct l; [congruence|]. cbn [length] in *. lia.
Qed.

Lemma decode_error_exn (A : Type) (depth : nat) :
  @decode_error A depth = inl JSONDecodeError
  \/ @decode_error A depth = inl RecursionError.
Proof. unfold decode_error. destruct (3 <=? depth); [now left|now right]. Qed.

Lemma decode_error_allowed (A : Type) (depth : nat) :
  3 <= depth -> @decode_error A depth = inl JSONDecodeError.
Proof.
  intros H. unfold decode_error.
  destruct (Nat.leb_spec 3 depth); [reflexivity|lia].
Qed.

(** With a lower limit an error is the same error or a
    [RecursionError]. *)
Lemma decode_error_limit (A : Type) (depth depth' : nat) :
  depth <= depth' ->
  @decode_error A depth = inl RecursionError
  \/ @decode_error A depth = @decode_error A depth'.
Proof.
  intros H. unfold decode_error.
  destruct (Nat.leb_spec 3 depth); [|now left].
  destruct (Nat.leb_spec 3 depth'); [now right|lia].
Qed.

Lemma parse_constant_shorter (depth : nat) (v w : json) (t rest : str) :
  parse_constant depth v t = inr (w, rest) -> rest = t.
Proof. destruct depth; [discriminate|]. now intros [= _ <-]. Qed.

Lemma scan_atom_shorter (depth : nat) (s : str) (v : json) (rest : str) :
  scan_atom depth s = inr (v, rest) -> length rest < length s.
Proof.
  unfold scan_atom.
  repeat match goal with
  | |- context [if startswith ?l s then _ else _] =>
      destruct (startswith l s) eqn:?;
      [intros H;
       first [injection H as <- <- | apply parse_constant_shorter in H; subst rest];
       apply (startswith_skipn_shorter l s); [discriminate|assumption]|]
  end.
  destruct (match_number s) as [[r rest']|] eqn:E; [|discriminate].
  apply match_number_shorter in E.
  destruct r as [e|w]; [discriminate|]. cbn [bind ret]. now intros [= <- <-].
Qed.

Lemma match_number_exn (s rest : str) (e : exn) :
  match_number s = Some (inl e, rest) -> e = ValueError.
Proof.
  intros E. unfold match_number in E.
  repeat match type of E with
  | context [let '(_, _) := ?x in _] => destruct x
  | context [match ?x with _ => _ end] => destruct x; try discriminate
  end; injection E as <- <-; reflexivity.
Qed.

Lemma scan_atom_exn (depth : nat) (s : str) :
  0 < depth -> scan_atom depth s <> inl RecursionError.
Proof.
  intros Hd. destruct depth as [|depth]; [lia|].
  unfold scan_atom, parse_constant.
  repeat match goal with
  | |- context [if startswith ?l s then _ else _] =>
      destruct (startswith l s); [discriminate|]
  end.
  destruct (match_number s) as [[[e|v] rest]|] eqn:E; try discriminate.
  apply match_number_exn in E. subst e. discriminate.
Qed.

(** With a lower limit the outcome is the same or a [RecursionError]. *)
Lemma scan_atom_limit (depth depth' : nat) (s : str) :
  depth <= depth' ->
  scan_atom depth s = inl RecursionError
  \/ scan_atom depth s = scan_atom depth' s.
Proof.
  intros Hd. destruct depth as [|depth].
  - unfold scan_atom, parse_constant.
    repeat match goal with
    | |- context [if startswith ?l s then _ else _] =>
        destruct (startswith l s); [try (now left); try (now right)|]
    end.
    now right.
  - destruct depth' as [|depth']; [lia|]. now right.
Qed.

Lemma scanstring_at_exn (depth : nat) (s : str) :
  3 <= depth -> scanstring_at depth s <> inl RecursionError.
Proof.
  intros Hd. unfold scanstring_at.
  destruct (scanstring s); [|discriminate].
  now rewrite decode_error_allowed.
Qed.

Lemma scanstring_at_shorter (depth : nat) (s x rest : str) :
  scanstring_at depth s = inr (x, rest) -> length rest < length s.
Proof.
  unfold scanstring_at. destruct (scanstring s) as [e|[y r]] eqn:E.
  - destruct (decode_error_exn (str * str) depth) as [H|H]; rewrite H;
      discriminate.
  - intros [= <- <-]. now apply scanstring_shorter in E.
Qed.

Lemma scanstring_at_limit (depth depth' : nat) (s : str) :
  depth <= depth' ->
  scanstring_at depth s = inl RecursionError
  \/ scanstring_at depth s = scanstring_at depth' s.
Proof.
  intros Hd. unfold scanstring_at.
  destruct (scanstring s); [now apply decode_error_limit|now right].
Qed.

Lemma fuel_ok_scanstring (depth : nat) (s : str) (A : Type) (g : str -> A) :
  3 <= depth ->
  fuel_ok (fun t => ' (x, rest) <- scanstring_at depth t ;; ret (g x, rest)) s.
Proof.
  intros Hd. split.
  - pose proof (scanstring_at_exn depth s Hd).
    destruct (scanstring_at depth s) as [e|[x r]]; [|discriminate].
    cbn [bind]. congruence.
  - intros v rest.
    destruct (scanstring_at depth s) as [e|[x r]] eqn:E; [discriminate|].
    cbn [bind ret]. intros [= <- <-]. now apply scanstring_at_shorter in E.
Qed.

Ltac decode_error_here :=
  rewrite decode_error_allowed by lia; split; discriminate.

(** With three calls to spare beyond the length of the text, and the fuel
    of [raw_decode], the scanner raises no [RecursionError]. *)
Lemma scan_fuel (fuel : nat) :
  (forall depth s, 2 * length s < fuel -> length s + 3 <= depth ->
                   fuel_ok (scan_once fuel depth) s)
  /\ (forall depth s d, 2 * length s + 1 < fuel -> length s + 3 <= depth ->
                        fuel_ok (fun t => parse_members fuel depth t d) s)
  /\ (forall depth s l, 2 * length s + 1 < fuel -> length s + 3 <= depth ->
                        fuel_ok (fun t => parse_items fuel depth t l) s).
Proof.
  induction fuel as [|f (IHs & IHm & IHi)];
    [repeat split; intros; lia|].
  split; [|split].
  - intros depth [|c s1] Hf Hd; unfold fuel_ok; [split; discriminate|].
    cbn [scan_once length] in *.
    destruct (c =? 34)%N.
    { destruct (fuel_ok_scanstring depth s1 json JStr) as [H1 H2]; [lia|].
      split; [exact H1|]. intros v rest H. apply H2 in H. lia. }
    pose proof (skip_ws_length s1) as Hws.
    destruct (c =? 123)%N.
    { destruct depth as [|inner]; [lia|].
      destruct (skip_ws s1) as [|c2 s2] eqn:E; [decode_error_here|].
      destruct (c2 =? 125)%N.
      - split; [discriminate|]. intros v rest [= <- <-].
        cbn [length] in Hws. lia.
      - destruct (IHm inner (c2 :: s2) []) as [H1 H2]; [lia|lia|].
        destruct (parse_members f inner (c2 :: s2) []) as [e|[d r]];
          cbn [bind ret].
        + split; [congruence|discriminate].
        + split; [discriminate|]. intros v rest [= <- <-].
          specialize (H2 d r eq_refl). lia. }
    destruct (c =? 91)%N.
    { destruct depth as [|inner]; [lia|].
      destruct (skip_ws s1) as [|c2 s2] eqn:E; [split; discriminate|].
      destruct (c2 =? 93)%N.
      - split; [discriminate|]. intros v rest [= <- <-].
        cbn [length] in Hws. lia.
      - destruct (IHi inner (c2 :: s2) []) as [H1 H2]; [lia|lia|].
        destruct (parse_items f inner (c2 :: s2) []) as [e|[d r]];
          cbn [bind ret].
        + split; [congruence|discriminate].
        + split; [discriminate|]. intros v rest [= <- <-].
          specialize (H2 d r eq_refl). lia. }
    split; [apply scan_atom_exn; lia|].
    intros v rest H. apply scan_atom_shorter in H. cbn [length] in H. lia.
  - intros depth s d Hf Hd. unfold fuel_ok.
    destruct s as [|c s1]; cbn [parse_members length] in *;
      [decode_error_here|].
    destruct (c =? 34)%N; [|decode_error_here].
    pose proof (scanstring_at_exn depth s1) as Hx.
    destruct (scanstring_at depth s1) as [e|[key s2]] eqn:Ek; cbn [bind].
    { split; [intros H; apply Hx; [lia|congruence]|discriminate]. }
    clear Hx. apply scanstring_at_shorter in Ek.
    pose proof (skip_ws_length s2) as Hw2.
    destruct (skip_ws s2) as [|c3 s3]; [decode_error_here|].
    destruct (c3 =? 58)%N; [|decode_error_here].
    pose proof (skip_ws_length s3) as Hw3. cbn [length] in Hw2.
    destruct (IHs depth (skip_ws s3)) as [H1 H2]; [lia|lia|].
    destruct (scan_once f depth (skip_ws s3)) as [e|[v s4]]; cbn [bind].
    { split; [congruence|discriminate]. }
    specialize (H2 v s4 eq_refl).
    pose proof (skip_ws_length s4) as Hw4.
    destruct (skip_ws s4) as [|c5 s5]; [decode_error_here|].
    cbn [length] in Hw4.
    destruct (c5 =? 125)%N.
    { split; [discriminate|]. intros d' rest [= <- <-]. lia. }
    destruct (c5 =? 44)%N; [|decode_error_here].
    pose proof (skip_ws_length s5) as Hw5.
    destruct (IHm depth (skip_ws s5) (dict_set d key v)) as [H3 H4];
      [lia|lia|].
    split; [exact H3|]. intros d' rest H. apply H4 in H. lia.
  - intros depth s l Hf Hd. unfold fuel_ok. cbn [parse_items].
    destruct (IHs depth s) as [H1 H2]; [lia|lia|].
    destruct (scan_once f depth s) as [e|[v s1]]; cbn [bind].
    { split; [congruence|discriminate]. }
    specialize (H2 v s1 eq_refl).
    pose proof (skip_ws_length s1) as Hw1.
    destruct (skip_ws s1) as [|c2 s2]; [decode_error_here|].
    cbn [length] in Hw1.
    destruct (c2 =? 93)%N.
    { split; [discriminate|]. intros d' rest [= <- <-]. lia. }
    destruct (c2 =? 44)%N; [|decode_error_here].
    pose proof (skip_ws_length s2) as Hw2.
    destruct (IHi depth (skip_ws s2) (l ++ [v])) as [H3 H4]; [lia|lia|].
    split; [exact H3|]. intros d' rest H. apply H4 in H. lia.
Qed.

(** A text shorter than the limit by three or more is decoded without
    [RecursionError]: it cannot nest deeper than it is long, its errors can
    be built, and the fuel of [raw_decode] is not exhausted. *)
Lemma loads_within_limit (limit : nat) (s : str) :
  length s + 3 <= limit -> loads limit s <> inl RecursionError.
Proof.
  intros Hl. unfold loads. destruct (startswith _ s); [discriminate|].
  unfold decode, raw_decode.
  pose proof (skip_ws_length s) as Hw.
  destruct (scan_fuel (2 * length (skip_ws s) + 2)) as [H _].
  destruct (H limit (skip_ws s)) as [H1 _]; [lia|lia|].
  destruct (scan_once _ limit (skip_ws s)) as [e|[v rest]].
  - destruct e; cbn [bind]; try congruence.
    rewrite decode_error_allowed by lia. discriminate.
  - cbn [bind]. destruct (skip_ws rest); [discriminate|].
    rewrite decode_error_allowed by lia. discriminate.
Qed.

Ltac same_or_raises :=
  match goal with
  | |- @decode_error _ _ = _ \/ _ => apply decode_error_limit; lia
  | |- _ => now right
  end.

(** A lower limit changes the outcome in one way only: it raises
    [RecursionError]. *)
Lemma scan_limit (fuel : nat) :
  (forall depth depth' s, depth <= depth' ->
      scan_once fuel depth s = inl RecursionError
      \/ scan_once fuel depth s = scan_once fuel depth' s)
  /\ (forall depth depth' s d, depth <= depth' ->
      parse_members fuel depth s d = inl RecursionError
      \/ parse_members fuel depth s d = parse_members fuel depth' s d)
  /\ (forall depth depth' s l, depth <= depth' ->
      parse_items fuel depth s l = inl RecursionError
      \/ parse_items fuel depth s l = parse_items fuel depth' s l).
Proof.
  induction fuel as [|f (IHs & IHm & IHi)]; [repeat split; now left|].
  split; [|split].
  - intros depth depth' [|c s1] Hd; [now right|]. cbn [scan_once].
    destruct (c =? 34)%N.
    { destruct (scanstring_at_limit depth depth' s1 Hd) as [E|E]; rewrite E;
        [now left|now right]. }
    destruct (c =? 123)%N.
    { destruct depth as [|inner]; [now left|].
      destruct depth' as [|inner']; [lia|].
      destruct (skip_ws s1) as [|c2 s2]; [same_or_raises|].
      destruct (c2 =? 125)%N; [now right|].
      destruct (IHm inner inner' (c2 :: s2) []) as [E|E]; [lia| |];
        rewrite E; [now left|now right]. }
    destruct (c =? 91)%N; [|now apply scan_atom_limit].
    destruct depth as [|inner]; [now left|].
    destruct depth' as [|inner']; [lia|].
    destruct (skip_ws s1) as [|c2 s2]; [now right|].
    destruct (c2 =? 93)%N; [now right|].
    destruct (IHi inner inner' (c2 :: s2) []) as [E|E]; [lia| |];
      rewrite E; [now left|now right].
  - intros depth depth' s d Hd.
    destruct s as [|c s1]; cbn [parse_members]; [same_or_raises|].
    destruct (c =? 34)%N; [|same_or_raises].
    destruct (scanstring_at_limit depth depth' s1 Hd) as [E|E]; rewrite E;
      [now left|].
    destruct (scanstring_at depth' s1) as [e|[key s2]]; cbn [bind];
      [now right|].
    destruct (skip_ws s2) as [|c3 s3]; [same_or_raises|].
    destruct (c3 =? 58)%N; [|same_or_raises].
    destruct (IHs depth depth' (skip_ws s3) Hd) as [E'|E']; rewrite E';
      [now left|].
    destruct (scan_once f depth' (skip_ws s3)) as [e|[v s4]]; cbn [bind];
      [now right|].
    destruct (skip_ws s4) as [|c5 s5]; [same_or_raises|].
    destruct (c5 =? 125)%N; [now right|].
    destruct (c5 =? 44)%N; [|same_or_raises].
    apply IHm, Hd.
  - intros depth depth' s l Hd. cbn [parse_items].
    destruct (IHs depth depth' s Hd) as [E|E]; rewrite E; [now left|].
    destruct (scan_once f depth' s) as [e|[v s1]]; cbn [bind]; [now right|].
    destruct (skip_ws s1) as [|c2 s2]; [same_or_raises|].
    destruct (c2 =? 93)%N; [now right|].
    destruct (c2 =? 44)%N; [|same_or_raises].
    apply IHi, Hd.
Qed.

Lemma loads_limit_only_raises (limit limit' : nat) (s : str) :
  limit <= limit' ->
  loads limit s = inl RecursionError \/ loads limit s = loads limit' s.
Proof.
  intros Hl. unfold loads. destruct (startswith _ s); [now right|].
  unfold decode, raw_decode.
  destruct (scan_limit (2 * length (skip_ws s) + 2)) as [H _].
  destruct (H limit limit' (skip_ws s) Hl) as [E|E]; rewrite E;
    [now left|].
  destruct (scan_once _ limit' (skip_ws s)) as [e|[v rest]].
  - destruct e; cbn [bind]; try (now right).
    destruct (decode_error_limit (json * str) (limit + 1) (limit' + 1))
      as [E'|E']; [lia| |]; rewrite E'; [now left|].
    destruct (decode_error_exn (json * str) (limit' + 1)) as [X|X];
      rewrite X; now right.
  - cbn [bind]. destruct (skip_ws rest); [now right|].
    apply decode_error_limit. lia.
Qed.

(** What decodes under one limit decodes to the same value under every
    higher one. *)
Lemma loads_higher_limit (limit limit' : nat) (s : str) (v : json) :
  limit <= limit' -> loads limit s = inr v -> loads limit' s = inr v.
Proof.
  intros Hl Hv.
  destruct (loads_limit_only_raises limit limit' s Hl) as [E|E]; congruence.
Qed.

(** The [StopIteration] of the scanner does not leave [loads]. *)
Lemma loads_no_stop_iteration (limit : nat) (s : str) :
  loads limit s <> inl StopIteration.
Proof.
  unfold loads. destruct (startswith _ s); [discriminate|].
  unfold decode, raw_decode.
  destruct (scan_once _ limit (skip_ws s)) as [e|[v rest]].
  - destruct e; cbn [bind]; try discriminate.
    destruct (decode_error_exn (json * str) (limit + 1)) as [E|E];
      rewrite E; discriminate.
  - cbn [bind]. destruct (skip_ws rest); [discriminate|].
    destruct (decode_error_exn json (limit + 2)) as [E|E];
      rewrite E; discriminate.
Qed.

(** Arrays nested one deeper than the limit raise [RecursionError],
    whatever follows the opening brackets. *)
Lemma scan_too_deep (depth : nat) :
  forall fuel rest,
    2 * depth < fuel ->
    scan_once fuel depth (nested_arrays (S depth) ++ rest)
    = inl RecursionError.
Proof.
  induction depth as [|d IH]; intros [|f] rest Hf; try lia.
  - reflexivity.
  - destruct f as [|f]; [lia|].
    change (nested_arrays (S (S d)) ++ rest)
      with (91%N :: nested_arrays (S d) ++ rest).
    cbn [scan_once].
    change (91 =? 34)%N with false. change (91 =? 123)%N with false.
    change (91 =? 91)%N with true. cbv iota.
    change (skip_ws (nested_arrays (S d) ++ rest))
      with (91%N :: nested_arrays d ++ rest).
    change (91 =? 93)%N with false. cbv iota.
    change (91%N :: nested_arrays d ++ rest)
      with (nested_arrays (S d) ++ rest).
    cbn [parse_items]. rewrite IH by lia. reflexivity.
Qed.

Lemma loads_too_deep (limit : nat) (rest : str) :
  loads limit (nested_arrays (S limit) ++ rest) = inl RecursionError.
Proof.
  unfold loads.
  change (startswith [65279%N] (nested_arrays (S limit) ++ rest)) with false.
  cbv iota. unfold decode, raw_decode.
  change (skip_ws (nested_arrays (S limit) ++ rest))
    with (nested_arrays (S limit) ++ rest).
  rewrite scan_too_deep; [reflexivity|].
  rewrite length_app. unfold nested_arrays. rewrite repeat_length. lia.
Qed.

(* ================================================================== *)
(** * The structure response parser *)
(* ================================================================== *)

Lemma existsb_str_eqb_true (d : str) (l : list str) :
  In d l -> existsb (str_eqb d) l = true.
Proof.
  intros Hin. apply existsb_exists. exists d. split; [exact Hin|].
  now apply str_eqb_eq.
Qed.

Lemma table_get_in (t : list (str * str)) (k v : str) :
  table_get t k = Some v -> In v (map snd t).
Proof.
  induction t as [|[k' v'] t IH]; simpl; [discriminate|].
  destruct (str_eqb k' k); [intros [= ->]; now left|auto].
Qed.

(** The detector only returns tags of the closed set. *)
Lemma detect_language_tag (filename : str) :
  In (_detect_language filename) language_tags.
Proof.
  unfold _detect_language, language_tags.
  destruct (table_get extensions _) as [tag|] eqn:E; apply in_or_app.
  - left. eapply table_get_in, E.
  - right. now left.
Qed.

Lemma valid_file_entry (line : str) : valid_file_spec (file_entry line) = true.
Proof.
  unfold file_entry, valid_file_spec.
  change (dict_get _ (py "path"))
    with (Some (JStr (strip_chars (py "- ") line))).
  change (dict_get _ (py "language"))
    with (Some (JStr (_detect_language line))).
  change (dict_get _ (py "purpose")) with (@None json).
  change (dict_get _ (py "dependencies")) with (@None json).
  cbn [is_string optional is_tag andb].
  rewrite existsb_str_eqb_true by apply detect_language_tag.
  reflexivity.
Qed.

(** The loop appends one entry per trimmed line with a source extension. *)
Lemma scan_lines_spec (lines : list str) (files : list json) :
  scan_lines lines files
  = files ++ map file_entry
               (filter (endswith_any source_extensions) (map strip lines)).
Proof.
  revert files.
  induction lines as [|l lines IH]; intros files; cbn [scan_lines map filter].
  - now rewrite app_nil_r.
  - destruct (endswith_any source_extensions (strip l)); rewrite IH.
    + now rewrite <- app_assoc.
    + reflexivity.
Qed.

Lemma valid_heuristic (lines : list str) :
  valid_structure
    (JObj [ (py "name", JStr (py "project"));
            (py "files", JArr (scan_lines lines [])) ]) = true.
Proof.
  change (forallb valid_file_spec (scan_lines lines []) = true).
  rewrite scan_lines_spec. simpl. apply forallb_forall.
  intros v Hv. apply in_map_iff in Hv. destruct Hv as (l & <- & _).
  apply valid_file_entry.
Qed.

(** C1, as the code has it, for every number [limit] of nested calls the
    interpreter still allows in the JSON scanner.  The parser always
    returns; it returns the default structure whenever the body of its
    [try] block raises, which is the case when the fenced block fails to
    decode and when it nests arrays deeper than the limit; a fenced JSON
    block that decodes is returned as decoded, whatever it is; and in every
    other case the returned value is a valid ProjectStructure. *)
Theorem parse_structure_response_total (limit : nat) (response : str) :
  exists v,
    _parse_structure_response limit response = inr v
    /\ (forall e, parse_structure_body limit response = inl e ->
                  v = default_structure)
    /\ (forall g rest, search json_block_re response = Some g ->
                       group1 g = nested_arrays (S limit) ++ rest ->
                       v = default_structure)
    /\ (forall g v', search json_block_re response = Some g ->
                     loads limit (group1 g) = inr v' -> v = v')
    /\ ((forall g, search json_block_re response = Some g ->
                   exists e, loads limit (group1 g) = inl e) ->
        valid_structure v = true).
Proof.
  unfold _parse_structure_response, parse_structure_body, try_except.
  destruct (search json_block_re response) as [g|] eqn:Es.
  - destruct (loads limit (group1 g)) as [e|v] eqn:El.
    + exists default_structure.
      split; [reflexivity|split; [reflexivity|split; [reflexivity|split]]].
      * intros g' v' [= <-]. congruence.
      * intros _. vm_compute. reflexivity.
    + exists v. split; [reflexivity|split; [discriminate|split; [|split]]].
      * intros g' rest [= <-] Hg. rewrite Hg, loads_too_deep in El.
        discriminate.
      * intros g' v' [= <-]. congruence.
      * intros H. destruct (H g eq_refl) as [e' He]. congruence.
  - eexists. split; [reflexivity|split; [discriminate|split; [|split]]].
    + discriminate.
    + discriminate.
    + intros _. apply valid_heuristic.
Qed.

Lemma parse_structure_response_total_witness :
  (_parse_structure_response 1000 (py "```json\n{oops\n```")
   = inr default_structure
   /\ valid_structure default_structure = true)
  /\ _parse_structure_response 2 (py "```json\n[[[1]]]\n```")
     = inr default_structure.
Proof.
  split.
  - destruct (parse_structure_response_total 1000 (py "```json\n{oops\n```"))
      as (v & E & Hdef & _ & _ & Hvalid).
    assert (v = default_structure) as ->.
    { apply (Hdef JSONDecodeError). vm_compute. reflexivity. }
    split; [exact E|].
    apply Hvalid. intros g Hg. exists JSONDecodeError.
    vm_compute in Hg. injection Hg as <-. vm_compute. reflexivity.
  - destruct (parse_structure_response_total 2 (py "```json\n[[[1]]]\n```"))
      as (v & E & _ & Hdeep & _).
    rewrite E. f_equal.
    apply (Hdeep [py "[[[1]]]"] (py "1]]]")); vm_compute; reflexivity.
Defined.

(** C1, as stated, fails: a fenced block holding a JSON number is returned
    as that number, which is no ProjectStructure. *)
Lemma parse_structure_response_not_always_valid :
  _parse_structure_response 1000 (py "```json\n42\n```") = inr (JInt 42)
  /\ valid_structure (JInt 42) = false.
Proof. split; vm_compute; reflexivity. Qed.

(** A block nested deeper than the scanner may go gives the default
    structure; one level less and the block is decoded.  (994 calls are
    what CPython leaves to the scanner when [json.loads] is called from the
    top level of a script under the default limit of 1000.) *)
Example parse_structure_deep_block :
  _parse_structure_response 994
    (json_open ++ nested_arrays 995 ++ repeat 93%N 995 ++ json_close)
  = inr default_structure
  /\ _parse_structure_response 994
       (json_open ++ nested_arrays 994 ++ repeat 93%N 994 ++ json_close)
     <> inr default_structure.
Proof.
  split.
  - vm_compute. reflexivity.
  - vm_compute. discriminate.
Qed.

(* ================================================================== *)
(** * Facts about the matcher *)
(* ================================================================== *)

(** A sequence of literal characters either fails or goes on after them. *)
Lemma run_lits_by (eq : char -> char -> bool) (l : str) (k : cont)
  (prev : option char) (s : str) (g : groups) :
  run (lits_by eq l) k prev s g
  = if prefix_by eq l s
    then k (after prev (firstn (length l) s)) (skipn (length l) s) g
    else None.
Proof.
  revert prev s. induction l as [|a l IH]; intros prev s.
  - reflexivity.
  - destruct s as [|c s]; [reflexivity|].
    cbn [lits_by run prefix_by]. destruct (eq a c); cbn [andb].
    + rewrite IH. reflexivity.
    + reflexivity.
Qed.

(** A lazy repetition stops at the first position where what follows it
    matches. *)
Lemma star_lazy_here (p : char -> bool) (k : cont) (prev : option char)
  (s : str) (g : groups) (m : groups * str) :
  k prev s g = Some m -> star false p k prev s g = Some m.
Proof.
  intros H. destruct s as [|c s]; simpl; [exact H|].
  destruct (p c); now rewrite H.
Qed.

Lemma star_lazy_skip (p : char -> bool) (k : cont) (a b : str)
  (g : groups) :
  forallb p a = true ->
  (forall a1 a2 prev, a = a1 ++ a2 -> a2 <> [] -> k prev (a2 ++ b) g = None) ->
  forall prev,
    star false p k prev (a ++ b) g = star false p k (after prev a) b g.
Proof.
  induction a as [|x a IH]; intros Hp Hk prev; [reflexivity|].
  simpl in Hp. apply andb_prop in Hp. destruct Hp as [Hx Ha].
  cbn [app star]. rewrite Hx.
  assert (k prev (x :: a ++ b) g = None) as E
    by (apply (Hk [] (x :: a) prev eq_refl); discriminate).
  rewrite E.
  rewrite IH; [reflexivity|exact Ha|].
  intros a1 a2 prev' -> Hne. apply (Hk (x :: a1) a2); [reflexivity|exact Hne].
Qed.

Lemma star_lazy_found (p : char -> bool) (k : cont) (s : str) (g : groups)
  (prev : option char) (m : groups * str) :
  star false p k prev s g = Some m ->
  exists a b prev', s = a ++ b /\ k prev' b g = Some m.
Proof.
  revert prev. induction s as [|c s IH]; intros prev; simpl.
  - intros H. now exists [], [], prev.
  - destruct (p c).
    + destruct (k prev (c :: s) g) as [m'|] eqn:E.
      * intros [= <-]. now exists [], (c :: s), prev.
      * intros H. apply IH in H. destruct H as (a & b & prev' & -> & H).
        now exists (c :: a), b, prev'.
    + intros H. now exists [], (c :: s), prev.
Qed.

Lemma starts_within_by_false (eq : char -> char -> bool) (sub pre rest : str) :
  starts_within_by eq sub pre rest = false ->
  forall a1 a2, pre = a1 ++ a2 -> a2 <> [] ->
                prefix_by eq sub (a2 ++ rest) = false.
Proof.
  revert pre. intros pre H a1. revert pre H.
  induction a1 as [|x a1 IH]; intros pre H a2 -> Hne.
  - destruct a2 as [|y a2]; [congruence|].
    simpl in H. now apply orb_false_elim in H.
  - simpl in H. apply orb_false_elim in H. destruct H as [_ H].
    now apply (IH _ H).
Qed.

(** ** The fenced JSON block *)

Lemma match_at_json_block (prev : option char) (s : str) :
  match_at json_block_re prev s
  = if prefix_by N.eqb json_open s
    then
      let t := skipn (length json_open) s in
      star false any
        (fun prev' s' g' =>
           run (lits json_close) final prev' s'
               (g' ++ [firstn (length t - length s') t]))
        (after prev (firstn (length json_open) s)) t []
    else None.
Proof.
  unfold match_at, json_block_re. cbn [cat run].
  unfold lits at 1. rewrite run_lits_by. reflexivity.
Qed.

(** A match of the block pattern shows a fenced block in the text. *)
Lemma search_json_block_found (prev : option char) (raw : str) (g : groups) :
  search_from json_block_re prev raw = Some g -> has_json_block raw.
Proof.
  revert prev. induction raw as [|x raw IH]; intros prev; cbn [search_from].
  - rewrite match_at_json_block.
    change (prefix_by N.eqb json_open []) with false. cbv iota.
    discriminate.
  - destruct (match_at json_block_re prev (x :: raw)) as [[g' rest]|] eqn:E.
    + intros _. rewrite match_at_json_block in E.
      destruct (prefix_by N.eqb json_open (x :: raw)) eqn:Ep; [|discriminate].
      apply prefix_by_app in Ep. cbv zeta in E.
      apply star_lazy_found in E. destruct E as (a & b & prev' & Et & E).
      unfold lits in E. rewrite run_lits_by in E.
      destruct (prefix_by N.eqb json_close b) eqn:Ec; [|discriminate].
      apply prefix_by_app in Ec.
      exists [], a, (skipn (length json_close) b).
      rewrite Ep, Et, Ec at 1. reflexivity.
    + intros H. apply IH in H. destruct H as (pre & c & post & ->).
      now exists (x :: pre), c, post.
Qed.

Lemma length_app_sub (A : Type) (a b : list A) :
  length (a ++ b) - length b = length a.
Proof. rewrite length_app. lia. Qed.

Lemma firstn_length_app (A : Type) (a b : list A) :
  firstn (length a) (a ++ b) = a.
Proof.
  rewrite firstn_app, Nat.sub_diag, firstn_all. simpl. apply app_nil_r.
Qed.

Lemma skipn_length_app (A : Type) (a b : list A) :
  skipn (length a) (a ++ b) = b.
Proof.
  rewrite skipn_app, Nat.sub_diag, skipn_all. reflexivity.
Qed.

(** The block pattern matches at an opening marker whose nearest closing
    marker ends the contents [c]. *)
Lemma match_at_json_block_here (prev : option char) (c post : str) :
  starts_within json_close c (json_close ++ post) = false ->
  match_at json_block_re prev (json_open ++ c ++ json_close ++ post)
  = Some ([c], post).
Proof.
  intros Hc. rewrite match_at_json_block.
  rewrite prefix_by_refl. cbv zeta. rewrite skipn_length_app.
  rewrite star_lazy_skip.
  - apply star_lazy_here. unfold lits. rewrite run_lits_by.
    rewrite prefix_by_refl, skipn_length_app, length_app_sub.
    rewrite !firstn_length_app. reflexivity.
  - now apply forallb_forall.
  - intros a1 a2 prev' E Hne. unfold lits. rewrite run_lits_by.
    unfold starts_within in Hc.
    now rewrite (starts_within_by_false _ _ _ _ Hc a1 a2 E Hne).
Qed.

Lemma search_json_block_first (pre c post : str) :
  starts_within json_open pre (json_open ++ c ++ json_close ++ post) = false ->
  starts_within json_close c (json_close ++ post) = false ->
  forall prev,
    search_from json_block_re prev
                (pre ++ json_open ++ c ++ json_close ++ post)
    = Some [c].
Proof.
  unfold starts_within. intros Hpre Hc.
  induction pre as [|x pre IH]; intros prev.
  - cbn [app].
    assert (match_at json_block_re prev
              (json_open ++ c ++ json_close ++ post) = Some ([c], post)) as E
      by now apply match_at_json_block_here.
    destruct (json_open ++ c ++ json_close ++ post);
      cbn [search_from]; now rewrite E.
  - cbn [starts_within_by] in Hpre.
    apply orb_false_elim in Hpre. destruct Hpre as [Hx Hpre].
    cbn [app] in Hx |- *. cbn [search_from].
    rewrite match_at_json_block, Hx.
    now apply IH.
Qed.

(** ** Whitespace at the ends of the response *)

Lemma drop_while_decomp (p : char -> bool) (s : str) :
  exists w, s = w ++ drop_while p s /\ forallb p w = true.
Proof.
  induction s as [|c s (w & E & Hw)]; simpl.
  - now exists [].
  - destruct (p c) eqn:Ec.
    + exists (c :: w). simpl. rewrite Ec, Hw. split; [now f_equal|reflexivity].
    + now exists [].
Qed.

Lemma forallb_rev (p : char -> bool) (w : str) :
  forallb p (rev w) = forallb p w.
Proof.
  induction w as [|c w IH]; simpl; [reflexivity|].
  rewrite forallb_app, IH. simpl. rewrite andb_true_r. apply andb_comm.
Qed.

Lemma rstrip_by_decomp (p : char -> bool) (s : str) :
  exists w, s = rstrip_by p s ++ w /\ forallb p w = true.
Proof.
  unfold rstrip_by.
  destruct (drop_while_decomp p (rev s)) as (w & E & Hw).
  exists (rev w). split; [|now rewrite forallb_rev].
  rewrite <- rev_app_distr, <- E. symmetry. apply rev_involutive.
Qed.

Lemma drop_while_snoc_stop (p : char -> bool) (a : str) (c : char) :
  p c = false -> drop_while p (a ++ [c]) = drop_while p a ++ [c].
Proof.
  intros Hc. induction a as [|x a IH]; simpl.
  - now rewrite Hc.
  - destruct (p x); [exact IH|reflexivity].
Qed.

Lemma drop_while_snoc_go (p : char -> bool) (a : str) (c : char) :
  p c = true ->
  drop_while p (a ++ [c]) = drop_while p a ++ [c]
  \/ (drop_while p a = [] /\ drop_while p (a ++ [c]) = []).
Proof.
  intros Hc. induction a as [|x a IH]; simpl.
  - rewrite Hc. now right.
  - destruct (p x); [exact IH|now left].
Qed.

Lemma rstrip_by_snoc_stop (p : char -> bool) (a : str) (c : char) :
  p c = false -> rstrip_by p (a ++ [c]) = a ++ [c].
Proof.
  intros Hc. unfold rstrip_by. rewrite rev_unit. simpl. rewrite Hc.
  simpl. now rewrite rev_involutive.
Qed.

Lemma rstrip_by_snoc_go (p : char -> bool) (a : str) (c : char) :
  p c = true -> rstrip_by p (a ++ [c]) = rstrip_by p a.
Proof.
  intros Hc. unfold rstrip_by. rewrite rev_unit. simpl. now rewrite Hc.
Qed.

Lemma strip_snoc_space (a : str) (c : char) :
  isspace c = true -> strip (a ++ [c]) = strip a.
Proof.
  intros Hc. unfold strip, lstrip_by.
  destruct (drop_while_snoc_go isspace a c Hc) as [E|[E1 E2]].
  - rewrite E. now apply rstrip_by_snoc_go.
  - now rewrite E1, E2.
Qed.

Lemma strip_cons_space (a : str) (c : char) :
  isspace c = true -> strip (c :: a) = strip a.
Proof. intros Hc. unfold strip, lstrip_by. simpl. now rewrite Hc. Qed.

Lemma split_snoc (sep c : char) (s : str) :
  split sep (s ++ [c])
  = if (c =? sep)%N then split sep s ++ [[]]
    else removelast (split sep s) ++ [last (split sep s) [] ++ [c]].
Proof.
  induction s as [|x s IH].
  - simpl. now destruct (c =? sep)%N.
  - cbn [app split]. rewrite IH.
    destruct (split_cons sep s) as (l0 & ls0 & E). rewrite E.
    destruct (c =? sep)%N, (x =? sep)%N, ls0; reflexivity.
Qed.

(** The lines that count are the same whether or not the response is
    trimmed first. *)
Section SourceLines.

Variable P : str -> bool.
Hypothesis P_nil : P [] = false.

Lemma source_lines_cons_space (c : char) (s : str) :
  isspace c = true -> lines_with P (c :: s) = lines_with P s.
Proof.
  intros Hc. unfold lines_with. cbn [split].
  destruct (c =? nl)%N.
  - cbn [map filter]. change (strip []) with (@nil char). now rewrite P_nil.
  - destruct (split_cons nl s) as (l & ls & ->). cbn [map filter].
    now rewrite strip_cons_space.
Qed.

Lemma source_lines_snoc_space (c : char) (s : str) :
  isspace c = true -> lines_with P (s ++ [c]) = lines_with P s.
Proof.
  intros Hc. unfold lines_with. rewrite split_snoc.
  destruct (c =? nl)%N.
  - rewrite map_app, filter_app. cbn [map filter].
    change (strip []) with (@nil char). rewrite P_nil. apply app_nil_r.
  - rewrite (app_removelast_last [] (split_not_nil nl s)) at 3.
    rewrite !map_app, !filter_app. cbn [map filter].
    now rewrite strip_snoc_space.
Qed.

Lemma source_lines_lstrip (w s : str) :
  forallb isspace w = true -> lines_with P (w ++ s) = lines_with P s.
Proof.
  induction w as [|c w IH]; simpl; [reflexivity|].
  intros H. apply andb_prop in H. destruct H as [Hc Hw].
  change (lines_with P (c :: w ++ s) = lines_with P s).
  rewrite source_lines_cons_space by exact Hc. now apply IH.
Qed.

Lemma source_lines_rstrip (w s : str) :
  forallb isspace w = true -> lines_with P (s ++ w) = lines_with P s.
Proof.
  revert s. induction w as [|c w IH]; intros s; simpl.
  - now rewrite app_nil_r.
  - intros H. apply andb_prop in H. destruct H as [Hc Hw].
    change (lines_with P (s ++ c :: w) = lines_with P s).
    replace (s ++ c :: w) with ((s ++ [c]) ++ w)
      by now rewrite <- app_assoc.
    rewrite IH by exact Hw. now apply source_lines_snoc_space.
Qed.

Lemma source_lines_strip (s : str) : lines_with P (strip s) = lines_with P s.
Proof.
  unfold strip, lstrip_by.
  destruct (drop_while_decomp isspace s) as (w1 & E1 & H1).
  destruct (rstrip_by_decomp isspace (drop_while isspace s)) as (w2 & E2 & H2).
  rewrite E1 at 2. rewrite source_lines_lstrip by exact H1.
  rewrite E2 at 2. now rewrite source_lines_rstrip.
Qed.

End SourceLines.

(** ** The line heuristic *)

Lemma endswith_last (suf s : str) (c : char) :
  endswith (suf ++ [c]) s = true -> exists s', s = s' ++ [c].
Proof.
  unfold endswith, startswith. rewrite rev_unit.
  destruct (rev s) as [|x r] eqn:E; simpl; [discriminate|].
  intros H. apply andb_prop in H. destruct H as [H _].
  apply N.eqb_eq in H. subst x.
  exists (rev r). rewrite <- (rev_involutive s), E. reflexivity.
Qed.

(** A line with a source extension ends with a letter. *)
Lemma source_line_last (line : str) :
  is_source_line line = true ->
  exists l c, line = l ++ [c] /\ mem c (py "- ") = false.
Proof.
  unfold is_source_line, endswith_any, source_extensions.
  cbn [existsb]. rewrite !orb_true_iff.
  intros [H|[H|[H|[H|[H|[H|[H|H]]]]]]]; try discriminate;
    [ apply (endswith_last (py ".p") line (ch "y")) in H
    | apply (endswith_last (py ".j") line (ch "s")) in H
    | apply (endswith_last (py ".t") line (ch "s")) in H
    | apply (endswith_last (py ".jav") line (ch "a")) in H
    | apply (endswith_last (py ".cp") line (ch "p")) in H
    | apply (endswith_last (py ".r") line (ch "s")) in H
    | apply (endswith_last (py ".g") line (ch "o")) in H ];
    destruct H as [l ->]; eexists; eexists; (split; [reflexivity|]);
    reflexivity.
Qed.

Lemma source_line_not_nil : is_source_line [] = false.
Proof. reflexivity. Qed.

(** On such a line [strip('- ')] only removes leading markers. *)
Lemma strip_chars_source_line (line : str) :
  is_source_line line = true ->
  strip_chars (py "- ") line = strip_list_marker line.
Proof.
  intros H. destruct (source_line_last line H) as (l & c & -> & Hc).
  unfold strip_chars, strip_list_marker, lstrip_by.
  rewrite drop_while_snoc_stop by exact Hc.
  now apply rstrip_by_snoc_stop.
Qed.

Lemma filter_source_nonempty (ls : list str) :
  filter is_source_line (filter (fun l => negb (str_eqb l [])) ls)
  = filter is_source_line ls.
Proof.
  induction ls as [|l ls IH]; [reflexivity|].
  cbn [filter]. destruct l as [|c l].
  - change (negb (str_eqb [] [])) with false.
    now rewrite source_line_not_nil.
  - change (negb (str_eqb (c :: l) [])) with true. cbn [filter].
    now rewrite IH.
Qed.

Lemma search_json_block_none (raw : str) :
  ~ has_json_block raw -> search json_block_re raw = None.
Proof.
  intros H. unfold search.
  destruct (search_from json_block_re None raw) as [g|] eqn:E;
    [|reflexivity].
  exfalso. apply H. eapply search_json_block_found, E.
Qed.

(** C6.  When the text holds no fenced JSON block the parser returns the
    structure named [project] whose files are, in order, one entry per
    non-empty trimmed line ending with a source extension: the path is the
    line without its leading hyphens and spaces, the language is what the
    detector returns for the line. *)
Theorem parse_structure_line_heuristic (limit : nat) (raw : str) :
  ~ has_json_block raw ->
  _parse_structure_response limit raw = inr (heuristic_structure raw).
Proof.
  intros H. unfold _parse_structure_response, parse_structure_body.
  rewrite (search_json_block_none raw H). cbn [try_except ret].
  unfold heuristic_structure, trimmed_lines. do 5 f_equal.
  rewrite scan_lines_spec. cbn [app].
  rewrite filter_source_nonempty.
  change (endswith_any source_extensions) with is_source_line.
  fold (lines_with is_source_line (strip raw)).
  rewrite (source_lines_strip is_source_line source_line_not_nil raw).
  unfold lines_with.
  f_equal. apply map_ext_in.
  intros l Hl. apply filter_In in Hl. destruct Hl as [_ Hl].
  unfold file_entry, file_spec_of_line.
  now rewrite strip_chars_source_line.
Qed.

Lemma star_lazy_reaches (p : char -> bool) (k : cont) (a b : str)
  (g : groups) :
  forallb p a = true ->
  (forall prev, k prev b g <> None) ->
  forall prev, star false p k prev (a ++ b) g <> None.
Proof.
  intros Hp Hk. induction a as [|x a IH]; intros prev.
  - cbn [app]. destruct (k prev b g) as [m|] eqn:E.
    + now rewrite (star_lazy_here p k prev b g m E).
    + now destruct (Hk prev).
  - simpl in Hp. apply andb_prop in Hp. destruct Hp as [Hx Ha].
    cbn [app star]. rewrite Hx.
    destruct (k prev (x :: a ++ b) g); [discriminate|now apply IH].
Qed.

(** The search finds a match whenever the text holds a fenced block. *)
Lemma search_json_block_complete (raw : str) :
  has_json_block raw -> search json_block_re raw <> None.
Proof.
  intros (pre & c & post & ->). unfold search. generalize (@None char).
  induction pre as [|x pre IH]; intros prev.
  - assert (match_at json_block_re prev
              (json_open ++ c ++ json_close ++ post) <> None) as E.
    { rewrite match_at_json_block, prefix_by_refl. cbv zeta.
      rewrite skipn_length_app. apply star_lazy_reaches.
      - now apply forallb_forall.
      - intros prev'. unfold lits. rewrite run_lits_by, prefix_by_refl.
        discriminate. }
    cbn [app]. destruct (json_open ++ c ++ json_close ++ post);
      cbn [search_from];
      destruct (match_at json_block_re prev _) as [[g r]|];
      congruence.
  - cbn [app search_from].
    destruct (match_at json_block_re prev _) as [[g r]|];
      [discriminate|apply IH].
Qed.

Lemma parse_structure_line_heuristic_witness :
  ~ has_json_block (py "Files:\n- src/main.py\n* lib/util.js  \nREADME.md")
  /\ _parse_structure_response 1000
       (py "Files:\n- src/main.py\n* lib/util.js  \nREADME.md")
     = inr (JObj [ (py "name", JStr (py "project"));
                   (py "files",
                    JArr [ JObj [ (py "path", JStr (py "src/main.py"));
                                  (py "language", JStr (py "python")) ];
                           JObj [ (py "path", JStr (py "* lib/util.js"));
                                  (py "language", JStr (py "javascript")) ]
                         ]) ]).
Proof.
  assert (~ has_json_block
            (py "Files:\n- src/main.py\n* lib/util.js  \nREADME.md")) as H.
  { intros H. apply search_json_block_complete in H. apply H.
    vm_compute. reflexivity. }
  split; [exact H|].
  rewrite (parse_structure_line_heuristic 1000 _ H). vm_compute. reflexivity.
Defined.

(** C5, as the code has it, for every number [limit] of nested calls the
    interpreter still allows in the JSON scanner.  The block the parser
    reads is the first one in the text: it opens at the leftmost opening
    marker and closes at the nearest closing marker after it.  What the
    parser returns is decided by the contents [c] of that block alone:
    when they decode within the limit, the decoded value, as it is; when
    they do not, for want of JSON syntax or because they nest deeper than
    the limit allows, the default structure.  Everything else in the text
    is ignored. *)
Theorem parse_structure_first_block (limit : nat) (pre c post : str) :
  starts_within json_open pre (json_open ++ c ++ json_close ++ post) = false ->
  starts_within json_close c (json_close ++ post) = false ->
  _parse_structure_response limit
    (pre ++ json_open ++ c ++ json_close ++ post)
  = match loads limit c with
    | inr v => inr v
    | inl _ => inr default_structure
    end.
Proof.
  intros Hpre Hc. unfold _parse_structure_response, parse_structure_body.
  unfold search. rewrite (search_json_block_first pre c post Hpre Hc).
  cbn [group1 nth]. now destruct (loads limit c).
Qed.

Lemma parse_structure_first_block_witness :
  _parse_structure_response 2
    (py "Plan:\n```json\n{\x22name\x22: \x22p\x22, \x22files\x22: []}\n```\nDone")
  = inr (JObj [(py "name", JStr (py "p")); (py "files", JArr [])])
  /\ _parse_structure_response 1
       (py "Plan:\n```json\n{\x22name\x22: \x22p\x22, \x22files\x22: []}\n```\nDone")
     = inr default_structure.
Proof.
  split.
  - apply (eq_trans
             (parse_structure_first_block 2
                (py "Plan:\n")
                (py "{\x22name\x22: \x22p\x22, \x22files\x22: []}")
                (py "\nDone") eq_refl eq_refl)).
    vm_compute. reflexivity.
  - apply (eq_trans
             (parse_structure_first_block 1
                (py "Plan:\n")
                (py "{\x22name\x22: \x22p\x22, \x22files\x22: []}")
                (py "\nDone") eq_refl eq_refl)).
    vm_compute. reflexivity.
Defined.

(** C5, as stated, fails: the text holds a fenced block whose contents
    decode to a valid structure, yet the parser reads the block before it
    and returns the default structure. *)
Lemma parse_structure_ignores_later_block :
  py "```json\noops\n```\n```json\n{\x22name\x22: \x22p\x22, \x22files\x22: []}\n```"
  = py "```json\noops\n```\n" ++ json_open
    ++ py "{\x22name\x22: \x22p\x22, \x22files\x22: []}" ++ json_close ++ []
  /\ loads 1000 (py "{\x22name\x22: \x22p\x22, \x22files\x22: []}")
     = inr (JObj [(py "name", JStr (py "p")); (py "files", JArr [])])
  /\ valid_structure (JObj [(py "name", JStr (py "p")); (py "files", JArr [])])
     = true
  /\ _parse_structure_response 1000
       (py "```json\noops\n```\n```json\n{\x22name\x22: \x22p\x22, \x22files\x22: []}\n```")
     = inr default_structure
  /\ default_structure
     <> JObj [(py "name", JStr (py "p")); (py "files", JArr [])].
Proof.
  repeat split; try (vm_compute; reflexivity).
  vm_compute. discriminate.
Qed.

(* ================================================================== *)
(** * The code cleaner *)
(* ================================================================== *)

(** ** Substitution *)

Lemma sub_from_skip (r : regex) (a b : str) (prev : option char) :
  sub_from r (length a) prev (a ++ b) = sub_from r 0 (after prev a) b.
Proof.
  revert prev. induction a as [|x a IH]; intros prev; [reflexivity|].
  cbn [length app sub_from]. apply IH.
Qed.

(** A match at the current position is deleted and the substitution goes
    on after it. *)
Lemma sub_from_match (r : regex) (prev : option char) (c : char)
  (a rest : str) (g : groups) :
  match_at r prev (c :: a ++ rest) = Some (g, rest) ->
  sub_from r 0 prev (c :: a ++ rest)
  = sub_from r 0 (after prev (c :: a)) rest.
Proof.
  intros E. cbn [sub_from]. rewrite E.
  replace (length (c :: a ++ rest) - length rest) with (S (length a))
    by (cbn [length]; rewrite length_app; lia).
  exact (sub_from_skip r a rest (Some c)).
Qed.

Lemma sub_from_no_match (r : regex) (prev : option char) (c : char)
  (s : str) :
  match_at r prev (c :: s) = None ->
  sub_from r 0 prev (c :: s) = c :: sub_from r 0 (Some c) s.
Proof. intros E. cbn [sub_from]. now rewrite E. Qed.

(** ** The echo patterns *)

Lemma star_prev_irrelevant (greedy : bool) (p : char -> bool) (k : cont) :
  (forall p1 p2 s g, k p1 s g = k p2 s g) ->
  forall p1 p2 s g, star greedy p k p1 s g = star greedy p k p2 s g.
Proof.
  intros Hk p1 p2 s g. revert p1 p2.
  induction s as [|c s IH]; intros p1 p2; simpl; [apply Hk|].
  rewrite (Hk p1 p2). reflexivity.
Qed.

Lemma match_at_echo (marker : str) (prev : option char) (s : str) :
  match_at (echo_re marker) prev s
  = if prefix_by ieq marker s
    then echo_tail (skipn (length marker) s)
    else None.
Proof.
  unfold match_at, echo_re. cbn [cat]. cbn [run].
  unfold lits_i. rewrite run_lits_by.
  destruct (prefix_by ieq marker s); [|reflexivity].
  apply star_prev_irrelevant. reflexivity.
Qed.

Lemma echo_tail_line (body rest : str) :
  ~ In nl body -> echo_tail (body ++ nl :: rest) = Some ([], rest).
Proof.
  intros Hb. unfold echo_tail. rewrite star_lazy_skip.
  - apply star_lazy_here. cbn [run]. unfold one. now rewrite N.eqb_refl.
  - apply forallb_forall. intros x Hx. unfold dot.
    destruct (N.eqb_spec x nl) as [->|]; [contradiction|reflexivity].
  - intros a1 [|x a2] prev E Hne; [congruence|].
    cbn [app run]. unfold one.
    destruct (N.eqb_spec nl x) as [<-|]; [|reflexivity].
    exfalso. apply Hb. rewrite E. apply in_or_app. right. now left.
Qed.

Lemma echo_tail_no_newline (t : str) : ~ In nl t -> echo_tail t = None.
Proof.
  unfold echo_tail. generalize (@None char).
  induction t as [|x t IH]; intros prev Ht; [reflexivity|].
  assert (x <> nl) as Hx by (intros ->; apply Ht; now left).
  cbn [star run]. unfold dot, one.
  destruct (N.eqb_spec x nl); [contradiction|].
  destruct (N.eqb_spec nl x); [congruence|]. cbn [negb].
  apply IH. intros H. apply Ht. now right.
Qed.

Lemma sub_from_echo_prev (marker : str) (s : str) (n : nat)
  (p1 p2 : option char) :
  sub_from (echo_re marker) n p1 s = sub_from (echo_re marker) n p2 s.
Proof.
  revert n p1 p2. induction s as [|c s IH]; intros n p1 p2; [reflexivity|].
  cbn [sub_from]. destruct n as [|n]; [|apply IH].
  rewrite (match_at_echo marker p1), (match_at_echo marker p2).
  reflexivity.
Qed.

Lemma prefix_by_app_r (eq : char -> char -> bool) (l m x : str) :
  prefix_by eq l m = true -> prefix_by eq l (m ++ x) = true.
Proof.
  revert m. induction l as [|a l IH]; intros [|b m]; simpl; try easy.
  intros H. apply andb_prop in H. destruct H as [-> H]. now apply IH.
Qed.

(** An occurrence of the marker that no occurrence precedes is deleted
    with the rest of its line and the newline. *)
Lemma sub_echo_delete (marker pre m body rest : str) :
  length m = length marker ->
  prefix_by ieq marker m = true ->
  starts_within_by ieq marker pre (m ++ body ++ nl :: rest) = false ->
  ~ In nl body ->
  sub_empty (echo_re marker) (pre ++ m ++ body ++ nl :: rest)
  = pre ++ sub_empty (echo_re marker) rest.
Proof.
  intros Hlen Hm Hpre Hbody. unfold sub_empty.
  generalize (@None char) at 1.
  induction pre as [|x pre IH]; intros prev.
  - cbn [app].
    destruct (m ++ body ++ [nl]) as [|c a] eqn:Ea.
    { apply app_eq_nil in Ea. destruct Ea as [_ Ea].
      apply app_eq_nil in Ea. destruct Ea as [_ Ea]. discriminate. }
    replace (m ++ body ++ nl :: rest) with (c :: a ++ rest).
    2:{ change (c :: a ++ rest) with ((c :: a) ++ rest). rewrite <- Ea.
        now rewrite <- !app_assoc. }
    rewrite (sub_from_match _ prev c a rest []).
    + apply sub_from_echo_prev.
    + change (c :: a ++ rest) with ((c :: a) ++ rest). rewrite <- Ea.
      rewrite <- !app_assoc. cbn [app].
      rewrite match_at_echo, (prefix_by_app_r _ _ _ _ Hm).
      rewrite <- Hlen, skipn_length_app. now apply echo_tail_line.
  - cbn [starts_within_by] in Hpre.
    apply orb_false_elim in Hpre. destruct Hpre as [Hx Hpre].
    cbn [app] in Hx |- *. rewrite sub_from_no_match.
    + f_equal. now apply IH.
    + now rewrite match_at_echo, Hx.
Qed.

(** Nothing is deleted from a text that holds no newline. *)
Lemma sub_echo_no_newline (marker code : str) :
  ~ In nl code -> sub_empty (echo_re marker) code = code.
Proof.
  intros Hcode. unfold sub_empty. generalize (@None char).
  induction code as [|c code IH]; intros prev; [reflexivity|].
  rewrite sub_from_no_match.
  - f_equal. apply IH. intros H. apply Hcode. now right.
  - rewrite match_at_echo.
    destruct (prefix_by ieq marker (c :: code)) eqn:Ep; [|reflexivity].
    apply echo_tail_no_newline. intros H.
    apply Hcode. rewrite <- (firstn_skipn (length marker) (c :: code)).
    apply in_or_app. now right.
Qed.

(** C4, as stated, fails: a marker in the middle of a line is deleted with
    the rest of its line, and the next line is joined to what precedes. *)
Lemma echo_removed_inside_a_line :
  py "x = 1 # Response: hi\ny = 2"
  = py "x = 1 " ++ hash_marker ++ py " hi\ny = 2"
  /\ remove_echo (py "x = 1 # Response: hi\ny = 2") = py "x = 1 y = 2"
  /\ contains hash_marker (remove_echo (py "x = 1 # Response: hi\ny = 2"))
     = false.
Proof. repeat split; vm_compute; reflexivity. Qed.

(** ** Texts without markers *)

Lemma occurs_by_cons_false (eq : char -> char -> bool) (l : str) (c : char)
  (s : str) :
  occurs_by eq l (c :: s) = false ->
  prefix_by eq l (c :: s) = false /\ occurs_by eq l s = false.
Proof. cbn [occurs_by]. apply orb_false_elim. Qed.

Lemma occurs_by_app_l (eq : char -> char -> bool) (l a s : str) :
  occurs_by eq l (a ++ s) = false -> occurs_by eq l s = false.
Proof.
  induction a as [|x a IH]; [easy|].
  cbn [app]. intros H. apply occurs_by_cons_false in H. now apply IH.
Qed.

Lemma occurs_by_app_r (eq : char -> char -> bool) (l s b : str) :
  occurs_by eq l (s ++ b) = false -> occurs_by eq l s = false.
Proof.
  induction s as [|x s IH].
  - cbn [app occurs_by]. rewrite orb_false_r.
    destruct (prefix_by eq l []) eqn:E; [|reflexivity].
    intros H. apply (prefix_by_app_r eq l [] b) in E. cbn [app] in E.
    destruct b; cbn [occurs_by] in H; rewrite E in H; discriminate.
  - cbn [app]. intros H. apply occurs_by_cons_false in H. destruct H as [H1 H2].
    cbn [occurs_by]. rewrite (IH H2), orb_false_r.
    destruct (prefix_by eq l (x :: s)) eqn:E; [|reflexivity].
    apply (prefix_by_app_r eq l _ b) in E. cbn [app] in E. congruence.
Qed.

(** A part of a text without [l] is without [l]. *)
Lemma occurs_by_part (eq : char -> char -> bool) (l a s b : str) :
  occurs_by eq l (a ++ s ++ b) = false -> occurs_by eq l s = false.
Proof.
  intros H. apply occurs_by_app_l in H. now apply occurs_by_app_r in H.
Qed.

Lemma strip_part (s : str) :
  exists a b, s = a ++ strip s ++ b.
Proof.
  unfold strip, lstrip_by.
  destruct (drop_while_decomp isspace s) as (w1 & E1 & _).
  destruct (rstrip_by_decomp isspace (drop_while isspace s)) as (w2 & E2 & _).
  exists w1, w2. now rewrite <- E2.
Qed.

Lemma rstrip_part (s : str) : exists b, s = rstrip s ++ b.
Proof.
  destruct (rstrip_by_decomp isspace s) as (w & E & _). now exists w.
Qed.

Lemma occurs_by_strip (eq : char -> char -> bool) (l s : str) :
  occurs_by eq l s = false -> occurs_by eq l (strip s) = false.
Proof.
  intros H. destruct (strip_part s) as (a & b & E). rewrite E in H.
  now apply occurs_by_part in H.
Qed.

(** Where a pattern needs [l] at its start and [l] does not occur, the
    substitution changes nothing. *)
Lemma sub_from_absent (eq : char -> char -> bool) (l : str) (r : regex) :
  (forall prev s, prefix_by eq l s = false -> match_at r prev s = None) ->
  forall s prev, occurs_by eq l s = false -> sub_from r 0 prev s = s.
Proof.
  intros Hr. induction s as [|c s IH]; intros prev H; [reflexivity|].
  apply occurs_by_cons_false in H. destruct H as [H1 H2].
  rewrite sub_from_no_match by now apply Hr.
  f_equal. now apply IH.
Qed.

Lemma sub_echo_absent (marker code : str) :
  occurs_by ieq marker code = false ->
  sub_empty (echo_re marker) code = code.
Proof.
  apply (sub_from_absent ieq marker).
  intros prev s H. now rewrite match_at_echo, H.
Qed.

Lemma match_at_fence_open (prev : option char) (s : str) :
  prefix_by N.eqb (py "```") s = false ->
  match_at fence_open_re prev s = None.
Proof.
  intros H. unfold match_at, fence_open_re. cbn [cat run].
  unfold lits. now rewrite run_lits_by, H.
Qed.

Lemma sub_fence_open_absent (code : str) :
  contains (py "```") code = false -> sub_empty fence_open_re code = code.
Proof.
  apply (sub_from_absent N.eqb (py "```")).
  intros prev s. apply match_at_fence_open.
Qed.

Lemma replace_absent (old new s : str) :
  contains old s = false -> replace old new s = s.
Proof.
  unfold replace, contains. induction s as [|c s IH]; intros H; [reflexivity|].
  apply occurs_by_cons_false in H. destruct H as [H1 H2].
  cbn [replace_from]. unfold startswith. rewrite H1.
  f_equal. now apply IH.
Qed.

Lemma remove_fences_clean (code : str) :
  contains (py "```") code = false -> remove_fences code = code.
Proof.
  intros H. unfold remove_fences.
  rewrite sub_fence_open_absent by exact H. now apply replace_absent.
Qed.

Lemma remove_echo_clean (code : str) :
  occurs_by ieq hash_marker code = false ->
  occurs_by ieq slash_marker code = false ->
  remove_echo code = code.
Proof.
  intros H1 H2. unfold remove_echo, echo_hash_re, echo_slash_re.
  fold hash_marker. fold slash_marker.
  rewrite (sub_echo_absent hash_marker code H1).
  now apply sub_echo_absent.
Qed.

(** ** Trimming twice *)

Lemma drop_while_idem (p : char -> bool) (s : str) :
  drop_while p (drop_while p s) = drop_while p s.
Proof.
  induction s as [|c s IH]; simpl; [reflexivity|].
  destruct (p c) eqn:E; [exact IH|]. simpl. now rewrite E.
Qed.

Lemma rstrip_by_idem (p : char -> bool) (s : str) :
  rstrip_by p (rstrip_by p s) = rstrip_by p s.
Proof.
  unfold rstrip_by. now rewrite rev_involutive, drop_while_idem.
Qed.

Lemma drop_while_head (p : char -> bool) (s : str) :
  match drop_while p s with
  | [] => True
  | c :: _ => p c = false
  end.
Proof.
  induction s as [|c s IH]; simpl; [exact I|].
  destruct (p c) eqn:E; [exact IH|exact E].
Qed.

Lemma rstrip_by_head (p : char -> bool) (c : char) (s : str) :
  p c = false -> exists s', rstrip_by p (c :: s) = c :: s'.
Proof.
  intros Hc. unfold rstrip_by. cbn [rev].
  rewrite drop_while_snoc_stop by exact Hc. rewrite rev_unit. eauto.
Qed.

Lemma strip_idem (s : str) : strip (strip s) = strip s.
Proof.
  unfold strip, lstrip_by.
  pose proof (drop_while_head isspace s) as H.
  destruct (drop_while isspace s) as [|c t]; [reflexivity|].
  destruct (rstrip_by_head isspace c t H) as [t' E].
  rewrite E. cbn [drop_while]. rewrite H, <- E. apply rstrip_by_idem.
Qed.

(** ** Cleaning twice *)

(** With a parser that rejects an [if] header followed by an unindented
    line, as CPython does, the second cleaning repairs what the first one
    left. *)
Lemma clean_repairs_on_second_pass (ast_parse : str -> parse_outcome) :
  rejects_unindented_block ast_parse ->
  _clean_generated_code ast_parse (py "if True: \nprint('x')") (py "python")
  = inr (py "if True:\nprint('x')")
  /\ _clean_generated_code ast_parse (py "if True:\nprint('x')") (py "python")
     = inr (py "if True:\n    print('x')").
Proof.
  intros [[m1 H1] [m2 H2]]. unfold _clean_generated_code.
  change (remove_echo (remove_fences (py "if True: \nprint('x')")))
    with (py "if True: \nprint('x')").
  change (remove_echo (remove_fences (py "if True:\nprint('x')")))
    with (py "if True:\nprint('x')").
  change (str_eqb (py "python") (py "python")) with true. cbv iota.
  rewrite H1, H2. split; reflexivity.
Qed.

(** ** Fence markers in the output *)

Lemma replace_from_skip (old new a r : str) :
  replace_from old new (length a) (a ++ r) = replace_from old new 0 r.
Proof. induction a as [|x a IH]; [reflexivity|exact IH]. Qed.

Lemma replace_at_occurrence (old r : str) :
  old <> [] -> replace old [] (old ++ r) = replace old [] r.
Proof.
  intros Hne. unfold replace. destruct old as [|c old]; [congruence|].
  cbn [app replace_from]. unfold startswith.
  change (c :: old ++ r) with ((c :: old) ++ r). rewrite prefix_by_refl.
  replace (length (c :: old) - 1) with (length old) by (cbn [length]; lia).
  cbn [app]. apply replace_from_skip.
Qed.

Lemma replace_off_occurrence (old : str) (c : char) (s : str) :
  startswith old (c :: s) = false ->
  replace old [] (c :: s) = c :: replace old [] s.
Proof. intros H. unfold replace. cbn [replace_from]. now rewrite H. Qed.

Lemma prefix_by_repeat_le (b : char) (m n : nat) (t : str) :
  m <= n ->
  prefix_by N.eqb (repeat b n) t = true ->
  prefix_by N.eqb (repeat b m) t = true.
Proof.
  revert n t. induction m as [|m IH]; intros n t Hle; [reflexivity|].
  destruct n as [|n]; [lia|]. destruct t as [|c t]; [easy|].
  cbn [repeat prefix_by]. intros H. apply andb_prop in H. destruct H as [-> H].
  apply (IH n); [lia|exact H].
Qed.

(** Deleting the occurrences of a run of three equal characters does not
    bring a shorter run of them to the front. *)
Lemma replace_run_front (b : char) (n : nat) (t : str) :
  0 < n <= 3 ->
  prefix_by N.eqb (repeat b n) t = false ->
  prefix_by N.eqb (repeat b n) (replace (repeat b 3) [] t) = false.
Proof.
  revert t. induction n as [|n IH]; intros t Hn H; [lia|].
  destruct t as [|c t]; [reflexivity|].
  assert (startswith (repeat b 3) (c :: t) = false) as Hs.
  { unfold startswith.
    destruct (prefix_by N.eqb (repeat b 3) (c :: t)) eqn:E; [|reflexivity].
    apply (prefix_by_repeat_le b (S n) 3) in E; [congruence|lia]. }
  rewrite replace_off_occurrence by exact Hs.
  cbn [repeat prefix_by] in H |- *.
  destruct (b =? c)%N; [|reflexivity]. cbn [andb] in H |- *.
  destruct n as [|n]; [discriminate|].
  apply IH; [lia|exact H].
Qed.

Lemma replace_run_absent (b : char) (s : str) :
  contains (repeat b 3) (replace (repeat b 3) [] s) = false.
Proof.
  remember (length s) as n eqn:En. revert s En.
  induction n as [n IH] using lt_wf_ind. intros s En.
  destruct (startswith (repeat b 3) s) eqn:Hs.
  - unfold startswith in Hs. apply prefix_by_app in Hs.
    pose proof (f_equal (@length char) Hs) as Hlen.
    rewrite length_app in Hlen. cbn [repeat length] in Hlen.
    rewrite Hs, replace_at_occurrence by discriminate.
    apply (IH (length (skipn 3 s))); [lia|reflexivity].
  - destruct s as [|c s]; [reflexivity|].
    rewrite replace_off_occurrence by exact Hs.
    unfold contains. cbn [occurs_by].
    rewrite (IH (length s)); [|subst n; cbn [length]; lia|reflexivity].
    rewrite orb_false_r. rewrite <- (replace_off_occurrence _ _ _ Hs).
    apply (replace_run_front b 3); [lia|exact Hs].
Qed.

Lemma remove_fences_absent (code : str) :
  contains (py "```") (remove_fences code) = false.
Proof. unfold remove_fences. apply (replace_run_absent 96%N). Qed.

Lemma prefix_by_app_cases (l a : str) (c : char) (b : str) :
  prefix_by N.eqb l (a ++ c :: b) = true ->
  prefix_by N.eqb l a = true \/ In c l.
Proof.
  revert a. induction l as [|x l IH]; intros a H; [now left|].
  destruct a as [|y a].
  - cbn [app prefix_by] in H. apply andb_prop in H. destruct H as [H _].
    apply N.eqb_eq in H. right. now left.
  - cbn [app prefix_by] in H |- *. apply andb_prop in H. destruct H as [-> H].
    destruct (IH a H) as [H'|H']; [now left|right; now right].
Qed.

(** A marker that holds no newline occurs in joined lines only inside a
    line. *)
Lemma contains_app_newline (l a b : str) :
  l <> [] -> ~ In nl l ->
  contains l a = false -> contains l b = false ->
  contains l (a ++ nl :: b) = false.
Proof.
  unfold contains. intros Hne Hnl Ha Hb. induction a as [|x a IH].
  - cbn [app occurs_by]. rewrite Hb, orb_false_r.
    destruct (prefix_by N.eqb l (nl :: b)) eqn:E; [|reflexivity].
    destruct (prefix_by_app_cases l [] nl b E) as [H|H]; [|contradiction].
    destruct l; [congruence|discriminate].
  - apply occurs_by_cons_false in Ha. destruct Ha as [Ha1 Ha2].
    cbn [app occurs_by]. rewrite (IH Ha2), orb_false_r.
    destruct (prefix_by N.eqb l (x :: a ++ nl :: b)) eqn:E; [|reflexivity].
    destruct (prefix_by_app_cases l (x :: a) nl b E) as [H|H];
      [congruence|contradiction].
Qed.

Lemma contains_join (l : str) (ls : list str) :
  l <> [] -> ~ In nl l ->
  (forall x, In x ls -> contains l x = false) ->
  contains l (join (py "\n") ls) = false.
Proof.
  intros Hne Hnl. induction ls as [|x ls IH]; intros H.
  - destruct l; [congruence|reflexivity].
  - destruct ls as [|y ls]; [apply H; now left|].
    rewrite join_cons by discriminate.
    apply contains_app_newline; try assumption.
    + apply H. now left.
    + apply IH. intros z Hz. apply H. now right.
Qed.

Lemma join_part (sep : str) (ls : list str) (x : str) :
  In x ls -> exists a b, join sep ls = a ++ x ++ b.
Proof.
  induction ls as [|y ls IH]; [easy|]. intros [->|H].
  - destruct ls as [|z ls].
    + exists [], []. cbn [join app]. now rewrite app_nil_r.
    + exists [], (sep ++ join sep (z :: ls)). now rewrite join_cons.
  - destruct (IH H) as (a & b & E).
    destruct ls as [|z ls]; [easy|].
    exists (y ++ sep ++ a), b. rewrite join_cons by discriminate.
    rewrite E. now rewrite <- !app_assoc.
Qed.

Lemma contains_line (l code x : str) :
  contains l code = false -> In x (split nl code) -> contains l x = false.
Proof.
  intros H Hx. destruct (join_part [nl] _ _ Hx) as (a & b & E).
  rewrite join_split in E. rewrite E in H.
  now apply occurs_by_part in H.
Qed.

Lemma contains_fix_line (lines : list str) (i : nat) (x : str) :
  contains (py "```") x = false ->
  contains (py "```") (fix_line lines i x) = false.
Proof.
  intros H.
  assert (contains (py "```") (rstrip x) = false) as Hr.
  { destruct (rstrip_part x) as [b E]. rewrite E in H.
    now apply occurs_by_app_r in H. }
  unfold fix_line.
  destruct (_ && _ && _); [|exact Hr].
  destruct (_ && _); [|exact Hr].
  unfold contains in *. change (py "    " ++ rstrip x)
    with (32 :: 32 :: 32 :: 32 :: rstrip x)%N.
  cbn [occurs_by]. rewrite Hr. reflexivity.
Qed.

(** The repair brings no fence marker into a text that has none. *)
Lemma contains_fix_python_syntax (code msg : str) :
  contains (py "```") code = false ->
  contains (py "```") (_fix_python_syntax code msg) = false.
Proof.
  intros H. unfold _fix_python_syntax.
  apply contains_join; [discriminate| |].
  - vm_compute. intros [E|[E|[E|[]]]]; discriminate.
  - intros x Hx. apply in_map_iff in Hx. destruct Hx as ([i y] & <- & Hy).
    apply contains_fix_line. apply (contains_line _ code); [exact H|].
    apply in_combine_r in Hy. exact Hy.
Qed.




(* ================================================================== *)
(** * The language detector *)
(* ================================================================== *)

Lemma removelast_snoc (A : Type) (l : list A) (a : A) :
  removelast (l ++ [a]) = l.
Proof. apply removelast_last. Qed.

Lemma last_snoc (A : Type) (l : list A) (a d : A) : last (l ++ [a]) d = a.
Proof. apply last_last. Qed.

(** Text without a separator joins the last piece of a split. *)
Lemma split_app_no_sep (sep : char) (a b : str) :
  ~ In sep b ->
  split sep (a ++ b)
  = removelast (split sep a) ++ [last (split sep a) [] ++ b].
Proof.
  revert a. induction b as [|c b IH]; intros a Hb.
  - rewrite !app_nil_r. apply app_removelast_last, split_not_nil.
  - replace (a ++ c :: b) with ((a ++ [c]) ++ b) by now rewrite <- app_assoc.
    rewrite IH by (intros H; apply Hb; now right).
    rewrite split_snoc.
    destruct (N.eqb_spec c sep) as [->|_]; [exfalso; apply Hb; now left|].
    rewrite removelast_snoc, last_snoc. now rewrite <- app_assoc.
Qed.

Lemma split_dir_prefix_last (pre : str) :
  dir_prefix pre -> last (split (ch "/") pre) [] = [].
Proof.
  intros [->|H]; [reflexivity|].
  apply (endswith_last [] pre (ch "/")) in H. destruct H as [p ->].
  rewrite split_snoc. change (ch "/" =? ch "/")%N with true.
  apply last_snoc.
Qed.

Lemma path_name_last (a name : str) :
  ~ In (ch "/") name -> name <> [] -> name <> py "." ->
  last (split (ch "/") a) [] = [] ->
  path_name (a ++ name) = name.
Proof.
  intros Hs Hne Hdot Ha. unfold path_name.
  rewrite split_app_no_sep by exact Hs. rewrite Ha. cbn [app].
  rewrite filter_app. cbn [filter].
  replace (str_eqb name []) with false
    by (symmetry; destruct (str_eqb name []) eqn:E; [|reflexivity];
        apply str_eqb_eq in E; contradiction).
  replace (str_eqb name (py ".")) with false
    by (symmetry; destruct (str_eqb name (py ".")) eqn:E; [|reflexivity];
        apply str_eqb_eq in E; contradiction).
  cbn [orb negb]. apply last_snoc.
Qed.

Lemma rfind_absent (c : char) (s : str) : ~ In c s -> rfind c s = None.
Proof.
  induction s as [|x s IH]; intros H; [reflexivity|].
  cbn [rfind]. rewrite IH by (intros Hin; apply H; now right).
  destruct (N.eqb_spec x c) as [->|]; [exfalso; apply H; now left|reflexivity].
Qed.

Lemma rfind_last (c : char) (x y : str) :
  ~ In c y -> rfind c (x ++ c :: y) = Some (length x).
Proof.
  intros Hy. induction x as [|a x IH].
  - cbn [app rfind length]. rewrite rfind_absent by exact Hy.
    now rewrite N.eqb_refl.
  - cbn [app rfind length]. now rewrite IH.
Qed.

(** Comparisons of code points, from booleans to propositions. *)
Ltac char_cases :=
  repeat match goal with
  | H : (_ && _)%bool = true |- _ => apply andb_prop in H; destruct H
  | H : (_ || _)%bool = false |- _ => apply orb_false_elim in H; destruct H
  | H : negb _ = true |- _ => apply negb_true_iff in H
  | H : negb _ = false |- _ => apply negb_false_iff in H
  | H : (_ <=? _)%N = true |- _ => apply N.leb_le in H
  | H : (_ <=? _)%N = false |- _ => apply N.leb_gt in H
  | H : (_ =? _)%N = true |- _ => apply N.eqb_eq in H
  | H : (_ =? _)%N = false |- _ => apply N.eqb_neq in H
  end.

Lemma lower_char_low (c x : char) :
  (x < 65)%N -> lower_char c = x -> c = x.
Proof.
  unfold lower_char. intros Hx.
  destruct ((65 <=? c) && (c <=? 90))%N eqn:E1; [char_cases; lia|].
  destruct ((192 <=? c) && (c <=? 222) && negb (c =? 215))%N eqn:E2;
    [char_cases; lia|].
  destruct (c =? 8490)%N eqn:E3; [char_cases; lia|easy].
Qed.

Lemma lower_letter_not_low (c : char) :
  lower_letter (lower_char c) = true -> c <> ch "." /\ c <> ch "/".
Proof.
  intros H. split; intros ->; discriminate.
Qed.

(** A spelling of a table extension, in any case, is a dot followed by
    characters that are neither dots nor slashes. *)
Lemma ext_spelling (ext e : str) :
  ext_shape ext = true -> lower e = ext ->
  exists t, e = ch "." :: t /\ t <> [] /\ ~ In (ch ".") t /\ ~ In (ch "/") t.
Proof.
  intros Hs <-. destruct e as [|d [|c t]]; try discriminate.
  cbn [lower map ext_shape] in Hs. apply andb_prop in Hs. destruct Hs as [Hd Ht].
  apply N.eqb_eq in Hd. apply (lower_char_low d 46%N) in Hd; [|lia]. subst d.
  exists (c :: t). split; [reflexivity|]. split; [discriminate|].
  change (forallb lower_letter (map lower_char (c :: t)) = true) in Ht.
  rewrite forallb_forall in Ht.
  split; intros Hin;
    apply (in_map lower_char) in Hin; apply Ht in Hin; discriminate.
Qed.

Lemma table_entry (ext tag : str) :
  In (ext, tag) extensions ->
  table_get extensions ext = Some tag /\ ext_shape ext = true.
Proof.
  unfold extensions. cbn [In]. intros H.
  repeat (destruct H as [H|H];
          [injection H as <- <-; split; vm_compute; reflexivity|]).
  destruct H.
Qed.

Lemma lower_idem_ext (ext : str) : ext_shape ext = true -> lower ext = ext.
Proof.
  destruct ext as [|d [|c t]]; try discriminate. cbn [ext_shape].
  intros H. apply andb_prop in H. destruct H as [Hd Ht].
  apply N.eqb_eq in Hd. subst d.
  assert (forall l, forallb lower_letter l = true -> lower l = l) as Hl.
  { induction l as [|x l IH]; [reflexivity|]. cbn [forallb lower map].
    intros H. apply andb_prop in H. destruct H as [Hx Hl]. f_equal.
    - unfold lower_letter in Hx. unfold lower_char.
      destruct ((65 <=? x) && (x <=? 90))%N eqn:E1; [char_cases; lia|].
      destruct ((192 <=? x) && (x <=? 222) && negb (x =? 215))%N eqn:E2;
        [char_cases; lia|].
      destruct (x =? 8490)%N eqn:E3; [char_cases; lia|reflexivity].
    - now apply IH. }
  change (lower (46%N :: c :: t)) with (46%N :: lower (c :: t)).
  now rewrite Hl.
Qed.

Lemma path_suffix_stem (pre stem t : str) :
  dir_prefix pre -> stem <> [] -> ~ In (ch "/") stem ->
  t <> [] -> ~ In (ch ".") t -> ~ In (ch "/") t ->
  path_suffix (pre ++ stem ++ ch "." :: t) = ch "." :: t.
Proof.
  intros Hpre Hstem Hs Ht Hdot Hslash. unfold path_suffix.
  rewrite path_name_last.
  - rewrite rfind_last by exact Hdot.
    replace (0 <? length stem) with true
      by (symmetry; apply Nat.ltb_lt; destruct stem; [congruence|cbn; lia]).
    replace (length stem <? length (stem ++ ch "." :: t) - 1) with true.
    2:{ symmetry. apply Nat.ltb_lt. rewrite length_app. cbn [length].
        destruct t; [congruence|cbn [length]; lia]. }
    cbn [andb]. apply skipn_length_app.
  - intros H. apply in_app_or in H. destruct H as [H|[H|H]];
      [now apply Hs|discriminate|now apply Hslash].
  - destruct stem; [congruence|discriminate].
  - destruct stem as [|x [|y s]]; [congruence| |discriminate].
    destruct t; [congruence|discriminate].
  - now apply split_dir_prefix_last.
Qed.

Lemma path_suffix_plain (pre name : str) :
  dir_prefix pre -> name <> [] -> name <> py "." ->
  ~ In (ch "/") name -> ~ In (ch ".") (tl name) ->
  path_suffix (pre ++ name) = [].
Proof.
  intros Hpre Hne Hdot Hs Ht. unfold path_suffix.
  rewrite path_name_last;
    [|assumption|assumption|assumption|now apply split_dir_prefix_last].
  destruct name as [|c name]; [congruence|]. cbn [tl] in Ht.
  cbn [rfind]. rewrite rfind_absent by exact Ht.
  destruct (c =? ch ".")%N; reflexivity.
Qed.

(** X1.  The detector returns a tag of the closed set: one of the tags of
    the table, or [text]. *)
Theorem detect_language_closed (filename : str) :
  In (_detect_language filename) language_tags.
Proof.
  unfold _detect_language, language_tags.
  destruct (table_get extensions (lower (path_suffix filename))) as [tag|] eqn:E;
    apply in_or_app; [left|right; now left].
  revert E. generalize (lower (path_suffix filename)).
  induction extensions as [|[k v] t IH]; intros key; cbn [table_get map];
    [discriminate|].
  destruct (str_eqb k key); [intros [= ->]; now left|].
  intros H. right. now apply (IH key).
Qed.

(** X2.  A file whose name is a stem followed by an extension of the
    table, spelled in any case, gets the tag of that extension, whatever
    directories precede the name; the stem may hold dots but is not made
    of dots only. *)
Theorem detect_language_recognized (ext tag pre stem e : str) :
  In (ext, tag) extensions ->
  lower e = ext ->
  dir_prefix pre ->
  forallb (N.eqb (ch ".")) stem = false -> ~ In (ch "/") stem ->
  _detect_language (pre ++ stem ++ e) = tag.
Proof.
  intros Hin He Hpre Hdots Hs.
  assert (stem <> []) as Hstem by (intros ->; discriminate).
  destruct (table_entry ext tag Hin) as [Hget Hshape].
  destruct (ext_spelling ext e Hshape He) as (t & -> & Ht & Hdot & Hslash).
  unfold _detect_language.
  rewrite path_suffix_stem by assumption. rewrite He, Hget. reflexivity.
Qed.

Lemma detect_language_recognized_witness :
  _detect_language (py "src/app/My.Module.TSX") = py "react-ts".
Proof.
  apply (detect_language_recognized (py ".tsx") (py "react-ts")
           (py "src/app/") (py "My.Module") (py ".TSX")).
  - vm_compute. tauto.
  - reflexivity.
  - right. reflexivity.
  - reflexivity.
  - vm_compute. intuition discriminate.
Defined.

(** X3.  A name with no dot after its first character has no extension
    and is tagged [text]: so are [Makefile] and the dot files, among them
    the names that read like a bare extension ([.py], [src/.json]). *)
Theorem detect_language_no_extension (pre name : str) :
  dir_prefix pre ->
  name <> [] -> name <> py "." ->
  ~ In (ch "/") name -> ~ In (ch ".") (tl name) ->
  _detect_language (pre ++ name) = py "text".
Proof.
  intros Hpre Hne Hdot Hs Ht. unfold _detect_language.
  rewrite path_suffix_plain by assumption. reflexivity.
Qed.

Lemma detect_language_no_extension_witness :
  _detect_language (py "src/.json") = py "text".
Proof.
  apply (detect_language_no_extension (py "src/") (py ".json")).
  - right. reflexivity.
  - discriminate.
  - discriminate.
  - vm_compute. intuition discriminate.
  - vm_compute. intuition discriminate.
Defined.

(* ================================================================== *)
(** * The entries of the line heuristic *)
(* ================================================================== *)

Lemma endswith_snoc (suf a : str) (c : char) :
  endswith suf a = true -> suf <> [] -> endswith suf (c :: a) = true.
Proof.
  unfold endswith, startswith. intros H _. cbn [rev].
  now apply prefix_by_app_r.
Qed.

(** Every text is a directory prefix followed by a part without slash. *)
Lemma dir_prefix_decomp (a : str) :
  exists pre stem, a = pre ++ stem /\ dir_prefix pre /\ ~ In (ch "/") stem.
Proof.
  induction a as [|c a (pre & stem & -> & Hpre & Hs)].
  - exists [], []. repeat split; [now left|easy].
  - destruct Hpre as [->|Hpre].
    + destruct (N.eqb_spec c (ch "/")) as [->|Hc].
      * exists [ch "/"], stem. repeat split; [now right|exact Hs].
      * exists [], (c :: stem). repeat split; [now left|].
        intros [H|H]; [congruence|now apply Hs].
    + exists (c :: pre), stem. repeat split; [|exact Hs].
      right. apply endswith_snoc; [exact Hpre|discriminate].
Qed.

Lemma endswith_decomp (suf s : str) :
  endswith suf s = true -> exists a, s = a ++ suf.
Proof.
  unfold endswith, startswith. intros H. apply prefix_by_app in H.
  exists (rev (skipn (length (rev suf)) (rev s))).
  rewrite <- (rev_involutive suf) at 2. rewrite <- rev_app_distr, <- H.
  symmetry. apply rev_involutive.
Qed.

Lemma endswith_app (suf a : str) : endswith suf (a ++ suf) = true.
Proof.
  unfold endswith, startswith. rewrite rev_app_distr. apply prefix_by_refl.
Qed.

Lemma drop_while_app_stop (p : char -> bool) (a : str) (c : char) (b : str) :
  p c = false -> drop_while p (a ++ c :: b) = drop_while p a ++ c :: b.
Proof.
  intros Hc. induction a as [|x a IH]; cbn [app drop_while].
  - now rewrite Hc.
  - destruct (p x); [exact IH|reflexivity].
Qed.

(** A source extension is in the table, with a tag of the heuristic. *)
Lemma source_extension_entry (ext : str) :
  In ext source_extensions ->
  exists tag, In (ext, tag) extensions /\ In tag source_tags.
Proof.
  unfold source_extensions. cbn [In]. intros H.
  repeat (destruct H as [<-|H];
          [eexists; split; [vm_compute; tauto|vm_compute; tauto]|]).
  destruct H.
Qed.

Lemma source_line_decomp (line : str) :
  is_source_line line = true ->
  exists a ext, line = a ++ ext /\ In ext source_extensions.
Proof.
  unfold is_source_line, endswith_any. intros H.
  apply existsb_exists in H. destruct H as (ext & Hin & H).
  apply endswith_decomp in H. destruct H as [a ->]. now exists a, ext.
Qed.

(** The path recorded for a line with a source extension. *)
Lemma source_line_path (line : str) :
  is_source_line line = true ->
  let p := strip_chars (py "- ") line in
  is_source_line p = true
  /\ match p with
     | [] => False
     | c :: _ => list_marker c = false
     end.
Proof.
  intros H p. subst p. rewrite strip_chars_source_line by exact H.
  unfold strip_list_marker.
  destruct (source_line_decomp line H) as (a & ext & -> & Hin).
  destruct (source_extension_entry ext Hin) as (tag & Ht & _).
  destruct (table_entry ext tag Ht) as [_ Hshape].
  destruct ext as [|d [|c t]]; try discriminate.
  cbn [ext_shape] in Hshape. apply andb_prop in Hshape.
  destruct Hshape as [Hd _]. apply N.eqb_eq in Hd. subst d.
  change (fun c0 : char => mem c0 (py "- ")) with list_marker.
  rewrite drop_while_app_stop by reflexivity. split.
  - unfold is_source_line, endswith_any. apply existsb_exists.
    exists (46%N :: c :: t). split; [exact Hin|apply endswith_app].
  - pose proof (drop_while_head list_marker a) as Hh.
    destruct (drop_while list_marker a); [reflexivity|exact Hh].
Qed.

(** The language recorded for a line with a source extension. *)
Lemma source_line_language (line : str) :
  is_source_line line = true -> In (_detect_language line) source_tags.
Proof.
  intros H. destruct (source_line_decomp line H) as (a & ext & -> & Hin).
  destruct (source_extension_entry ext Hin) as (tag & Ht & Htag).
  destruct (table_entry ext tag Ht) as [Hget Hshape].
  pose proof (lower_idem_ext ext Hshape) as Hlow.
  destruct (ext_spelling ext ext Hshape Hlow) as (t & -> & Hne & Hdot & Hslash).
  destruct (dir_prefix_decomp a) as (pre & stem & -> & Hpre & Hs).
  rewrite <- app_assoc. unfold _detect_language.
  destruct stem as [|x stem].
  - cbn [app]. rewrite path_suffix_plain; try assumption; try discriminate.
    + vm_compute. tauto.
    + destruct t; [congruence|discriminate].
    + intros [E|Hin']; [discriminate|now apply Hslash].
  - rewrite path_suffix_stem; try assumption; [|discriminate].
    now rewrite Hlow, Hget.
Qed.

Lemma heuristic_files (limit : nat) (raw : str) :
  ~ has_json_block raw ->
  _parse_structure_response limit raw
  = inr (JObj [ (py "name", JStr (py "project"));
                (py "files",
                 JArr (map file_entry
                           (filter is_source_line
                                   (map strip (split nl (strip raw)))))) ]).
Proof.
  intros H. unfold _parse_structure_response, parse_structure_body.
  rewrite (search_json_block_none raw H). cbn [try_except ret].
  now rewrite scan_lines_spec.
Qed.

(** X4.  In the structure the line heuristic returns, every recorded path
    is non-empty, begins with neither a hyphen nor a space and still ends
    with a source extension. *)
Theorem heuristic_paths (limit : nat) (raw : str) :
  ~ has_json_block raw ->
  exists files,
    _parse_structure_response limit raw
    = inr (JObj [ (py "name", JStr (py "project"));
                  (py "files", JArr files) ])
    /\ Forall (fun f =>
                 exists p l,
                   f = JObj [ (py "path", JStr p); (py "language", JStr l) ]
                   /\ is_source_line p = true
                   /\ match p with
                      | [] => False
                      | c :: _ => list_marker c = false
                      end) files.
Proof.
  intros H. eexists. split; [apply (heuristic_files limit raw H)|].
  apply Forall_forall. intros f Hf. apply in_map_iff in Hf.
  destruct Hf as (line & <- & Hl). apply filter_In in Hl.
  destruct Hl as [_ Hl]. eexists. eexists. split; [reflexivity|].
  apply (source_line_path line Hl).
Qed.

(** X5.  In that structure every recorded language is one of [python],
    [javascript], [typescript], [java], [cpp], [rust], [go] and [text]. *)
Theorem heuristic_languages (limit : nat) (raw : str) :
  ~ has_json_block raw ->
  exists files,
    _parse_structure_response limit raw
    = inr (JObj [ (py "name", JStr (py "project"));
                  (py "files", JArr files) ])
    /\ Forall (fun f =>
                 exists p l,
                   f = JObj [ (py "path", JStr p); (py "language", JStr l) ]
                   /\ In l source_tags) files.
Proof.
  intros H. eexists. split; [apply (heuristic_files limit raw H)|].
  apply Forall_forall. intros f Hf. apply in_map_iff in Hf.
  destruct Hf as (line & <- & Hl). apply filter_In in Hl.
  destruct Hl as [_ Hl]. eexists. eexists. split; [reflexivity|].
  apply (source_line_language line Hl).
Qed.

Lemma drop_while_all (p : char -> bool) (s : str) :
  forallb p s = true -> drop_while p s = [].
Proof.
  induction s as [|c s IH]; [reflexivity|]. cbn [forallb drop_while].
  intros H. apply andb_prop in H. destruct H as [-> H]. now apply IH.
Qed.

(** X6.  A response made of whitespace only, the empty response among
    them, gives the structure named [project] with no file at all, not the
    default structure. *)
Theorem blank_response_has_no_files (limit : nat) (raw : str) :
  forallb isspace raw = true ->
  _parse_structure_response limit raw
  = inr (JObj [ (py "name", JStr (py "project")); (py "files", JArr []) ]).
Proof.
  intros H. rewrite heuristic_files.
  - unfold strip, lstrip_by. now rewrite (drop_while_all isspace raw H).
  - intros (pre & c & post & E). rewrite E in H.
    rewrite forallb_app in H. apply andb_prop in H. destruct H as [_ H].
    discriminate.
Qed.

Lemma blank_response_has_no_files_witness :
  _parse_structure_response 1000 (py " \n\t\n")
  = inr (JObj [ (py "name", JStr (py "project")); (py "files", JArr []) ])
  /\ _parse_structure_response 1000 (py " \n\t\n")
     <> inr default_structure.
Proof.
  rewrite (blank_response_has_no_files 1000 (py " \n\t\n") eq_refl).
  split; [reflexivity|discriminate].
Defined.

(* ================================================================== *)
(** * More on the syntax repair *)
(* ================================================================== *)

Lemma split_no_sep (sep : char) (s : str) :
  ~ In sep s -> split sep s = [s].
Proof.
  induction s as [|c s IH]; intros H; [reflexivity|]. cbn [split].
  destruct (N.eqb_spec c sep) as [->|_]; [exfalso; apply H; now left|].
  rewrite IH by (intros Hin; apply H; now right). reflexivity.
Qed.

Lemma split_app_sep (sep : char) (l r : str) :
  ~ In sep l -> split sep (l ++ sep :: r) = l :: split sep r.
Proof.
  induction l as [|c l IH]; intros H; cbn [app split].
  - now rewrite N.eqb_refl.
  - destruct (N.eqb_spec c sep) as [->|_]; [exfalso; apply H; now left|].
    rewrite IH by (intros Hin; apply H; now right). reflexivity.
Qed.

(** Splitting joined lines gives the lines back. *)
Lemma split_join (sep : char) (ls : list str) :
  ls <> [] -> (forall l, In l ls -> ~ In sep l) ->
  split sep (join [sep] ls) = ls.
Proof.
  induction ls as [|l ls IH]; intros Hne H; [congruence|].
  destruct ls as [|l2 ls].
  - cbn [join]. apply split_no_sep, H. now left.
  - rewrite join_cons by discriminate. cbn [app].
    rewrite split_app_sep by (apply H; now left).
    f_equal. apply IH; [discriminate|]. intros x Hx. apply H. now right.
Qed.

Lemma split_pieces_no_sep (sep : char) (s l : str) :
  In l (split sep s) -> ~ In sep l.
Proof.
  revert l. induction s as [|c s IH]; intros l; cbn [split].
  - intros [<-|[]]. easy.
  - destruct (N.eqb_spec c sep) as [->|Hc].
    + intros [<-|H]; [easy|now apply IH].
    + destruct (split_cons sep s) as (l0 & ls & E). rewrite E in *.
      intros [<-|H].
      * intros [Hin|Hin]; [congruence|]. apply (IH l0); [now left|exact Hin].
      * apply IH. now right.
Qed.

Lemma rstrip_no_newline (l : str) : ~ In nl l -> ~ In nl (rstrip l).
Proof.
  intros H Hin. apply H. destruct (rstrip_part l) as [b E]. rewrite E.
  apply in_or_app. now left.
Qed.

Lemma fix_line_no_newline (lines : list str) (i : nat) (l : str) :
  ~ In nl l -> ~ In nl (fix_line lines i l).
Proof.
  intros H. apply rstrip_no_newline in H. unfold fix_line.
  destruct (_ && _ && _); [|exact H].
  destruct (_ && _); [|exact H].
  intros Hin. apply in_app_or in Hin. destruct Hin as [Hin|Hin]; [|easy].
  vm_compute in Hin. intuition discriminate.
Qed.

Lemma enumerate_length (A : Type) (l : list A) :
  length (enumerate l) = length l.
Proof.
  unfold enumerate. rewrite length_combine, length_seq. apply Nat.min_id.
Qed.

Lemma fixed_lines_length (lines : list str) :
  length (fixed_lines lines) = length lines.
Proof. unfold fixed_lines. now rewrite length_map, enumerate_length. Qed.

Lemma in_enumerate_snd (A : Type) (l : list A) (i : nat) (a : A) :
  In (i, a) (enumerate l) -> In a l.
Proof. intros H. now apply in_combine_r in H. Qed.

(** The lines of the repaired text are the repaired lines. *)
Lemma fix_python_syntax_lines (code msg : str) :
  split nl (_fix_python_syntax code msg) = fixed_lines (split nl code).
Proof.
  unfold _fix_python_syntax. fold (fixed_lines (split nl code)).
  apply (split_join nl).
  - intros E. apply (f_equal (@length str)) in E.
    rewrite fixed_lines_length in E.
    destruct (split_cons nl code) as (l & ls & E'). rewrite E' in E.
    discriminate.
  - intros l Hl. unfold fixed_lines in Hl. apply in_map_iff in Hl.
    destruct Hl as ([i x] & <- & Hx). apply fix_line_no_newline.
    apply in_enumerate_snd in Hx. now apply (split_pieces_no_sep nl code).
Qed.

(** X7.  The repair keeps the number of lines: it joins no two lines and
    breaks none. *)
Theorem fix_python_syntax_line_count (code msg : str) :
  length (split nl (_fix_python_syntax code msg)) = length (split nl code).
Proof. rewrite fix_python_syntax_lines. apply fixed_lines_length. Qed.

Lemma rstrip_app_keep (a r : str) :
  r <> [] -> rstrip r = r -> rstrip (a ++ r) = a ++ r.
Proof.
  unfold rstrip, rstrip_by. intros Hne Hr.
  assert (drop_while isspace (rev r) = rev r) as E.
  { rewrite <- (rev_involutive (drop_while isspace (rev r))), Hr.
    reflexivity. }
  rewrite rev_app_distr.
  destruct (rev r) as [|c t] eqn:Er.
  - apply (f_equal (@rev char)) in Er. rewrite rev_involutive in Er.
    cbn in Er. congruence.
  - pose proof (drop_while_head isspace (c :: t)) as Hh. rewrite E in Hh.
    cbn [app drop_while]. rewrite Hh.
    change (c :: t ++ rev a) with ((c :: t) ++ rev a).
    rewrite <- Er, <- rev_app_distr. apply rev_involutive.
Qed.

Lemma rstrip_idem (l : str) : rstrip (rstrip l) = rstrip l.
Proof. apply rstrip_by_idem. Qed.

(** A repaired line has no trailing whitespace. *)
Lemma fix_line_trimmed (lines : list str) (i : nat) (l : str) :
  rstrip (fix_line lines i l) = fix_line lines i l.
Proof.
  unfold fix_line.
  destruct (negb (str_eqb (rstrip l) [])) eqn:Hne; cbn [andb];
    [|apply rstrip_idem].
  destruct (_ && _); [|apply rstrip_idem].
  destruct (_ && _); [|apply rstrip_idem].
  apply rstrip_app_keep; [|apply rstrip_idem].
  intros E. rewrite E in Hne. discriminate.
Qed.

(** X8.  No line of the repaired text ends with whitespace. *)
Theorem fix_python_syntax_lines_trimmed (code msg l : str) :
  In l (split nl (_fix_python_syntax code msg)) -> rstrip l = l.
Proof.
  rewrite fix_python_syntax_lines. unfold fixed_lines. intros H.
  apply in_map_iff in H. destruct H as ([i x] & <- & _).
  apply fix_line_trimmed.
Qed.

Lemma fixed_lines_nth (lines : list str) (i : nat) :
  i < length lines ->
  nth i (fixed_lines lines) [] = fix_line lines i (nth i lines []).
Proof.
  intros Hi. unfold fixed_lines, enumerate.
  change (@nil char)
    with ((fun il => fix_line lines (fst il) (snd il)) (0, @nil char)) at 1.
  rewrite map_nth, combine_nth by apply length_seq.
  rewrite seq_nth by exact Hi. reflexivity.
Qed.

Lemma endswith_app_nonempty (c : char) (a l : str) :
  l <> [] -> endswith [c] (a ++ l) = endswith [c] l.
Proof.
  intros Hne. unfold endswith, startswith. rewrite rev_app_distr.
  destruct (rev l) as [|x t] eqn:E.
  - apply (f_equal (@rev char)) in E. rewrite rev_involutive in E.
    cbn in E. congruence.
  - reflexivity.
Qed.

Lemma fix_line_trimmed_input (lines : list str) (i : nat) (l : str) :
  rstrip l = l ->
  fix_line lines i l
  = if needs_indent l
    then if (0 <? i) && endswith (py ":") (nth (i - 1) lines [])
         then py "    " ++ l else l
    else l.
Proof. intros H. unfold fix_line, needs_indent. now rewrite H. Qed.

Lemma needs_indent_nonempty (l : str) : needs_indent l = true -> l <> [].
Proof. intros H ->. discriminate. Qed.

(** Indenting a line does not change the way it ends. *)
Lemma fix_line_endswith (lines : list str) (i : nat) (l : str) :
  rstrip l = l ->
  endswith (py ":") (fix_line lines i l) = endswith (py ":") l.
Proof.
  intros H. rewrite fix_line_trimmed_input by exact H.
  destruct (needs_indent l) eqn:E; [|reflexivity].
  destruct (_ && _); [|reflexivity].
  apply (endswith_app_nonempty 58%N). now apply needs_indent_nonempty.
Qed.

Lemma fix_line_again (lines : list str) (i : nat) (l : str) :
  rstrip l = l ->
  (0 < i -> rstrip (nth (i - 1) lines []) = nth (i - 1) lines []) ->
  i < length lines ->
  fix_line (fixed_lines lines) i (fix_line lines i l) = fix_line lines i l.
Proof.
  intros Hl Hprev Hi.
  rewrite (fix_line_trimmed_input lines i l Hl).
  destruct (needs_indent l) eqn:En.
  - destruct ((0 <? i) && endswith (py ":") (nth (i - 1) lines [])) eqn:Ec.
    + rewrite fix_line_trimmed_input; [reflexivity|].
      apply rstrip_app_keep; [now apply needs_indent_nonempty|exact Hl].
    + rewrite fix_line_trimmed_input by exact Hl. rewrite En.
      destruct i as [|i]; [reflexivity|].
      cbn [Nat.ltb Nat.leb andb] in Ec |- *.
      rewrite fixed_lines_nth by lia.
      rewrite fix_line_endswith by (apply Hprev; lia).
      now rewrite Ec.
  - rewrite fix_line_trimmed_input by exact Hl. now rewrite En.
Qed.

Lemma fixed_lines_idem (lines : list str) :
  (forall l, In l lines -> rstrip l = l) ->
  fixed_lines (fixed_lines lines) = fixed_lines lines.
Proof.
  intros H. apply (nth_ext _ _ [] []).
  - now rewrite !fixed_lines_length.
  - intros i Hi. rewrite !fixed_lines_length in Hi.
    rewrite (fixed_lines_nth (fixed_lines lines))
      by now rewrite fixed_lines_length.
    rewrite !(fixed_lines_nth lines) by exact Hi.
    apply fix_line_again; [| |exact Hi].
    + apply H, nth_In, Hi.
    + intros Hpos. apply H, nth_In. lia.
Qed.

Lemma fix_python_syntax_again (code m m' : str) :
  (forall l, In l (split nl code) -> rstrip l = l) ->
  _fix_python_syntax (_fix_python_syntax code m) m'
  = _fix_python_syntax code m.
Proof.
  intros H. unfold _fix_python_syntax at 1.
  fold (fixed_lines (split nl (_fix_python_syntax code m))).
  rewrite fix_python_syntax_lines, fixed_lines_idem by exact H.
  reflexivity.
Qed.

(** X9.  The repair settles after two passes: on a text whose lines have
    no trailing whitespace a second pass changes nothing, and on every
    text a third pass changes nothing after the second (a second pass may
    still change what the first one left). *)
Theorem fix_python_syntax_settles :
  (forall code m m',
      (forall l, In l (split nl code) -> rstrip l = l) ->
      _fix_python_syntax (_fix_python_syntax code m) m'
      = _fix_python_syntax code m)
  /\ (forall code m1 m2 m3,
         _fix_python_syntax
           (_fix_python_syntax (_fix_python_syntax code m1) m2) m3
         = _fix_python_syntax (_fix_python_syntax code m1) m2).
Proof.
  split; [exact fix_python_syntax_again|].
  intros code m1 m2 m3. apply fix_python_syntax_again.
  intros l Hl. rewrite fix_python_syntax_lines in Hl.
  unfold fixed_lines in Hl. apply in_map_iff in Hl.
  destruct Hl as ([i x] & <- & _). apply fix_line_trimmed.
Qed.

(* ================================================================== *)
(** * More on the code cleaner *)
(* ================================================================== *)

(** X10.  Whatever the cleaner returns is trimmed: it neither begins nor
    ends with whitespace. *)
Theorem clean_output_trimmed (ast_parse : str -> parse_outcome)
  (code language out : str) :
  _clean_generated_code ast_parse code language = inr out ->
  strip out = out.
Proof.
  unfold _clean_generated_code.
  destruct (str_eqb language (py "python")).
  - destruct (ast_parse _) as [|m|e]; cbn [bind ret raise];
      try discriminate; intros [= <-]; apply strip_idem.
  - cbn [bind ret]. intros [= <-]. apply strip_idem.
Qed.

Lemma clean_output_trimmed_witness :
  strip (py "x = 1\n  y") = py "x = 1\n  y".
Proof.
  apply (clean_output_trimmed (fun _ => Parsed)
           (py "```python\n  x = 1\n  y\n```\n") (py "python")).
  vm_compute. reflexivity.
Defined.

(** X12.  The two fence substitutions are idempotent, and they change
    nothing in a text without three backticks in a row. *)
Theorem remove_fences_idempotent (code : str) :
  remove_fences (remove_fences code) = remove_fences code
  /\ (contains (py "```") code = false -> remove_fences code = code).
Proof.
  split; [|apply remove_fences_clean].
  apply remove_fences_clean, remove_fences_absent.
Qed.

(** ** A fenced block is unwrapped *)

Lemma star_greedy_reaches (p : char -> bool) (k : cont) (a : str)
  (c : char) (b : str) (g : groups) (m : groups * str) :
  forallb p a = true -> p c = false ->
  forall prev,
    k (after prev a) (c :: b) g = Some m ->
    star true p k prev (a ++ c :: b) g = Some m.
Proof.
  intros Hp Hc. induction a as [|x a IH]; intros prev Hk.
  - cbn [app star]. now rewrite Hc.
  - cbn [forallb] in Hp. apply andb_prop in Hp. destruct Hp as [Hx Ha].
    cbn [app star]. rewrite Hx. rewrite (IH Ha (Some x)); [reflexivity|exact Hk].
Qed.

Lemma match_at_fence_tag (tag rest : str) (prev : option char) :
  forallb az tag = true ->
  match_at fence_open_re prev (py "```" ++ tag ++ nl :: rest)
  = Some ([], rest).
Proof.
  intros Ht. unfold match_at, fence_open_re. cbn [cat run].
  unfold lits. rewrite run_lits_by, prefix_by_refl, skipn_length_app.
  apply star_greedy_reaches; [exact Ht|reflexivity|].
  cbn [run]. unfold one. now rewrite N.eqb_refl.
Qed.

Lemma prefix_fence_body (body rest : str) (c : char) :
  contains (py "```") (c :: body) = false ->
  prefix_by N.eqb (py "```") (c :: body ++ nl :: rest) = false.
Proof.
  intros H. apply occurs_by_cons_false in H. destruct H as [H _].
  destruct (prefix_by N.eqb (py "```") (c :: body ++ nl :: rest)) eqn:E;
    [|reflexivity].
  destruct (prefix_by_app_cases (py "```") (c :: body) nl rest E) as [H'|H'];
    [congruence|].
  vm_compute in H'. intuition discriminate.
Qed.

(** Between the opening marker and the closing one nothing matches. *)
Lemma sub_fence_body (body : str) (prev : option char) :
  contains (py "```") body = false ->
  sub_from fence_open_re 0 prev (body ++ py "\n```") = body ++ py "\n```".
Proof.
  revert prev. induction body as [|c body IH]; intros prev H.
  - reflexivity.
  - cbn [app]. rewrite sub_from_no_match.
    + f_equal. apply IH. now apply occurs_by_cons_false in H.
    + apply match_at_fence_open. now apply prefix_fence_body.
Qed.

Lemma replace_fence_body (body : str) :
  contains (py "```") body = false ->
  replace (py "```") (py "") (body ++ py "\n```") = body ++ py "\n".
Proof.
  intros H. induction body as [|c body IH]; [reflexivity|].
  cbn [app]. rewrite replace_off_occurrence.
  - f_equal. apply IH. now apply occurs_by_cons_false in H.
  - now apply prefix_fence_body.
Qed.

Lemma prefix_by_app_cases_by (eq : char -> char -> bool) (l a : str)
  (c : char) (b : str) :
  prefix_by eq l (a ++ c :: b) = true ->
  prefix_by eq l a = true \/ existsb (fun pc => eq pc c) l = true.
Proof.
  revert a. induction l as [|x l IH]; intros a H; [now left|].
  destruct a as [|y a].
  - cbn [app prefix_by] in H. apply andb_prop in H. destruct H as [H _].
    right. cbn [existsb]. now rewrite H.
  - cbn [app prefix_by] in H |- *. apply andb_prop in H. destruct H as [-> H].
    destruct (IH a H) as [H'|H']; [now left|right].
    cbn [existsb]. rewrite H'. apply orb_true_r.
Qed.

(** A marker that matches no newline is not completed by one. *)
Lemma occurs_by_snoc_newline (eq : char -> char -> bool) (l body : str) :
  l <> [] -> existsb (fun pc => eq pc nl) l = false ->
  occurs_by eq l body = false -> occurs_by eq l (body ++ [nl]) = false.
Proof.
  intros Hne Hnl. induction body as [|c body IH]; intros H.
  - cbn [app occurs_by]. destruct l as [|x l]; [congruence|].
    cbn [existsb] in Hnl. apply orb_false_elim in Hnl. destruct Hnl as [Hx _].
    cbn [prefix_by]. now rewrite Hx.
  - apply occurs_by_cons_false in H. destruct H as [H1 H2].
    cbn [app occurs_by]. rewrite (IH H2), orb_false_r.
    destruct (prefix_by eq l (c :: body ++ [nl])) eqn:E; [|reflexivity].
    destruct (prefix_by_app_cases_by eq l (c :: body) nl [] E) as [H'|H'];
      congruence.
Qed.

(** X13.  A fenced block is unwrapped: for a text made of an opening
    marker with a lowercase tag, a body without triple backtick and without
    echo marker, and a closing marker on its own line, the cleaner returns
    the trimmed body (for the tag [python], when the parser accepts the
    body). *)
Theorem clean_unwraps_fenced_block (ast_parse : str -> parse_outcome)
  (tag body language : str) :
  forallb az tag = true ->
  contains (py "```") body = false ->
  occurs_by ieq hash_marker body = false ->
  occurs_by ieq slash_marker body = false ->
  (language = py "python" -> ast_parse (body ++ py "\n") = Parsed) ->
  _clean_generated_code ast_parse
    (py "```" ++ tag ++ py "\n" ++ body ++ py "\n```") language
  = inr (strip body).
Proof.
  intros Htag Hb Hh Hs Hp.
  assert (remove_fences (py "```" ++ tag ++ py "\n" ++ body ++ py "\n```")
          = body ++ py "\n") as Ef.
  { unfold remove_fences, sub_empty.
    replace (py "```" ++ tag ++ py "\n" ++ body ++ py "\n```")
      with (96%N :: (96%N :: 96%N :: tag ++ [nl]) ++ (body ++ py "\n```"))
      by (change (py "```") with [96; 96; 96]%N; change (py "\n") with [nl];
          cbn [app]; now rewrite <- app_assoc).
    rewrite (sub_from_match _ None 96%N _ _ []).
    - rewrite sub_fence_body by exact Hb. now apply replace_fence_body.
    - cbn [app]. rewrite <- app_assoc.
      apply (match_at_fence_tag tag (body ++ py "\n```") None Htag). }
  assert (remove_echo (body ++ py "\n") = body ++ py "\n") as Ee.
  { apply remove_echo_clean;
      apply occurs_by_snoc_newline; try assumption; try discriminate;
      reflexivity. }
  unfold _clean_generated_code. rewrite Ef, Ee.
  destruct (str_eqb language (py "python")) eqn:El.
  - apply str_eqb_eq in El. rewrite (Hp El). cbn [bind ret].
    change (py "\n") with [nl].
    now rewrite (strip_snoc_space body nl eq_refl).
  - cbn [bind ret]. change (py "\n") with [nl].
    now rewrite (strip_snoc_space body nl eq_refl).
Qed.

Lemma clean_unwraps_fenced_block_witness :
  _clean_generated_code (fun _ => Parsed)
    (py "```python\nimport os\nprint(os.name)\n```") (py "python")
  = inr (py "import os\nprint(os.name)").
Proof.
  apply (clean_unwraps_fenced_block (fun _ => Parsed) (py "python")
           (py "import os\nprint(os.name)") (py "python"));
    try reflexivity.
Defined.

(* ================================================================== *)
(** * More on the dependency extractor *)
(* ================================================================== *)

Lemma first_segment_start (c : char) (dep : str) :
  startswith [c] dep = false ->
  startswith [c] (hd [] (split (ch "/") dep)) = false.
Proof.
  destruct dep as [|x dep]; [easy|]. cbn [split].
  destruct (x =? ch "/")%N; [easy|].
  destruct (split_cons (ch "/") dep) as (l & ls & ->). easy.
Qed.

Lemma js_step_ok (deps : list str) (m : groups) :
  js_deps_ok deps -> js_deps_ok (js_step deps m).
Proof.
  intros H. unfold js_step.
  destruct (existsb _ deps); cbn [negb andb]; [exact H|].
  destruct (startswith (py ".") (group1 m)) eqn:E; cbn [negb]; [exact H|].
  apply Forall_app. split; [exact H|]. constructor; [|constructor]. split.
  - now apply (first_segment_start 46%N).
  - apply split_hd_no_sep.
Qed.

(** X14.  The JavaScript branch never records a name that starts with a
    dot (a relative import) nor a name that holds a slash. *)
Theorem javascript_dependencies_not_relative (code : str) :
  Forall (fun d => startswith (py ".") d = false /\ ~ In (ch "/") d)
         (_extract_dependencies code (py "javascript")).
Proof.
  unfold _extract_dependencies.
  replace (str_eqb (py "javascript") (py "python")) with false
    by (vm_compute; reflexivity).
  replace (str_eqb (py "javascript") (py "javascript")) with true
    by (vm_compute; reflexivity).
  apply (fold_left_invariant _ _ _ js_deps_ok); [|constructor].
  intros deps pattern Hd.
  now apply (fold_left_invariant _ _ js_step js_deps_ok js_step_ok).
Qed.

(* ================================================================== *)
(** * [generate_single_file] *)
(* ================================================================== *)

(** X15.  When [generate_single_file] returns, the file has the name it
    was asked for, a language of the closed set, a trimmed content, and
    the dependencies extracted from that content; for a language other
    than [python] and [javascript] it has no dependencies, whatever the
    generated code imports. *)
Theorem generate_single_file_result
  (generate : str -> result str)
  (get_single_file_prompt : str -> str -> str -> str)
  (ast_parse : str -> parse_outcome)
  (requirements filename : str) (f : Assembler.CodeFile) :
  Assembler.generate_single_file generate get_single_file_prompt ast_parse
    requirements filename = inr f ->
  Assembler.filename f = filename
  /\ Assembler.language f = _detect_language filename
  /\ In (Assembler.language f) language_tags
  /\ strip (Assembler.content f) = Assembler.content f
  /\ Assembler.dependencies f
     = _extract_dependencies (Assembler.content f) (Assembler.language f)
  /\ (Assembler.language f <> py "python" ->
      Assembler.language f <> py "javascript" ->
      Assembler.dependencies f = []).
Proof.
  unfold Assembler.generate_single_file.
  destruct (generate _) as [e|raw]; [discriminate|]. cbn [bind].
  destruct (_clean_generated_code ast_parse raw (_detect_language filename))
    as [e|cleaned] eqn:Ec; [discriminate|].
  cbn [bind ret]. intros [= <-]. cbn.
  repeat split.
  - apply detect_language_tag.
  - unfold _clean_generated_code in Ec.
    destruct (str_eqb _ _); [destruct (ast_parse _)|];
      cbn [bind ret raise] in Ec; try discriminate;
      injection Ec as <-; apply strip_idem.
  - intros H1 H2. unfold _extract_dependencies.
    destruct (str_eqb _ (py "python")) eqn:E1;
      [apply str_eqb_eq in E1; contradiction|].
    destruct (str_eqb _ (py "javascript")) eqn:E2;
      [apply str_eqb_eq in E2; contradiction|reflexivity].
Qed.

Lemma generate_single_file_result_witness :
  Assembler.generate_single_file
    (fun _ => inr (py "```ts\nimport x from 'y'\n```"))
    (fun r f l => r) (fun _ => Parsed) (py "a module") (py "src/m.ts")
  = inr {| Assembler.filename := py "src/m.ts";
           Assembler.content := py "import x from 'y'";
           Assembler.language := py "typescript";
           Assembler.dependencies := [] |}.
Proof.
  assert (exists f,
             Assembler.generate_single_file
               (fun _ => inr (py "```ts\nimport x from 'y'\n```"))
               (fun r f l => r) (fun _ => Parsed) (py "a module")
               (py "src/m.ts") = inr f) as [f E]
    by (eexists; vm_compute; reflexivity).
  destruct (generate_single_file_result _ _ _ _ _ f E)
    as (H1 & H2 & _ & _ & _ & H6).
  rewrite E. f_equal. vm_compute in E. injection E as <-. reflexivity.
Defined.

(* ================================================================== *)
(** * The stopping criterion *)
(* ================================================================== *)

Lemma ids_eqb_eq (a b : list Z) : Model.ids_eqb a b = true <-> a = b.
Proof.
  unfold Model.ids_eqb. destruct (list_eq_dec Z.eq_dec a b); split;
    congruence.
Qed.

(** What [row[-n:]] is equal to a list of length [n]. *)
Lemma slice_last_eq (stop_id row : list Z) :
  Model.slice_last (length stop_id) row = stop_id
  <-> (stop_id <> [] /\ exists pre, row = pre ++ stop_id)
      \/ (stop_id = [] /\ row = []).
Proof.
  unfold Model.slice_last. destruct stop_id as [|z s].
  - cbn [length Nat.eqb]. split.
    + intros ->. now right.
    + intros [[H _]|[_ ->]]; [congruence|reflexivity].
  - cbn [length Nat.eqb]. split.
    + intros H. left. split; [discriminate|].
      exists (firstn (length row - S (length s)) row).
      transitivity (firstn (length row - S (length s)) row
                    ++ skipn (length row - S (length s)) row);
        [symmetry; apply firstn_skipn|now rewrite H].
    + intros [[_ [pre ->]]|[H _]]; [|discriminate].
      rewrite length_app. cbn [length].
      replace (length pre + S (length s) - S (length s)) with (length pre)
        by lia.
      apply skipn_length_app.
Qed.

(** X17.  The stopping criterion answers [True] exactly when the generated
    row ends with one of the stop sequences; an empty stop sequence only
    matches an empty row, so it never stops a generation under way. *)
Theorem stop_criterion_suffix (stop_ids : list (list Z)) (row : list Z) :
  Model.StopSequenceCriteria_call stop_ids row = true
  <-> exists stop_id,
        In stop_id stop_ids
        /\ ((stop_id <> [] /\ exists pre, row = pre ++ stop_id)
            \/ (stop_id = [] /\ row = [])).
Proof.
  induction stop_ids as [|s rest IH]; cbn [Model.StopSequenceCriteria_call].
  - split; [discriminate|]. intros (x & [] & _).
  - destruct (Model.ids_eqb (Model.slice_last (length s) row) s) eqn:E.
    + apply ids_eqb_eq, slice_last_eq in E. split; [|reflexivity].
      intros _. exists s. split; [now left|exact E].
    + rewrite IH. split.
      * intros (x & Hx & H). exists x. split; [now right|exact H].
      * intros (x & [<-|Hx] & H); [|now exists x].
        apply slice_last_eq, ids_eqb_eq in H. congruence.
Qed.

(* ================================================================== *)
(** * Import statements, rendered and read back *)
(* ================================================================== *)

Lemma finditer_from_skip (r : regex) (a b : str) (prev : option char) :
  finditer_from r (length a) prev (a ++ b) = finditer_from r 0 (after prev a) b
  \/ (b = [] /\ a <> []).
Proof.
  revert prev. induction a as [|x a IH]; intros prev; [now left|].
  cbn [length app finditer_from].
  destruct (IH (Some x)) as [E|[-> Ha]]; [now left|].
  right. split; [reflexivity|discriminate].
Qed.

Lemma finditer_from_skip_cons (r : regex) (a : str) (c : char) (b : str)
  (prev : option char) :
  finditer_from r (length a) prev (a ++ c :: b)
  = finditer_from r 0 (after prev a) (c :: b).
Proof.
  destruct (finditer_from_skip r a (c :: b) prev) as [E|[E _]];
    [exact E|discriminate].
Qed.

(** Inside a line the import pattern cannot start. *)
Lemma match_at_import_inside (x : char) (s : str) :
  x <> nl -> match_at import_pattern (Some x) s = None.
Proof.
  intros Hx. unfold match_at, import_pattern. cbn [cat run].
  destruct (N.eqb_spec x nl); [contradiction|reflexivity].
Qed.

Lemma finditer_import_rest_of_line (a rest : str) (x : char) :
  x <> nl -> forallb dot a = true ->
  finditer_from import_pattern 0 (Some x) (a ++ nl :: rest)
  = finditer_from import_pattern 0 (Some nl) rest.
Proof.
  revert x. induction a as [|c a IH]; intros x Hx Ha.
  - cbn [app finditer_from]. now rewrite match_at_import_inside.
  - cbn [forallb] in Ha. apply andb_prop in Ha. destruct Ha as [Hc Ha].
    cbn [app finditer_from]. rewrite match_at_import_inside by exact Hx.
    apply IH; [|exact Ha]. unfold dot in Hc.
    destruct (N.eqb_spec c nl); [discriminate|assumption].
Qed.

Lemma star_first_fail (greedy : bool) (p : char -> bool) (k : cont)
  (prev : option char) (c : char) (s : str) (g : groups) :
  p c = false -> star greedy p k prev (c :: s) g = k prev (c :: s) g.
Proof. intros H. cbn [star]. now rewrite H. Qed.

Lemma after_snoc (prev : option char) (a : str) (x : char) :
  after prev (a ++ [x]) = Some x.
Proof. unfold after. now rewrite fold_left_app. Qed.

Lemma nonspace_not_newline (x : char) : nonspace x = true -> x <> nl.
Proof. intros H ->. discriminate. Qed.

(** The group of the import pattern reads the whole module. *)
Lemma import_group (m : str) (c0 : char) (r0 : str) (prev : option char) :
  m <> [] -> forallb nonspace m = true -> isspace c0 = true ->
  run (Group (plus true nonspace)) final prev (m ++ c0 :: r0) []
  = Some ([m], c0 :: r0).
Proof.
  intros Hne Hm Hc. destruct m as [|c m]; [congruence|].
  cbn [forallb] in Hm. apply andb_prop in Hm. destruct Hm as [Hc1 Hm].
  unfold plus. cbn [run app]. rewrite Hc1.
  apply star_greedy_reaches; [exact Hm|unfold nonspace; now rewrite Hc|].
  cbn [app]. unfold final. do 3 f_equal.
  change (c :: m ++ c0 :: r0) with ((c :: m) ++ c0 :: r0).
  rewrite length_app_sub. apply firstn_length_app.
Qed.

Lemma match_at_import_unfold (prev : option char) (s : str) :
  match_at import_pattern prev s
  = run Bol
      (star true space
         (run (Alt (lits (py "import")) (lits (py "from")))
              (run (cat [plus true space; Group (plus true nonspace)])
                   final)))
      prev s [].
Proof. reflexivity. Qed.

Lemma run_bol_line_start (k : cont) (prev : option char) (s : str)
  (g : groups) :
  line_start prev -> run Bol k prev s g = k prev s g.
Proof. intros [->| ->]; reflexivity. Qed.

Lemma import_keyword_cons (b : bool) :
  exists c kw, import_keyword b = c :: kw /\ space c = false.
Proof. destruct b; eexists; eexists; split; reflexivity. Qed.

(** Either keyword is read by the alternative. *)
Lemma import_alt (b : bool) (k : cont) (prev : option char) (x : str)
  (g : groups) :
  run (Alt (lits (py "import")) (lits (py "from"))) k prev
      (import_keyword b ++ x) g
  = k (after prev (import_keyword b)) x g.
Proof.
  cbn [run]. unfold lits. rewrite !run_lits_by. destruct b; cbn [import_keyword].
  - change (prefix_by N.eqb (py "import") (py "from" ++ x)) with false.
    cbv iota. now rewrite prefix_by_refl, skipn_length_app, firstn_length_app.
  - rewrite prefix_by_refl, skipn_length_app, firstn_length_app.
    now destruct (k _ x g).
Qed.

Lemma import_tail (m : str) (c0 : char) (r0 : str) (prev : option char) :
  m <> [] -> forallb nonspace m = true -> isspace c0 = true ->
  run (cat [plus true space; Group (plus true nonspace)]) final prev
      (32%N :: m ++ c0 :: r0) []
  = Some ([m], c0 :: r0).
Proof.
  intros Hne Hm Hc.
  change (star true space (run (Group (plus true nonspace)) final)
               (Some 32%N) (m ++ c0 :: r0) []
          = Some ([m], c0 :: r0)).
  pose proof (import_group m c0 r0 (Some 32%N) Hne Hm Hc) as E.
  destruct m as [|c m']; [congruence|].
  cbn [forallb] in Hm. apply andb_prop in Hm. destruct Hm as [Hc1 _].
  cbn [app] in E |- *. rewrite star_first_fail; [exact E|].
  unfold space. unfold nonspace in Hc1. now destruct (isspace c).
Qed.

Lemma match_at_import_line (i : import_line) (rest : str)
  (prev : option char) :
  line_start prev -> import_line_ok i = true ->
  match_at import_pattern prev (render_import i ++ rest)
  = Some ([module_name i], line_rest i ++ nl :: rest).
Proof.
  intros Hprev Hok. unfold import_line_ok in Hok.
  apply andb_prop in Hok. destruct Hok as [Hok Hdot].
  apply andb_prop in Hok. destruct Hok as [Hok Hrest].
  apply andb_prop in Hok. destruct Hok as [Hne Hm].
  assert (module_name i <> []) as Hne'
    by (intros E; rewrite E in Hne; discriminate).
  assert (exists c0 r0, line_rest i ++ nl :: rest = c0 :: r0
                        /\ isspace c0 = true) as (c0 & r0 & Er & Hc0).
  { destruct (line_rest i) as [|c t]; [now exists nl, rest|].
    now exists c, (t ++ nl :: rest). }
  assert (render_import i ++ rest
          = import_keyword (is_from i)
            ++ 32%N :: module_name i ++ c0 :: r0) as Es.
  { unfold render_import. rewrite <- Er.
    change (py " ") with [32%N]. change (py "\n") with [nl].
    now rewrite <- !app_assoc. }
  rewrite Es, Er, match_at_import_unfold, run_bol_line_start by exact Hprev.
  destruct (import_keyword_cons (is_from i)) as (c & kw & Ek & Hc).
  rewrite Ek at 1. cbn [app]. rewrite star_first_fail by exact Hc.
  change (c :: kw ++ ?x) with ((c :: kw) ++ x). rewrite <- Ek.
  rewrite import_alt. now apply import_tail.
Qed.

Lemma finditer_import_line (i : import_line) (rest : str)
  (prev : option char) :
  line_start prev -> import_line_ok i = true ->
  finditer_from import_pattern 0 prev (render_import i ++ rest)
  = [module_name i] :: finditer_from import_pattern 0 (Some nl) rest.
Proof.
  intros Hprev Hok.
  pose proof (match_at_import_line i rest prev Hprev Hok) as E.
  unfold import_line_ok in Hok.
  apply andb_prop in Hok. destruct Hok as [Hok Hdot].
  apply andb_prop in Hok. destruct Hok as [Hok Hrest].
  apply andb_prop in Hok. destruct Hok as [Hne Hm].
  destruct (exists_last (l := module_name i)) as (m0 & x & Em).
  { intros E'. rewrite E' in Hne. discriminate. }
  assert (nonspace x = true) as Hx.
  { rewrite Em, forallb_app in Hm. apply andb_prop in Hm.
    destruct Hm as [_ Hm]. cbn in Hm. now rewrite andb_true_r in Hm. }
  destruct (import_keyword_cons (is_from i)) as (c & kw & Ek & _).
  assert (render_import i ++ rest
          = c :: (kw ++ 32%N :: m0 ++ [x]) ++ (line_rest i ++ nl :: rest))
    as Es.
  { unfold render_import. rewrite Ek, Em.
    change (py " ") with [32%N]. change (py "\n") with [nl].
    repeat (cbn [app]; rewrite <- ?app_assoc). reflexivity. }
  rewrite Es in E |- *. cbn [finditer_from]. rewrite E. f_equal.
  replace (length (c :: (kw ++ 32%N :: m0 ++ [x])
                        ++ line_rest i ++ nl :: rest)
           - length (line_rest i ++ nl :: rest) - 1)
    with (length (kw ++ 32%N :: m0 ++ [x]))
    by (cbn [length]; rewrite (length_app (kw ++ _)); lia).
  destruct (line_rest i) as [|t0 t] eqn:Et.
  - cbn [app]. rewrite finditer_from_skip_cons.
    replace (kw ++ 32%N :: m0 ++ [x]) with ((kw ++ 32%N :: m0) ++ [x])
      by now rewrite <- app_assoc.
    rewrite after_snoc.
    apply (finditer_import_rest_of_line [] rest x);
      [now apply nonspace_not_newline|reflexivity].
  - cbn [app]. rewrite finditer_from_skip_cons.
    replace (kw ++ 32%N :: m0 ++ [x]) with ((kw ++ 32%N :: m0) ++ [x])
      by now rewrite <- app_assoc.
    rewrite after_snoc.
    apply (finditer_import_rest_of_line (t0 :: t) rest x);
      [now apply nonspace_not_newline|exact Hdot].
Qed.

Lemma finditer_import_lines (ls : list import_line) (prev : option char) :
  line_start prev -> forallb import_line_ok ls = true ->
  finditer_from import_pattern 0 prev (concat (map render_import ls))
  = map (fun i => [module_name i]) ls.
Proof.
  revert prev. induction ls as [|i ls IH]; intros prev Hprev Hok.
  - destruct Hprev as [->| ->]; reflexivity.
  - cbn [forallb] in Hok. apply andb_prop in Hok. destruct Hok as [Hi Hls].
    cbn [map concat]. rewrite finditer_import_line by assumption.
    f_equal. apply IH; [now right|exact Hls].
Qed.

(** X18.  Import statements are read back: for a text made of lines that
    each hold one [import m] or [from m ...] statement, the Python branch
    returns the first dot-separated segments of the modules, in the order
    of the lines, without those starting with an underscore and without
    repetition. *)
Theorem python_imports_read_back (ls : list import_line) :
  forallb import_line_ok ls = true ->
  _extract_dependencies (concat (map render_import ls)) (py "python")
  = first_occurrences []
      (filter public_name
              (map (fun i => hd [] (split (ch ".") (module_name i))) ls)).
Proof.
  intros Hok. unfold _extract_dependencies.
  replace (str_eqb (py "python") (py "python")) with true
    by (vm_compute; reflexivity).
  unfold finditer. rewrite finditer_import_lines; [|now left|exact Hok].
  rewrite python_fold, map_map. reflexivity.
Qed.

Lemma python_imports_read_back_witness :
  _extract_dependencies
    (py "from os.path import join\nimport _thread\nimport os, sys\nimport numpy.linalg as la\n")
    (py "python")
  = [py "os"; py "os,"; py "numpy"].
Proof.
  apply (python_imports_read_back
           [ {| is_from := true; module_name := py "os.path";
                line_rest := py " import join" |};
             {| is_from := false; module_name := py "_thread";
                line_rest := py "" |};
             {| is_from := false; module_name := py "os,";
                line_rest := py " sys" |};
             {| is_from := false; module_name := py "numpy.linalg";
                line_rest := py " as la" |} ]).
  reflexivity.
Defined.

(* ================================================================== *)
(** * Echo removal, line by line *)
(* ================================================================== *)

Lemma prefix_by_before (eq : char -> char -> bool) (l a : str) (c : char)
  (b : str) :
  existsb (fun pc => eq pc c) l = false ->
  l <> [] ->
  prefix_by eq l (a ++ c :: b) = prefix_by eq l a.
Proof.
  revert a. induction l as [|x l IH]; intros a Hc Hne; [congruence|].
  cbn [existsb] in Hc. apply orb_false_elim in Hc. destruct Hc as [Hx Hl].
  destruct a as [|y a]; cbn [app prefix_by].
  - now rewrite Hx.
  - destruct l as [|x' l]; [reflexivity|].
    rewrite IH; [reflexivity|exact Hl|discriminate].
Qed.

Lemma newline_free_spec (marker : str) :
  newline_free marker = true ->
  marker <> [] /\ existsb (fun pc => ieq pc nl) marker = false.
Proof.
  unfold newline_free. intros H. apply andb_prop in H. destruct H as [H1 H2].
  split.
  - intros ->. discriminate.
  - now destruct (existsb _ marker).
Qed.

Lemma before_marker_some (marker : str) (l pre : str) :
  before_marker marker l = Some pre ->
  exists t, l = pre ++ t /\ prefix_by ieq marker t = true
            /\ starts_within_by ieq marker pre t = false.
Proof.
  revert pre. induction l as [|c l IH]; intros pre; cbn [before_marker].
  - destruct (prefix_by ieq marker []) eqn:E; [|discriminate].
    intros [= <-]. now exists [].
  - destruct (prefix_by ieq marker (c :: l)) eqn:E.
    + intros [= <-]. now exists (c :: l).
    + destruct (before_marker marker l) as [p|]; [|discriminate].
      cbn [option_map]. intros [= <-].
      destruct (IH p eq_refl) as (t & El & Ht & Hp).
      exists t. split; [now rewrite El|]. split; [exact Ht|].
      cbn [starts_within_by]. rewrite Hp, orb_false_r.
      cbn [app]. now rewrite <- El.
Qed.

Lemma before_marker_none (marker : str) (l : str) :
  before_marker marker l = None -> occurs_by ieq marker l = false.
Proof.
  induction l as [|c l IH]; cbn [before_marker occurs_by].
  - destruct (prefix_by ieq marker []); [discriminate|reflexivity].
  - destruct (prefix_by ieq marker (c :: l)); [discriminate|].
    destruct (before_marker marker l); [discriminate|].
    intros _. now apply IH.
Qed.

Lemma starts_within_by_before (eq : char -> char -> bool) (l pre t : str)
  (c : char) (b : str) :
  existsb (fun pc => eq pc c) l = false -> l <> [] ->
  starts_within_by eq l pre (t ++ c :: b) = starts_within_by eq l pre t.
Proof.
  intros Hc Hne. induction pre as [|x pre IH]; [reflexivity|].
  cbn [starts_within_by]. rewrite IH. f_equal.
  rewrite app_assoc. now apply prefix_by_before.
Qed.

Lemma prefix_by_split (eq : char -> char -> bool) (l t : str) :
  prefix_by eq l t = true ->
  exists m body, t = m ++ body /\ length m = length l
                 /\ prefix_by eq l m = true.
Proof.
  revert t. induction l as [|x l IH]; intros t H.
  - now exists [], t.
  - destruct t as [|y t]; [discriminate|].
    cbn [prefix_by] in H. apply andb_prop in H. destruct H as [Hx H].
    destruct (IH t H) as (m & body & -> & Hlen & Hm).
    exists (y :: m), body. cbn [app length prefix_by].
    now rewrite Hlen, Hx, Hm.
Qed.

(** A line that holds the marker and is followed by a newline. *)
Lemma sub_echo_cut_line (marker l pre rest : str) :
  newline_free marker = true ->
  ~ In nl l ->
  before_marker marker l = Some pre ->
  sub_empty (echo_re marker) (l ++ nl :: rest)
  = pre ++ sub_empty (echo_re marker) rest.
Proof.
  intros Hm Hl Hb. destruct (newline_free_spec marker Hm) as [Hne Hnl].
  destruct (before_marker_some marker l pre Hb) as (t & -> & Ht & Hp).
  destruct (prefix_by_split ieq marker t Ht) as (m & body & -> & Hlen & Hm').
  rewrite <- !app_assoc.
  apply sub_echo_delete; try assumption.
  - rewrite app_assoc. rewrite starts_within_by_before; assumption.
  - intros H. apply Hl. apply in_or_app. right. apply in_or_app. now right.
Qed.

(** A line that does not hold the marker. *)
Lemma sub_echo_keep_line (marker l rest : str) :
  newline_free marker = true ->
  occurs_by ieq marker l = false ->
  sub_empty (echo_re marker) (l ++ nl :: rest)
  = l ++ nl :: sub_empty (echo_re marker) rest.
Proof.
  intros Hm. destruct (newline_free_spec marker Hm) as [Hne Hnl].
  unfold sub_empty. generalize (@None char) at 1.
  induction l as [|c l IH]; intros prev H.
  - cbn [app]. rewrite sub_from_no_match.
    + f_equal. apply sub_from_echo_prev.
    + rewrite match_at_echo.
      change (nl :: rest) with ([] ++ nl :: rest).
      rewrite (prefix_by_before ieq marker [] nl rest Hnl Hne).
      destruct marker; [congruence|reflexivity].
  - apply occurs_by_cons_false in H. destruct H as [H1 H2].
    cbn [app]. rewrite sub_from_no_match.
    + f_equal. now apply IH.
    + rewrite match_at_echo.
      change (c :: l ++ nl :: rest) with ((c :: l) ++ nl :: rest).
      now rewrite (prefix_by_before ieq marker (c :: l) nl rest Hnl Hne), H1.
Qed.

(** One substitution, line by line. *)
Lemma sub_echo_lines (marker : str) (lines : list str) :
  newline_free marker = true ->
  (forall l, In l lines -> ~ In nl l) ->
  sub_empty (echo_re marker) (join [nl] lines) = drop_echoes marker lines.
Proof.
  intros Hm. induction lines as [|l lines IH]; intros H; [reflexivity|].
  destruct lines as [|l2 lines].
  - cbn [join drop_echoes]. apply sub_echo_no_newline, H. now left.
  - rewrite join_cons by discriminate.
    change (drop_echoes marker (l :: l2 :: lines))
      with (match before_marker marker l with
            | Some pre => pre ++ drop_echoes marker (l2 :: lines)
            | None => l ++ nl :: drop_echoes marker (l2 :: lines)
            end).
    rewrite <- IH by (intros x Hx; apply H; now right).
    cbn [app].
    destruct (before_marker marker l) as [pre|] eqn:E.
    + apply sub_echo_cut_line; [exact Hm|apply H; now left|exact E].
    + apply sub_echo_keep_line; [exact Hm|now apply before_marker_none].
Qed.

Lemma sub_echo_by_lines (marker code : str) :
  newline_free marker = true ->
  sub_empty (echo_re marker) code = drop_echoes marker (split nl code).
Proof.
  intros Hm. rewrite <- (join_split nl code) at 1.
  apply sub_echo_lines; [exact Hm|].
  intros l. apply split_pieces_no_sep.
Qed.

(** C4, as the code has it.  The echo removal of the cleaner works line by
    line, for the marker [# Response:] first and for [// Response:] on what
    that leaves, letters compared without regard to case: a line that is
    followed by a newline and holds the marker loses everything from the
    first occurrence of the marker, wherever on the line it starts, through
    the newline, so that the next line is joined to what precedes the
    marker; every other line is kept, and so is the last line, which no
    newline follows.  In particular a text without a newline is left as it
    is. *)
Theorem echo_removed_wherever_it_starts (code : str) :
  remove_echo code
  = drop_echoes slash_marker
      (split nl (drop_echoes hash_marker (split nl code)))
  /\ (~ In nl code -> remove_echo code = code).
Proof.
  unfold remove_echo, echo_hash_re, echo_slash_re.
  fold hash_marker. fold slash_marker. split.
  - rewrite (sub_echo_by_lines hash_marker code eq_refl).
    apply sub_echo_by_lines. reflexivity.
  - intros H. rewrite (sub_echo_no_newline hash_marker code H).
    apply sub_echo_no_newline, H.
Qed.

Lemma echo_removed_wherever_it_starts_witness :
  remove_echo (py "x = 1 # response: hi\ny = 2 // RESPONSE:\n# Response: z")
  = py "x = 1 y = 2 # Response: z"
  /\ remove_echo (py "x = 1 # Response: hi") = py "x = 1 # Response: hi".
Proof.
  split.
  - destruct (echo_removed_wherever_it_starts
                (py "x = 1 # response: hi\ny = 2 // RESPONSE:\n# Response: z"))
      as [H _].
    apply (eq_trans H). vm_compute. reflexivity.
  - destruct (echo_removed_wherever_it_starts (py "x = 1 # Response: hi"))
      as [_ H].
    apply H. vm_compute. intros H'. repeat destruct H' as [H'|H'];
      try discriminate; exact H'.
Defined.

(* ================================================================== *)
(** * Cleaning what is already clean *)
(* ================================================================== *)

Lemma echo_occurs_cons_false (marker : str) (c : char) (s : str) :
  echo_occurs marker (c :: s) = false ->
  prefix_by ieq marker (c :: s) && mem nl (c :: s) = false
  /\ echo_occurs marker s = false.
Proof. cbn [echo_occurs]. apply orb_false_elim. Qed.

Lemma echo_occurs_app_l (marker a s : str) :
  echo_occurs marker (a ++ s) = false -> echo_occurs marker s = false.
Proof.
  induction a as [|x a IH]; [easy|].
  cbn [app]. intros H. apply echo_occurs_cons_false in H. now apply IH.
Qed.

Lemma mem_app_r (c : char) (s b : str) :
  mem c s = true -> mem c (s ++ b) = true.
Proof.
  unfold mem. rewrite existsb_app. intros H. apply orb_true_intro. now left.
Qed.

Lemma echo_occurs_app_r (marker s b : str) :
  echo_occurs marker (s ++ b) = false -> echo_occurs marker s = false.
Proof.
  induction s as [|x s IH].
  - intros _. cbn [echo_occurs mem existsb]. now rewrite andb_false_r.
  - cbn [app]. intros H. apply echo_occurs_cons_false in H.
    destruct H as [H1 H2]. cbn [echo_occurs]. rewrite (IH H2), orb_false_r.
    destruct (prefix_by ieq marker (x :: s)) eqn:Ep; [|reflexivity].
    destruct (mem nl (x :: s)) eqn:Em; [|reflexivity].
    apply (prefix_by_app_r ieq marker _ b) in Ep.
    apply (mem_app_r nl _ b) in Em. cbn [app] in Ep, Em.
    now rewrite Ep, Em in H1.
Qed.

(** Trimming brings no echo into a text. *)
Lemma echo_occurs_strip (marker s : str) :
  echo_occurs marker s = false -> echo_occurs marker (strip s) = false.
Proof.
  intros H. destruct (strip_part s) as (a & b & E). rewrite E in H.
  apply echo_occurs_app_l in H. now apply echo_occurs_app_r in H.
Qed.

Lemma mem_false_not_in (c : char) (s : str) : mem c s = false -> ~ In c s.
Proof.
  unfold mem. intros H Hin.
  assert (existsb (N.eqb c) s = true) as E
    by (apply existsb_exists; exists c; split; [exact Hin|apply N.eqb_refl]).
  congruence.
Qed.

Lemma not_in_mem_false (c : char) (s : str) : ~ In c s -> mem c s = false.
Proof.
  unfold mem. intros H. destruct (existsb (N.eqb c) s) eqn:E; [|reflexivity].
  apply existsb_exists in E. destruct E as (x & Hx & Ex).
  apply N.eqb_eq in Ex. subst x. contradiction.
Qed.

(** Where no marker is followed by a newline the substitution deletes
    nothing. *)
Lemma sub_echo_free (marker s : str) :
  echo_occurs marker s = false -> sub_empty (echo_re marker) s = s.
Proof.
  unfold sub_empty. generalize (@None char).
  induction s as [|c s IH]; intros prev H; [reflexivity|].
  apply echo_occurs_cons_false in H. destruct H as [H1 H2].
  rewrite sub_from_no_match; [f_equal; now apply IH|].
  rewrite match_at_echo.
  destruct (prefix_by ieq marker (c :: s)) eqn:Ep; [|reflexivity].
  cbn [andb] in H1. apply echo_tail_no_newline. intros Hin.
  apply (mem_false_not_in _ _ H1).
  rewrite <- (firstn_skipn (length marker) (c :: s)).
  apply in_or_app. now right.
Qed.

Lemma remove_echo_free (code : str) :
  echo_occurs hash_marker code = false ->
  echo_occurs slash_marker code = false ->
  remove_echo code = code.
Proof.
  intros H1 H2. unfold remove_echo, echo_hash_re, echo_slash_re.
  fold hash_marker. fold slash_marker.
  rewrite (sub_echo_free hash_marker code H1).
  now apply sub_echo_free.
Qed.

Lemma echo_occurs_no_newline (marker l : str) :
  ~ In nl l -> echo_occurs marker l = false.
Proof.
  induction l as [|c l IH]; intros H.
  - cbn [echo_occurs mem existsb]. now rewrite andb_false_r.
  - cbn [echo_occurs]. rewrite (not_in_mem_false _ _ H), andb_false_r.
    apply IH. intros Hin. apply H. now right.
Qed.

(** In a line followed by a newline every occurrence of the marker is an
    echo. *)
Lemma echo_occurs_line (marker l rest : str) :
  newline_free marker = true ->
  echo_occurs marker (l ++ nl :: rest)
  = occurs_by ieq marker l || echo_occurs marker rest.
Proof.
  intros Hm. destruct (newline_free_spec marker Hm) as [Hne Hnl].
  induction l as [|c l IH].
  - cbn [app echo_occurs occurs_by].
    change (nl :: rest) with ([] ++ nl :: rest) at 1.
    rewrite (prefix_by_before ieq marker [] nl rest Hnl Hne).
    destruct marker; [congruence|reflexivity].
  - cbn [app echo_occurs occurs_by]. rewrite IH.
    change (c :: l ++ nl :: rest) with ((c :: l) ++ nl :: rest).
    rewrite (prefix_by_before ieq marker (c :: l) nl rest Hnl Hne).
    assert (mem nl ((c :: l) ++ nl :: rest) = true) as ->.
    { unfold mem. rewrite existsb_app. cbn [existsb].
      rewrite N.eqb_refl. now rewrite orb_true_r. }
    rewrite andb_true_r. now rewrite orb_assoc.
Qed.

(** Lines changed one by one, none gaining the marker, hold no echo when
    the lines they come from hold none. *)
Lemma echo_occurs_join (marker : str) (ls ls' : list str) :
  newline_free marker = true ->
  Forall2 (fun l l' =>
             (occurs_by ieq marker l = false ->
              occurs_by ieq marker l' = false)
             /\ ~ In nl l') ls ls' ->
  echo_occurs marker (join [nl] ls) = false ->
  echo_occurs marker (join [nl] ls') = false.
Proof.
  intros Hm H. induction H as [|l l' ls ls' [Hl Hnl] H IH]; [easy|].
  destruct H as [|l2 l2' ls ls' H2 H].
  - intros _. cbn [join]. now apply echo_occurs_no_newline.
  - rewrite (join_cons [nl] l (l2 :: ls)) by discriminate.
    rewrite (join_cons [nl] l' (l2' :: ls')) by discriminate.
    cbn [app].
    rewrite (echo_occurs_line marker l _ Hm).
    rewrite (echo_occurs_line marker l' _ Hm).
    intros E. apply orb_false_elim in E. destruct E as [E1 E2].
    rewrite (Hl E1). apply IH, E2.
Qed.

Lemma Forall2_enumerate (A B : Type) (R : A -> B -> Prop)
  (f : nat * A -> B) (l : list A) :
  (forall i x, In x l -> R x (f (i, x))) ->
  forall k, Forall2 R l (map f (combine (seq k (length l)) l)).
Proof.
  induction l as [|x l IH]; intros H k; [constructor|].
  cbn [length seq combine map]. constructor.
  - apply H. now left.
  - apply IH. intros i y Hy. apply H. now right.
Qed.

Lemma occurs_by_fix_line (marker : str) (lines : list str) (i : nat)
  (x : str) :
  (forall s, prefix_by ieq marker (32%N :: s) = false) ->
  occurs_by ieq marker x = false ->
  occurs_by ieq marker (fix_line lines i x) = false.
Proof.
  intros Hsp H.
  assert (occurs_by ieq marker (rstrip x) = false) as Hr.
  { destruct (rstrip_part x) as [b E]. rewrite E in H.
    now apply occurs_by_app_r in H. }
  unfold fix_line.
  destruct (_ && _ && _); [|exact Hr].
  destruct (_ && _); [|exact Hr].
  change (py "    " ++ rstrip x) with (32 :: 32 :: 32 :: 32 :: rstrip x)%N.
  cbn [occurs_by]. now rewrite !Hsp, Hr.
Qed.

(** The repair brings no echo into a text that has none. *)
Lemma echo_occurs_fix (marker code msg : str) :
  newline_free marker = true ->
  (forall s, prefix_by ieq marker (32%N :: s) = false) ->
  echo_occurs marker code = false ->
  echo_occurs marker (_fix_python_syntax code msg) = false.
Proof.
  intros Hm Hsp H. rewrite <- (join_split nl code) in H.
  unfold _fix_python_syntax.
  apply (echo_occurs_join marker (split nl code)); [exact Hm| |exact H].
  apply Forall2_enumerate. intros i x Hx. cbn [fst snd]. split.
  - now apply occurs_by_fix_line.
  - apply fix_line_no_newline. now apply (split_pieces_no_sep nl code).
Qed.

Lemma already_clean_strip (code : str) :
  already_clean code -> already_clean (strip code).
Proof.
  intros (H1 & H2 & H3). repeat split;
    [now apply occurs_by_strip|now apply echo_occurs_strip..].
Qed.

Lemma already_clean_fix (code msg : str) :
  already_clean code -> already_clean (_fix_python_syntax code msg).
Proof.
  intros (H1 & H2 & H3). repeat split.
  - now apply contains_fix_python_syntax.
  - apply echo_occurs_fix; [reflexivity|reflexivity|exact H2].
  - apply echo_occurs_fix; [reflexivity|reflexivity|exact H3].
Qed.

(** On a text without fence and echo the cleaner is the check of the
    parser, the repair and the trimming. *)
Lemma clean_already_clean (ast_parse : str -> parse_outcome)
  (code language : str) :
  already_clean code ->
  _clean_generated_code ast_parse code language
  = if str_eqb language (py "python") then
      match ast_parse code with
      | Parsed => inr (strip code)
      | SyntaxError m => inr (strip (_fix_python_syntax code m))
      | ParseRaises e => inl e
      end
    else inr (strip code).
Proof.
  intros (H1 & H2 & H3). unfold _clean_generated_code.
  rewrite (remove_fences_clean code H1), (remove_echo_free code H2 H3).
  destruct (str_eqb language (py "python")); [|reflexivity].
  now destruct (ast_parse code).
Qed.

(** What the cleaner returns on such a text is again without fence and
    echo, and trimmed. *)
Lemma clean_result_clean (ast_parse : str -> parse_outcome)
  (code language c1 : str) :
  already_clean code ->
  _clean_generated_code ast_parse code language = inr c1 ->
  already_clean c1 /\ strip c1 = c1.
Proof.
  intros Hc. rewrite (clean_already_clean ast_parse code language Hc).
  destruct (str_eqb language (py "python")).
  - destruct (ast_parse code) as [|m|e]; intros [= <-].
    + split; [now apply already_clean_strip|apply strip_idem].
    + split; [now apply already_clean_strip, already_clean_fix
             |apply strip_idem].
  - intros [= <-]. split; [now apply already_clean_strip|apply strip_idem].
Qed.

Lemma rstrip_by_length (p : char -> bool) (s : str) :
  length (rstrip_by p s) <= length s.
Proof.
  unfold rstrip_by. rewrite length_rev.
  pose proof (drop_while_length p (rev s)) as H. now rewrite length_rev in H.
Qed.

(** A trimmed text that is not empty begins with a character that is not
    white space, and has no white space at its end. *)
Lemma strip_fixpoint (c : char) (t : str) :
  strip (c :: t) = c :: t -> isspace c = false /\ rstrip (c :: t) = c :: t.
Proof.
  unfold strip, lstrip_by. intros H. cbn [drop_while] in H.
  destruct (isspace c) eqn:E; [exfalso|now split].
  apply (f_equal (@length char)) in H.
  pose proof (rstrip_by_length isspace (drop_while isspace t)).
  pose proof (drop_while_length isspace t). cbn [length] in H. lia.
Qed.

Lemma rstrip_by_app_space (p : char -> bool) (a w : str) :
  forallb p w = true -> rstrip_by p (a ++ w) = rstrip_by p a.
Proof.
  induction w as [|x w IH] using rev_ind; intros H.
  - now rewrite app_nil_r.
  - rewrite forallb_app in H. apply andb_prop in H. destruct H as [Hw Hx].
    cbn [forallb] in Hx. rewrite andb_true_r in Hx.
    rewrite app_assoc, rstrip_by_snoc_go by exact Hx. now apply IH.
Qed.

Lemma join_snoc (init : list str) (x : str) :
  join [nl] (init ++ [x])
  = match init with
    | [] => x
    | _ :: _ => join [nl] init ++ nl :: x
    end.
Proof.
  induction init as [|a init IH]; [reflexivity|].
  destruct init as [|b init]; [reflexivity|].
  change ((a :: b :: init) ++ [x]) with (a :: ((b :: init) ++ [x])).
  rewrite join_cons by discriminate. rewrite IH.
  rewrite (join_cons [nl] a (b :: init)) by discriminate.
  now rewrite <- !app_assoc.
Qed.

Lemma last_nth (A : Type) (l : list A) (d : A) :
  last l d = nth (length l - 1) l d.
Proof.
  induction l as [|a l IH]; [reflexivity|].
  destruct l as [|b l]; [reflexivity|].
  change (last (a :: b :: l) d) with (last (b :: l) d). rewrite IH.
  cbn [length]. replace (S (S (length l)) - 1) with (S (S (length l) - 1))
    by lia. reflexivity.
Qed.

(** The last line of a text without white space at its end is not made of
    white space. *)
Lemma last_line_kept (c1 : str) :
  c1 <> [] -> rstrip c1 = c1 -> rstrip (last (split nl c1) []) <> [].
Proof.
  intros Hne Hr E.
  pose proof (join_split nl c1) as J.
  rewrite (app_removelast_last [] (split_not_nil nl c1)) in J.
  rewrite join_snoc in J.
  destruct (rstrip_by_decomp isspace (last (split nl c1) [])) as (w & Ew & Hw).
  fold (rstrip (last (split nl c1) [])) in Ew. rewrite E in Ew.
  cbn [app] in Ew.
  change (@last (list char)) with (@last str) in J.
  change (@removelast (list char)) with (@removelast str) in J.
  rewrite Ew in J.
  destruct (removelast (split nl c1)) as [|a init].
  - rewrite Ew in E. rewrite <- J in Hr, Hne. rewrite E in Hr.
    apply Hne. now symmetry.
  - rewrite <- J in Hr. unfold rstrip in Hr.
    rewrite rstrip_by_app_space in Hr by (cbn [forallb]; now rewrite Hw).
    apply (f_equal (@length char)) in Hr.
    pose proof (rstrip_by_length isspace (join [nl] (a :: init))).
    rewrite length_app in Hr. cbn [length] in Hr. lia.
Qed.

Lemma fix_line_not_nil (lines : list str) (i : nat) (l : str) :
  rstrip l <> [] -> fix_line lines i l <> [].
Proof.
  intros H. unfold fix_line.
  destruct (_ && _ && _); [|exact H].
  destruct (_ && _); [discriminate|exact H].
Qed.

(** The repair of a trimmed text begins with the character the text begins
    with. *)
Lemma fix_head (c : char) (t msg : str) :
  isspace c = false -> exists y, _fix_python_syntax (c :: t) msg = c :: y.
Proof.
  intros Hc. unfold _fix_python_syntax.
  assert (c <> nl) as Hn by (intros ->; discriminate).
  destruct (split_cons nl t) as (l0 & ls & E).
  assert (split nl (c :: t) = (c :: l0) :: ls) as ->.
  { cbn [split]. destruct (N.eqb_spec c nl); [contradiction|]. now rewrite E. }
  unfold enumerate. cbn [length seq combine map fst snd].
  rewrite fix_line_no_colon by lia.
  destruct (rstrip_by_head isspace c l0 Hc) as [s' Es].
  unfold rstrip. rewrite Es.
  destruct (map _ _); cbn [join app]; eauto.
Qed.

Lemma rstrip_join_last (init : list str) (x : str) :
  x <> [] -> rstrip x = x ->
  rstrip (join [nl] (init ++ [x])) = join [nl] (init ++ [x]).
Proof.
  intros Hx Hr. rewrite join_snoc. destruct init as [|a init]; [exact Hr|].
  change (join [nl] (a :: init) ++ nl :: x)
    with (join [nl] (a :: init) ++ [nl] ++ x).
  rewrite app_assoc. now apply rstrip_app_keep.
Qed.

(** The repair of a trimmed text is trimmed. *)
Lemma fix_keeps_trimmed (c1 m : str) :
  strip c1 = c1 ->
  strip (_fix_python_syntax c1 m) = _fix_python_syntax c1 m.
Proof.
  intros Hs. destruct c1 as [|c t]; [reflexivity|].
  destruct (strip_fixpoint c t Hs) as [Hc Hr].
  destruct (fix_head c t m Hc) as [y Ey].
  unfold strip, lstrip_by. rewrite Ey at 1. cbn [drop_while]. rewrite Hc.
  rewrite <- Ey. fold (rstrip (_fix_python_syntax (c :: t) m)).
  unfold _fix_python_syntax. fold (fixed_lines (split nl (c :: t))).
  assert (fixed_lines (split nl (c :: t)) <> []) as Hne.
  { intros E. apply (f_equal (@length str)) in E.
    rewrite fixed_lines_length in E.
    destruct (split nl (c :: t)) eqn:E'; [|discriminate].
    now apply split_not_nil in E'. }
  assert (last (fixed_lines (split nl (c :: t))) [] <> []
          /\ rstrip (last (fixed_lines (split nl (c :: t))) [])
             = last (fixed_lines (split nl (c :: t))) []) as [Hl1 Hl2].
  { rewrite last_nth, fixed_lines_length.
    assert (length (split nl (c :: t)) - 1 < length (split nl (c :: t))) as Hi.
    { destruct (split nl (c :: t)) eqn:E'; [now apply split_not_nil in E'|].
      cbn [length]. lia. }
    rewrite (fixed_lines_nth _ _ Hi). split; [|apply fix_line_trimmed].
    apply fix_line_not_nil. rewrite <- last_nth.
    apply last_line_kept; [discriminate|exact Hr]. }
  change (py "\n") with [nl].
  rewrite (app_removelast_last [] Hne). now apply rstrip_join_last.
Qed.

(** C7, as the code has it.  On a text that holds no fence marker and no
    echo, cleaning twice is cleaning once exactly when the second cleaning
    has nothing to repair: for every language other than Python, always;
    for Python, when the parser accepts the text the first cleaning
    returned (whether or not the first cleaning repaired it), or rejects
    it with a [SyntaxError] while the repair leaves it unchanged.  When
    the first cleaning raises, so does cleaning twice. *)
Theorem clean_idempotent_on_clean_input (ast_parse : str -> parse_outcome)
  (code language : str) :
  already_clean code ->
  (c <- _clean_generated_code ast_parse code language ;;
   _clean_generated_code ast_parse c language)
  = _clean_generated_code ast_parse code language
  <-> (forall c1,
         _clean_generated_code ast_parse code language = inr c1 ->
         language = py "python" ->
         ast_parse c1 = Parsed
         \/ exists m, ast_parse c1 = SyntaxError m
                      /\ _fix_python_syntax c1 m = c1).
Proof.
  intros Hc.
  destruct (_clean_generated_code ast_parse code language) as [e|c1] eqn:E1.
  { cbn [bind]. split; [discriminate|reflexivity]. }
  destruct (clean_result_clean ast_parse code language c1 Hc E1) as [Hc1 Hs].
  cbn [bind]. rewrite (clean_already_clean ast_parse c1 language Hc1), Hs.
  destruct (str_eqb language (py "python")) eqn:El.
  - apply str_eqb_eq in El. split.
    + intros H c [= <-] _.
      destruct (ast_parse c1) as [|m|e]; [now left| |discriminate].
      right. exists m. split; [reflexivity|].
      rewrite <- (fix_keeps_trimmed c1 m Hs). now injection H.
    + intros H. destruct (H c1 eq_refl El) as [->|(m & -> & ->)];
        [reflexivity|now rewrite Hs].
  - split; [|reflexivity]. intros _ c _ El'.
    apply str_eqb_eq in El'. congruence.
Qed.

Lemma clean_idempotent_on_clean_input_witness :
  (c <- _clean_generated_code parse_example (py "if True:\nprint('x')")
                              (py "python") ;;
   _clean_generated_code parse_example c (py "python"))
  = _clean_generated_code parse_example (py "if True:\nprint('x')")
                          (py "python")
  /\ _clean_generated_code parse_example (py "if True:\nprint('x')")
                           (py "python")
     = inr (py "if True:\n    print('x')").
Proof.
  split; [|vm_compute; reflexivity].
  apply (clean_idempotent_on_clean_input parse_example).
  - repeat split; vm_compute; reflexivity.
  - intros c1 E _. left. vm_compute in E. injection E as <-.
    vm_compute. reflexivity.
Defined.

(** The premise asks that no echo marker be followed by a newline anywhere
    in the text, not only that no line begin with one: deleting an echo
    inside a line can put a marker together. *)
Remark clean_not_idempotent_marker_inside_line
  (ast_parse : str -> parse_outcome) :
  forallb (fun l => negb (prefix_by ieq hash_marker l)
                    && negb (prefix_by ieq slash_marker l))
          (split nl (py "a # Resp# Response: \nonse: b\nc")) = true
  /\ _clean_generated_code ast_parse (py "a # Resp# Response: \nonse: b\nc")
                           (py "text")
     = inr (py "a # Response: b\nc")
  /\ _clean_generated_code ast_parse (py "a # Response: b\nc") (py "text")
     = inr (py "a c").
Proof. repeat split; vm_compute; reflexivity. Qed.

(** C7, as stated, fails for Python: the text [if True: ] followed by an
    unindented line holds no fence and no echo marker, and with a parser
    that rejects such a block, as CPython does, cleaning it twice differs
    from cleaning it once. *)
Lemma clean_not_idempotent_for_python :
  already_clean (py "if True: \nprint('x')")
  /\ (forall ast_parse,
        rejects_unindented_block ast_parse ->
        (c <- _clean_generated_code ast_parse (py "if True: \nprint('x')")
                                    (py "python") ;;
         _clean_generated_code ast_parse c (py "python"))
        <> _clean_generated_code ast_parse (py "if True: \nprint('x')")
                                 (py "python"))
  /\ exists ast_parse, rejects_unindented_block ast_parse.
Proof.
  split; [repeat split; vm_compute; reflexivity|]. split.
  - intros ast_parse Hr.
    destruct (clean_repairs_on_second_pass _ Hr) as [E1 E2].
    rewrite E1. cbn [bind]. rewrite E2. discriminate.
  - exists (fun _ => SyntaxError []). split; now exists [].
Qed.

(* ================================================================== *)
(** * Instances *)
(* ================================================================== *)

Lemma heuristic_paths_witness :
  exists files,
    _parse_structure_response 1000 (py "Plan:\n - - src/main.py\n.go\n")
    = inr (JObj [ (py "name", JStr (py "project"));
                  (py "files", JArr files) ])
    /\ Forall (fun f =>
                 exists p l,
                   f = JObj [ (py "path", JStr p); (py "language", JStr l) ]
                   /\ is_source_line p = true
                   /\ match p with
                      | [] => False
                      | c :: _ => list_marker c = false
                      end) files.
Proof.
  apply (heuristic_paths 1000 (py "Plan:\n - - src/main.py\n.go\n")).
  intros H. apply search_json_block_complete in H. apply H.
  vm_compute. reflexivity.
Defined.

Lemma heuristic_languages_witness :
  exists files,
    _parse_structure_response 1000 (py "Plan:\n - - src/main.py\n.go\n")
    = inr (JObj [ (py "name", JStr (py "project"));
                  (py "files", JArr files) ])
    /\ Forall (fun f =>
                 exists p l,
                   f = JObj [ (py "path", JStr p); (py "language", JStr l) ]
                   /\ In l source_tags) files.
Proof.
  apply (heuristic_languages 1000 (py "Plan:\n - - src/main.py\n.go\n")).
  intros H. apply search_json_block_complete in H. apply H.
  vm_compute. reflexivity.
Defined.

Lemma fix_python_syntax_lines_trimmed_witness :
  In (py "    y") (split nl (_fix_python_syntax (py "if x:\ny  \t") (py "")))
  /\ rstrip (py "    y") = py "    y".
Proof.
  assert (In (py "    y")
             (split nl (_fix_python_syntax (py "if x:\ny  \t") (py ""))))
    as H by (vm_compute; tauto).
  split; [exact H|].
  exact (fix_python_syntax_lines_trimmed _ _ _ H).
Defined.

Lemma fix_python_syntax_settles_witness :
  _fix_python_syntax (_fix_python_syntax (py "if x:\ny") (py "")) (py "")
  = _fix_python_syntax (py "if x:\ny") (py "").
Proof.
  destruct fix_python_syntax_settles as [H _]. apply H.
  intros l Hl. vm_compute in Hl.
  destruct Hl as [<-|[<-|[]]]; reflexivity.
Defined.
